(** * Verification of the plankton pipeline scripts

    A shallow embedding of the orchestration code of the repository:

    - [buffered_detection.py]: the bounded frame queue, the processing worker
      and the recording loop of [BufferedDetector] (module [Buffered]);
    - [simulate_pipeline.py]: the seven-step run of [simulate_single_sample]
      (module [Simulate]);
    - [batch_process.py]: [process_single_image], [summarize_results] and the
      batch loop of [main] (module [Batch]);
    - the analytics and the configuration validator, whose sources are not part
      of the scripts: they are modelled from the specification (modules
      [Analytics] and [Validator]).

    Python integers are unbounded: counters are [nat].  Dictionaries are
    [gmap]s, or records of optional fields when the keys are fixed.  A call
    that can raise returns in the exception monad [Exc]. *)

From Stdlib Require Import ZArith QArith Reals Lra Lia.
From stdpp Require Import gmap strings list sorting.

Local Open Scope string_scope.
Local Open Scope list_scope.
Local Open Scope nat_scope.

(** ** Exceptions *)

Inductive Exn : Type :=
| KeyError (key : string)
| TypeError (msg : string)
| ValueError (msg : string)
| RuntimeError (msg : string).

Inductive Exc (A : Type) : Type :=
| Raised (e : Exn)
| Returned (a : A).

Arguments Raised {A} e.
Arguments Returned {A} a.

Definition exc_bind {A B : Type} (k : A -> Exc B) (m : Exc A) : Exc B :=
  match m with
  | Raised e => Raised e
  | Returned a => k a
  end.

#[global] Instance exc_mret : MRet Exc := @Returned.
#[global] Instance exc_mbind : MBind Exc := @exc_bind.

(** [d[key]] on a dictionary whose entry for [key] may be absent. *)
Definition getitem {A : Type} (key : string) (o : option A) : Exc A :=
  match o with
  | Some a => Returned a
  | None => Raised (KeyError key)
  end.

(** The test [status != 'success'] of the scripts. *)
Definition is_success (status : string) : bool := String.eqb status "success".

(** ** buffered_detection.py *)

Module Buffered.

(** Results of the three modules, as the dictionaries they return.  A key the
    module did not set is [None]; reading it raises [KeyError]. *)

Record ClassifiedOrganism : Type := {
  predicted_class : option string;
  bbox : Z * Z * Z * Z
}.

(** [queue.Queue(maxsize)]: the items in FIFO order and the count of
    unfinished tasks that [join] waits on.  A [maxsize] of zero or less means
    an unbounded queue. *)
Record Queue (A : Type) : Type := {
  items : list A;
  maxsize : Z;
  unfinished_tasks : nat
}.

Arguments items {A} q.
Arguments maxsize {A} q.
Arguments unfinished_tasks {A} q.

Definition new_queue {A : Type} (size : Z) : Queue A :=
  {| items := []; maxsize := size; unfinished_tasks := 0 |}.

Definition full {A : Type} (q : Queue A) : bool :=
  (0 <? maxsize q)%Z && (maxsize q <=? Z.of_nat (length (items q)))%Z.

(** [put(item, block=False)]: [None] stands for raising [queue.Full]. *)
Definition put_nowait {A : Type} (item : A) (q : Queue A) : option (Queue A) :=
  if full q then None
  else Some {| items := items q ++ [item];
               maxsize := maxsize q;
               unfinished_tasks := S (unfinished_tasks q) |}.

(** [get(timeout=0.5)]: [None] stands for raising [queue.Empty] when the
    timeout has passed. *)
Definition get {A : Type} (q : Queue A) : option (A * Queue A) :=
  match items q with
  | [] => None
  | item :: rest =>
      Some (item, {| items := rest;
                     maxsize := maxsize q;
                     unfinished_tasks := unfinished_tasks q |})
  end.

(** [task_done()]: raises [ValueError] when called more often than [put]. *)
Definition task_done {A : Type} (q : Queue A) : Exc (Queue A) :=
  match unfinished_tasks q with
  | O => Raised (ValueError "task_done() called too many times")
  | S n => Returned {| items := items q;
                       maxsize := maxsize q;
                       unfinished_tasks := n |}
  end.

Section Detector.

Variables Frame Image Metadata Organism : Type.

Record PrepResult : Type := {
  prep_status : option string;
  prep_preprocessed_image : option Image;
  prep_metadata : option Metadata
}.

Record SegResult : Type := {
  seg_status : option string;
  seg_organisms : option (list Organism);
  seg_metadata : option Metadata
}.

Record ClassResult : Type := {
  class_status : option string;
  class_classified_organisms : option (list ClassifiedOrganism)
}.

(** The external collaborators: colour conversion and the three modules,
    each a function of the values it is handed (the timestamp that
    [process_frame] adds to the preprocessing input is left out). *)
Variable cvtColor : Frame -> Exc Image.
Variable preprocessor : Image -> Exc PrepResult.
Variable segmenter : Image -> Image -> Metadata -> Exc SegResult.
Variable classifier : list Organism -> Metadata -> Exc ClassResult.

(** The dictionary [process_frame] returns on success. *)
Record FrameResult : Type := {
  frame_number : nat;
  organisms : list ClassifiedOrganism;
  frame : Frame
}.

(** Log records of level warning and error (informational lines are left
    out). *)
Inductive LogRecord : Type :=
| ErrorProcessingFrame (frame_number : nat) (e : Exn)
| WorkerError (e : Exn)
| WarningQueueFull (frame_number : nat)
| WarningFailedToReadFrame.

(** The body of the [try] block of [process_frame]. *)
Definition process_frame_body (frame : Frame) (frame_number : nat)
  : Exc (option FrameResult) :=
  frame_rgb ← cvtColor frame;
  prep_result ← preprocessor frame_rgb;
  status ← getitem "status" (prep_status prep_result);
  if negb (is_success status) then Returned None else
  preprocessed ← getitem "preprocessed_image" (prep_preprocessed_image prep_result);
  metadata ← getitem "metadata" (prep_metadata prep_result);
  seg_result ← segmenter preprocessed frame_rgb metadata;
  status ← getitem "status" (seg_status seg_result);
  if negb (is_success status) then Returned None else
  orgs ← getitem "organisms" (seg_organisms seg_result);
  if Nat.eqb (length orgs) 0 then Returned None else
  metadata ← getitem "metadata" (seg_metadata seg_result);
  class_result ← classifier orgs metadata;
  status ← getitem "status" (class_status class_result);
  if negb (is_success status) then Returned None else
  classified ← getitem "classified_organisms" (class_classified_organisms class_result);
  Returned (Some {| frame_number := frame_number;
                    organisms := classified;
                    frame := frame |}).

(** [process_frame]: the result, or [None], and what it logged. *)
Definition process_frame (frame : Frame) (frame_number : nat)
  : option FrameResult * list LogRecord :=
  match process_frame_body frame frame_number with
  | Returned r => (r, [])
  | Raised e => (None, [ErrorProcessingFrame frame_number e])
  end.

(** The attributes of a [BufferedDetector] that change during a session, and
    the records the logger has received. *)
Record Detector : Type := {
  frame_queue : Queue (Frame * nat);
  results_queue : list FrameResult;
  frames_captured : nat;
  frames_processed : nat;
  total_organisms : nat;
  species_counts : gmap string nat;
  processing : bool;
  log : list LogRecord
}.

(** [__init__], after the configuration and the modules are loaded. *)
Definition init (queue_size : Z) : Detector :=
  {| frame_queue := new_queue queue_size;
     results_queue := [];
     frames_captured := 0;
     frames_processed := 0;
     total_organisms := 0;
     species_counts := ∅;
     processing := false;
     log := [] |}.

Definition set_frame_queue (q : Queue (Frame * nat)) (d : Detector) : Detector :=
  {| frame_queue := q; results_queue := results_queue d;
     frames_captured := frames_captured d; frames_processed := frames_processed d;
     total_organisms := total_organisms d; species_counts := species_counts d;
     processing := processing d; log := log d |}.

Definition set_results_queue (r : list FrameResult) (d : Detector) : Detector :=
  {| frame_queue := frame_queue d; results_queue := r;
     frames_captured := frames_captured d; frames_processed := frames_processed d;
     total_organisms := total_organisms d; species_counts := species_counts d;
     processing := processing d; log := log d |}.

Definition set_processing (b : bool) (d : Detector) : Detector :=
  {| frame_queue := frame_queue d; results_queue := results_queue d;
     frames_captured := frames_captured d; frames_processed := frames_processed d;
     total_organisms := total_organisms d; species_counts := species_counts d;
     processing := b; log := log d |}.

Definition incr_frames_captured (d : Detector) : Detector :=
  {| frame_queue := frame_queue d; results_queue := results_queue d;
     frames_captured := S (frames_captured d); frames_processed := frames_processed d;
     total_organisms := total_organisms d; species_counts := species_counts d;
     processing := processing d; log := log d |}.

Definition logger (records : list LogRecord) (d : Detector) : Detector :=
  {| frame_queue := frame_queue d; results_queue := results_queue d;
     frames_captured := frames_captured d; frames_processed := frames_processed d;
     total_organisms := total_organisms d; species_counts := species_counts d;
     processing := processing d; log := log d ++ records |}.

(** [self.species_counts[species] += 1] on a [defaultdict(int)], with
    [species = org.get('predicted_class', 'unknown')]. *)
Definition count_species (counts : gmap string nat) (org : ClassifiedOrganism)
  : gmap string nat :=
  let species := default "unknown" (predicted_class org) in
  <[species := S (default 0 (counts !! species))]> counts.

(** The statistics update made for a frame that has a result, followed by
    [results_queue.put(result)]. *)
Definition update_stats (result : FrameResult) (d : Detector) : Detector :=
  {| frame_queue := frame_queue d;
     results_queue := results_queue d ++ [result];
     frames_captured := frames_captured d;
     frames_processed := S (frames_processed d);
     total_organisms := total_organisms d + length (organisms result);
     species_counts := foldl count_species (species_counts d) (organisms result);
     processing := processing d;
     log := log d |}.

(** One frame through [process_frame] and the [if result:] block that
    follows it, in the worker and in [_post_process_frames] alike. *)
Definition handle_frame (item : Frame * nat) (d : Detector) : Detector :=
  let '(result, records) := process_frame item.1 item.2 in
  let d := logger records d in
  match result with
  | Some r => update_stats r d
  | None => d
  end.

(** [_post_process_frames]. *)
Definition _post_process_frames (frames : list (Frame * nat)) (d : Detector)
  : Detector :=
  foldl (fun d item => handle_frame item d) d frames.

(** [_generate_annotated_video] empties the results queue (the video it
    writes is not modelled); it runs when a frame has been processed. *)
Definition finish (d : Detector) : Detector :=
  if 0 <? frames_processed d then set_results_queue [] d else d.

(** *** [record_and_process] and [processing_worker] as two threads

    The main thread records, then runs the [finally] block; the worker thread
    runs [processing_worker].  Each thread has a program counter, and an
    [Action] is one atomic step of one of the threads.

    What the model takes as given: the capture device opened (otherwise
    [record_and_process] returns at once); the calls of the queue ([put],
    [get], [task_done], [join]) are atomic; organisms are dictionaries, so
    that the statistics update itself raises nothing; and the [finally] block
    runs to its end.

    A complete turn of the recording loop is one step: only the recording
    thread counts frames and puts them on the queue, so the turn takes effect
    at the moment of its [put].  The loop is left between two turns, by the
    duration limit, a failed read, the quit key or a keyboard interrupt, or
    in the middle of a turn by the [KeyboardInterrupt] that the loop catches
    (the same states are reached when writing or showing the video raises
    another exception, which goes on after the [finally] block).  An
    interrupt that arrives before the frame is counted, or after it is queued
    or kept, is the same as one between two turns; the interrupt that arrives
    after [self.frames_captured += 1] and before the frame is queued, kept or
    reported as skipped is the step [TurnInterrupted]. *)

Inductive MainPc : Type :=
| Recording      (* in the [while True] loop *)
| JoinQueue      (* blocked in [self.frame_queue.join()] *)
| JoinWorker     (* [self.processing = False] done, blocked in [worker.join()] *)
| PostProcess    (* about to call [_post_process_frames] *)
| Finished.      (* [_print_summary] prints the final statistics *)

Inductive WorkerPc : Type :=
| NotStarted                       (* [process_live] is false *)
| Loop                             (* at the test of [while self.processing] *)
| Waiting                          (* blocked in [get(timeout=0.5)] *)
| Got (item : Frame * nat)         (* a frame was dequeued, [process_frame] runs *)
| BeforeTaskDone                   (* about to call [task_done()] *)
| Stopped.                         (* the loop has been left *)

Inductive StopReason : Type :=
| DurationLimit | ReadFailed | UserQuit | KeyboardInterrupt.

Inductive Action : Type :=
| ReadFrame (frame : Frame)        (* [cap.read()] gave a frame: one loop turn *)
| Stop (why : StopReason)          (* the loop is left *)
| QueueJoinReturns
| WorkerJoinReturns
| RunPostProcess
| WorkerEnter                      (* the loop test succeeds *)
| WorkerGet                        (* [get] returns a frame *)
| WorkerTimeout                    (* [get] raises [queue.Empty]: [continue] *)
| WorkerProcess                    (* [process_frame] and the statistics update *)
| WorkerTaskDone
| WorkerExit                       (* the loop test fails *)
| TurnInterrupted.                 (* a frame is read and counted, then
                                      [KeyboardInterrupt] ends the turn *)

Record Session : Type := {
  det : Detector;
  process_live : bool;
  frames_to_process : list (Frame * nat);
  main_pc : MainPc;
  worker_pc : WorkerPc;
  (** History, not a variable of the program: the result of every
      [process_frame] call made so far. *)
  outcomes : list (option FrameResult);
  (** History, not a variable of the program: the frames that were counted
      in a loop turn which a keyboard interrupt ended before the frame was
      queued, kept or reported as skipped. *)
  cut_short : nat
}.

(** The state in which the recording loop is entered: with live
    processing the flag [processing] is set and the worker thread started. *)
Definition start (queue_size : Z) (live : bool) : Session :=
  {| det := set_processing live (init queue_size);
     process_live := live;
     frames_to_process := [];
     main_pc := Recording;
     worker_pc := if live then Loop else NotStarted;
     outcomes := [];
     cut_short := 0 |}.

Definition with_det (d : Detector) (s : Session) : Session :=
  {| det := d; process_live := process_live s;
     frames_to_process := frames_to_process s;
     main_pc := main_pc s; worker_pc := worker_pc s; outcomes := outcomes s;
     cut_short := cut_short s |}.

Definition with_main (pc : MainPc) (s : Session) : Session :=
  {| det := det s; process_live := process_live s;
     frames_to_process := frames_to_process s;
     main_pc := pc; worker_pc := worker_pc s; outcomes := outcomes s;
     cut_short := cut_short s |}.

Definition with_worker (pc : WorkerPc) (s : Session) : Session :=
  {| det := det s; process_live := process_live s;
     frames_to_process := frames_to_process s;
     main_pc := main_pc s; worker_pc := pc; outcomes := outcomes s;
     cut_short := cut_short s |}.

Definition with_frames_to_process (l : list (Frame * nat)) (s : Session) : Session :=
  {| det := det s; process_live := process_live s;
     frames_to_process := l;
     main_pc := main_pc s; worker_pc := worker_pc s; outcomes := outcomes s;
     cut_short := cut_short s |}.

Definition record_outcomes (l : list (option FrameResult)) (s : Session) : Session :=
  {| det := det s; process_live := process_live s;
     frames_to_process := frames_to_process s;
     main_pc := main_pc s; worker_pc := worker_pc s;
     outcomes := outcomes s ++ l;
     cut_short := cut_short s |}.

Definition count_cut_short (s : Session) : Session :=
  {| det := det s; process_live := process_live s;
     frames_to_process := frames_to_process s;
     main_pc := main_pc s; worker_pc := worker_pc s; outcomes := outcomes s;
     cut_short := S (cut_short s) |}.

(** One turn of the recording loop on a frame that was read: count it, then
    queue it without blocking (live) or keep it for later. *)
Definition read_frame (frame : Frame) (s : Session) : Session :=
  let d := incr_frames_captured (det s) in
  let item := (frame, frames_captured d) in
  if process_live s then
    match put_nowait item (frame_queue d) with
    | Some q => with_det (set_frame_queue q d) s
    | None => with_det (logger [WarningQueueFull (frames_captured d)] d) s
    end
  else
    with_frames_to_process (frames_to_process s ++ [item]) (with_det d s).

(** Leaving the loop enters the [finally] block. *)
Definition stop (why : StopReason) (s : Session) : Session :=
  let d := match why with
           | ReadFailed => logger [WarningFailedToReadFrame] (det s)
           | _ => det s
           end in
  let s := with_det d s in
  if process_live s then with_main JoinQueue s
  else match frames_to_process s with
       | [] => with_main Finished (with_det (finish d) s)
       | _ :: _ => with_main PostProcess s
       end.

(** A turn that a keyboard interrupt ends after the frame was counted: the
    frame is neither queued nor kept, no warning is logged, and the [except]
    clause leads into the [finally] block. *)
Definition interrupted_turn (s : Session) : Session :=
  stop KeyboardInterrupt
    (count_cut_short (with_det (incr_frames_captured (det s)) s)).

Definition step (a : Action) (s : Session) : option Session :=
  match a, main_pc s, worker_pc s with
  | ReadFrame frame, Recording, _ => Some (read_frame frame s)
  | Stop why, Recording, _ => Some (stop why s)
  | QueueJoinReturns, JoinQueue, _ =>
      if Nat.eqb (unfinished_tasks (frame_queue (det s))) 0
      then Some (with_main JoinWorker (with_det (set_processing false (det s)) s))
      else None
  | WorkerJoinReturns, JoinWorker, Stopped =>
      Some (with_main Finished (with_det (finish (det s)) s))
  | RunPostProcess, PostProcess, _ =>
      let d := _post_process_frames (frames_to_process s) (det s) in
      let results := map (fun item => (process_frame item.1 item.2).1)
                         (frames_to_process s) in
      Some (with_main Finished (with_det (finish d) (record_outcomes results s)))
  | WorkerEnter, _, Loop =>
      if processing (det s) then Some (with_worker Waiting s) else None
  | WorkerGet, _, Waiting =>
      match get (frame_queue (det s)) with
      | Some (item, q) =>
          Some (with_worker (Got item) (with_det (set_frame_queue q (det s)) s))
      | None => None
      end
  | WorkerTimeout, _, Waiting =>
      match get (frame_queue (det s)) with
      | Some _ => None
      | None => Some (with_worker Loop s)
      end
  | WorkerExit, _, Loop =>
      if processing (det s) then None else Some (with_worker Stopped s)
  | WorkerProcess, _, Got item =>
      Some (with_worker BeforeTaskDone
              (with_det (handle_frame item (det s))
                 (record_outcomes [(process_frame item.1 item.2).1] s)))
  | WorkerTaskDone, _, BeforeTaskDone =>
      match task_done (frame_queue (det s)) with
      | Returned q =>
          Some (with_worker Loop (with_det (set_frame_queue q (det s)) s))
      | Raised e =>
          Some (with_worker Loop (with_det (logger [WorkerError e] (det s)) s))
      end
  | TurnInterrupted, Recording, _ => Some (interrupted_turn s)
  | _, _, _ => None
  end.

(** A schedule is a list of actions; [run] fails when an action is not
    enabled in the state it meets. *)
Fixpoint run (schedule : list Action) (s : Session) : option Session :=
  match schedule with
  | [] => Some s
  | a :: rest =>
      match step a s with
      | Some s' => run rest s'
      | None => None
      end
  end.

Definition is_queue_full_warning (r : LogRecord) : bool :=
  match r with
  | WarningQueueFull _ => true
  | _ => false
  end.

(** The number of frames the producer skipped because the queue was full.
    The detector keeps no such counter; every skipped frame leaves one
    warning in the log. *)
Definition frames_dropped (d : Detector) : nat :=
  length (filter (fun r => is_queue_full_warning r = true) (log d)).

(** The loop turns of a schedule that a keyboard interrupt cut short after
    the frame was counted.  The detector keeps no trace of them. *)
Definition is_turn_interrupted (a : Action) : bool :=
  match a with
  | TurnInterrupted => true
  | _ => false
  end.

Definition turns_cut_short (schedule : list Action) : nat :=
  length (filter (fun a => is_turn_interrupted a = true) schedule).

(** Frames the worker has taken from the queue and not yet reported with
    [task_done]. *)
Definition in_flight (pc : WorkerPc) : nat :=
  match pc with
  | Got _ | BeforeTaskDone => 1
  | _ => 0
  end.

(** Frames the worker has taken from the queue whose [process_frame] call
    has not returned yet. *)
Definition being_processed (pc : WorkerPc) : nat :=
  match pc with
  | Got _ => 1
  | _ => 0
  end.

Definition no_result (o : option FrameResult) : bool :=
  match o with
  | None => true
  | Some _ => false
  end.

Definition results_count (l : list (option FrameResult)) : nat :=
  length (filter (fun o => no_result o = false) l).

Definition no_result_count (l : list (option FrameResult)) : nat :=
  length (filter (fun o => no_result o = true) l).

(** Frames kept for post-processing that have not been processed yet. *)
Definition pending (s : Session) : nat :=
  match main_pc s with
  | Finished => 0
  | _ => length (frames_to_process s)
  end.

(** The invariant of a session. *)
Record session_inv (s : Session) : Prop := {
  inv_unfinished :
    unfinished_tasks (frame_queue (det s))
    = length (items (frame_queue (det s))) + in_flight (worker_pc s);
  inv_captured :
    frames_captured (det s)
    = frames_dropped (det s) + length (outcomes s)
      + length (items (frame_queue (det s))) + being_processed (worker_pc s)
      + pending s + cut_short s;
  inv_processed :
    frames_processed (det s) = results_count (outcomes s);
  inv_live :
    process_live s = true ->
    frames_to_process s = [] /\ worker_pc s <> NotStarted /\ main_pc s <> PostProcess;
  inv_not_live :
    process_live s = false ->
    worker_pc s = NotStarted /\ items (frame_queue (det s)) = []
    /\ processing (det s) = false
    /\ main_pc s <> JoinQueue /\ main_pc s <> JoinWorker;
  inv_recording :
    main_pc s = Recording \/ main_pc s = JoinQueue ->
    processing (det s) = process_live s /\ worker_pc s <> Stopped;
  inv_joined :
    main_pc s = JoinWorker \/ main_pc s = Finished ->
    processing (det s) = false
    /\ items (frame_queue (det s)) = [] /\ in_flight (worker_pc s) = 0;
  inv_finished :
    main_pc s = Finished ->
    worker_pc s = (if process_live s then Stopped else NotStarted);
  inv_cut_short :
    cut_short s <= 1 /\ (main_pc s = Recording -> cut_short s = 0)
}.

Definition reachable (queue_size : Z) (live : bool) (s : Session) : Prop :=
  exists schedule, run schedule (start queue_size live) = Some s.

(** *** Facts about the state updates *)

Ltac simpl_filter :=
  repeat first [ rewrite filter_cons_True by done
               | rewrite filter_cons_False by done
               | rewrite filter_nil ];
  simpl.

Lemma frames_dropped_logger (records : list LogRecord) (d : Detector) :
  frames_dropped (logger records d)
  = frames_dropped d
    + length (filter (fun r => is_queue_full_warning r = true) records).
Proof.
  unfold frames_dropped, logger; simpl.
  by rewrite filter_app, length_app.
Qed.

Lemma process_frame_cases (frame : Frame) (n : nat) :
  (exists r, process_frame frame n = (r, []))
  \/ (exists e, process_frame frame n = (None, [ErrorProcessingFrame n e])).
Proof.
  unfold process_frame.
  destruct (process_frame_body frame n) as [e|r]; [right|left]; eauto.
Qed.

Lemma handle_frame_queue (item : Frame * nat) (d : Detector) :
  frame_queue (handle_frame item d) = frame_queue d
  /\ frames_captured (handle_frame item d) = frames_captured d
  /\ processing (handle_frame item d) = processing d
  /\ frames_dropped (handle_frame item d) = frames_dropped d.
Proof.
  unfold handle_frame.
  destruct (process_frame_cases item.1 item.2) as [[r ->]|[e ->]].
  - destruct r; simpl; repeat split; try done;
      unfold frames_dropped; simpl; by rewrite app_nil_r.
  - repeat split; try done.
    rewrite frames_dropped_logger; simpl. lia.
Qed.

Lemma handle_frame_processed (item : Frame * nat) (d : Detector) :
  frames_processed (handle_frame item d)
  = frames_processed d + results_count [(process_frame item.1 item.2).1].
Proof.
  unfold handle_frame, results_count.
  destruct (process_frame item.1 item.2) as [[r|] records]; simpl.
  - lia.
  - lia.
Qed.

Lemma results_count_app (l1 l2 : list (option FrameResult)) :
  results_count (l1 ++ l2) = results_count l1 + results_count l2.
Proof. unfold results_count. by rewrite filter_app, length_app. Qed.

Lemma no_result_count_app (l1 l2 : list (option FrameResult)) :
  no_result_count (l1 ++ l2) = no_result_count l1 + no_result_count l2.
Proof. unfold no_result_count. by rewrite filter_app, length_app. Qed.

Lemma outcomes_split (l : list (option FrameResult)) :
  length l = results_count l + no_result_count l.
Proof.
  unfold results_count, no_result_count.
  induction l as [|o l IH]; [done|].
  destruct o as [r|]; simpl_filter; lia.
Qed.

Lemma post_process_frames_spec (frames : list (Frame * nat)) (d : Detector) :
  let d' := _post_process_frames frames d in
  frame_queue d' = frame_queue d
  /\ frames_captured d' = frames_captured d
  /\ processing d' = processing d
  /\ frames_dropped d' = frames_dropped d
  /\ frames_processed d'
     = frames_processed d
       + results_count (map (fun item => (process_frame item.1 item.2).1) frames).
Proof.
  revert d. induction frames as [|item frames IH]; intros d; simpl.
  - repeat split; try done.
  - specialize (IH (handle_frame item d)); simpl in IH.
    destruct IH as (Hq & Hc & Hp & Hd & Hr).
    destruct (handle_frame_queue item d) as (Hq' & Hc' & Hp' & Hd').
    unfold _post_process_frames in *; simpl.
    rewrite Hq, Hc, Hp, Hd, Hr, Hq', Hc', Hp', Hd', handle_frame_processed.
    repeat split; try done.
    rewrite <- Nat.add_assoc. f_equal.
    symmetry. apply (results_count_app [_]).
Qed.

Lemma finish_spec (d : Detector) :
  frame_queue (finish d) = frame_queue d
  /\ frames_captured (finish d) = frames_captured d
  /\ frames_processed (finish d) = frames_processed d
  /\ processing (finish d) = processing d
  /\ frames_dropped (finish d) = frames_dropped d.
Proof. unfold finish. by destruct (0 <? frames_processed d). Qed.

(** *** The invariant holds in every reachable state *)

Lemma start_inv (queue_size : Z) (live : bool) :
  session_inv (start queue_size live).
Proof.
  destruct live; split; simpl; try done; try lia; intuition congruence.
Qed.

Ltac inv_facts :=
  repeat match goal with
  | H : ?x = ?x -> _ |- _ => specialize (H eq_refl)
  | H : ?x = ?x \/ _ -> _ |- _ => specialize (H (or_introl eq_refl))
  | H : _ \/ ?x = ?x -> _ |- _ => specialize (H (or_intror eq_refl))
  | H : _ /\ _ |- _ => destruct H
  | H : true = false -> _ |- _ => clear H
  | H : false = true -> _ |- _ => clear H
  end.

Ltac inv_close_with tac :=
  split; simpl; tac; unfold pending, frames_dropped in *; simpl in *;
  rewrite ?filter_app, ?length_app, ?length_map; simpl;
  repeat split; intros;
  repeat match goal with
  | H : _ \/ _ |- _ => destruct H
  end;
  try discriminate; try congruence; try lia;
  try (subst; simpl in *; first [ done | congruence | lia ]);
  try match goal with
      | H : items _ = _ |- _ => rewrite H; simpl; first [ done | lia ]
      end.

Ltac inv_close := inv_close_with idtac.

Lemma read_frame_inv (frame : Frame) (s : Session) :
  session_inv s -> main_pc s = Recording -> session_inv (read_frame frame s).
Proof.
  intros [Hu Hc Hp Hl Hn Hr Hj Hf Hcs] Hpc.
  destruct s as [d live ftp mpc wpc outs cut]; simpl in *; subst mpc.
  unfold read_frame, pending in *; simpl in *.
  destruct live; inv_facts.
  - unfold put_nowait.
    destruct (full (frame_queue d)); simpl.
    + inv_close.
    + inv_close.
  - inv_close.
Qed.

Lemma stop_inv (why : StopReason) (s : Session) :
  session_inv s -> main_pc s = Recording -> session_inv (stop why s).
Proof.
  intros [Hu Hc Hp Hl Hn Hr Hj Hf Hcs] Hpc.
  destruct s as [d live ftp mpc wpc outs cut]; simpl in *; subst mpc.
  unfold stop; simpl.
  assert (Hlog : forall d0 : Detector,
             frames_dropped
               match why with
               | ReadFailed => logger [WarningFailedToReadFrame] d0
               | _ => d0
               end = frames_dropped d0).
  { intros d0. destruct why; try done.
    rewrite frames_dropped_logger; simpl; lia. }
  destruct live; inv_facts.
  - destruct why; inv_close.
  - destruct ftp as [|item ftp].
    + destruct (finish_spec
                  match why with
                  | ReadFailed => logger [WarningFailedToReadFrame] d
                  | _ => d
                  end) as (Hq & Hcap & Hproc & Hpr & Hdr).
      clear Hlog.
      destruct why;
        inv_close_with ltac:(rewrite ?Hq, ?Hcap, ?Hproc, ?Hpr, ?Hdr,
                               ?frames_dropped_logger).
    + destruct why; inv_close.
Qed.

Lemma interrupted_turn_inv (s : Session) :
  session_inv s -> main_pc s = Recording -> session_inv (interrupted_turn s).
Proof.
  intros [Hu Hc Hp Hl Hn Hr Hj Hf Hcs] Hpc.
  destruct s as [d live ftp mpc wpc outs cut]; simpl in *; subst mpc.
  unfold interrupted_turn, stop; simpl.
  destruct live; inv_facts.
  - inv_close.
  - destruct ftp as [|item ftp].
    + destruct (finish_spec (incr_frames_captured d))
        as (Hq & Hcap & Hproc & Hpr & Hdr).
      inv_close_with ltac:(rewrite ?Hq, ?Hcap, ?Hproc, ?Hpr, ?Hdr).
    + inv_close.
Qed.

Lemma step_inv (a : Action) (s s' : Session) :
  session_inv s -> step a s = Some s' -> session_inv s'.
Proof.
  intros Hinv Hstep.
  destruct a.
  - (* ReadFrame *)
    unfold step in Hstep.
    destruct (main_pc s) eqn:Hpc; try (destruct (worker_pc s); discriminate).
    assert (s' = read_frame frame0 s) as -> by (by destruct (worker_pc s); simplify_eq).
    by apply read_frame_inv.
  - (* Stop *)
    unfold step in Hstep.
    destruct (main_pc s) eqn:Hpc; try (destruct (worker_pc s); discriminate).
    assert (s' = stop why s) as -> by (by destruct (worker_pc s); simplify_eq).
    by apply stop_inv.
  - (* QueueJoinReturns *)
    destruct Hinv as [Hu Hc Hp Hl Hn Hr Hj Hf Hcs].
    destruct s as [d live ftp mpc wpc outs cut]; simpl in *.
    destruct mpc; try (destruct wpc; discriminate).
    assert (Hs : (if Nat.eqb (unfinished_tasks (frame_queue d)) 0
                  then Some (with_main JoinWorker
                               (with_det (set_processing false d)
                                  {| det := d; process_live := live;
                                     frames_to_process := ftp;
                                     main_pc := JoinQueue; worker_pc := wpc;
                                     outcomes := outs;
                           cut_short := cut |}))
                  else None) = Some s') by (by destruct wpc).
    clear Hstep.
    destruct (Nat.eqb_spec (unfinished_tasks (frame_queue d)) 0) as [Hz|];
      [|discriminate].
    simplify_eq. rewrite Hz in Hu.
    assert (length (items (frame_queue d)) = 0 /\ in_flight wpc = 0)
      as [Hlen Hfl] by lia.
    apply length_zero_iff_nil in Hlen.
    destruct live; inv_facts; inv_close.
  - (* WorkerJoinReturns *)
    destruct Hinv as [Hu Hc Hp Hl Hn Hr Hj Hf Hcs].
    destruct s as [d live ftp mpc wpc outs cut]; simpl in *.
    destruct mpc, wpc; try discriminate. simplify_eq.
    destruct (finish_spec d) as (Hq & Hcap & Hproc & Hpr & Hdr).
    destruct live; inv_facts;
      inv_close_with ltac:(rewrite ?Hq, ?Hcap, ?Hproc, ?Hpr, ?Hdr).
  - (* RunPostProcess *)
    destruct Hinv as [Hu Hc Hp Hl Hn Hr Hj Hf Hcs].
    destruct s as [d live ftp mpc wpc outs cut]; simpl in *.
    destruct mpc; try (destruct wpc; discriminate).
    assert (s' = with_main Finished
                  (with_det (finish (_post_process_frames ftp d))
                     (record_outcomes
                        (map (fun item => (process_frame item.1 item.2).1) ftp)
                        {| det := d; process_live := live;
                           frames_to_process := ftp;
                           main_pc := PostProcess; worker_pc := wpc;
                           outcomes := outs;
                           cut_short := cut |})))
      as -> by (by destruct wpc; simplify_eq).
    clear Hstep.
    destruct (finish_spec (_post_process_frames ftp d))
      as (Hq & Hcap & Hproc & Hpr & Hdr).
    destruct (post_process_frames_spec ftp d)
      as (Hq' & Hcap' & Hpr' & Hdr' & Hproc').
    destruct live; inv_facts; try done.
    inv_close_with ltac:(rewrite ?Hq, ?Hcap, ?Hproc, ?Hpr, ?Hdr,
                           ?Hq', ?Hcap', ?Hproc', ?Hpr', ?Hdr',
                           ?results_count_app, ?length_map).
  - (* WorkerEnter *)
    destruct Hinv as [Hu Hc Hp Hl Hn Hr Hj Hf Hcs].
    destruct s as [d live ftp mpc wpc outs cut]; simpl in *.
    destruct wpc; try (destruct mpc; discriminate).
    assert (Hs : processing d = true /\ s' = with_worker Waiting
                   {| det := d; process_live := live; frames_to_process := ftp;
                      main_pc := mpc; worker_pc := Loop; outcomes := outs;
                           cut_short := cut |}).
    { destruct (processing d); destruct mpc; by simplify_eq. }
    destruct Hs as [Hproc ->]. clear Hstep.
    destruct live; inv_facts; [|done].
    destruct mpc; inv_facts; inv_close.
  - (* WorkerGet *)
    destruct Hinv as [Hu Hc Hp Hl Hn Hr Hj Hf Hcs].
    destruct s as [d live ftp mpc wpc outs cut]; simpl in *.
    destruct wpc; try (destruct mpc; discriminate).
    unfold get in Hstep.
    destruct (items (frame_queue d)) as [|item rest] eqn:Hitems;
      [destruct mpc; discriminate|].
    assert (s' = with_worker (Got item)
                  (with_det
                     (set_frame_queue
                        {| items := rest; maxsize := maxsize (frame_queue d);
                           unfinished_tasks := unfinished_tasks (frame_queue d) |}
                        d)
                     {| det := d; process_live := live; frames_to_process := ftp;
                        main_pc := mpc; worker_pc := Waiting; outcomes := outs;
                           cut_short := cut |}))
      as -> by (by destruct mpc; simplify_eq).
    clear Hstep.
    destruct live; inv_facts; [|done].
    destruct mpc; inv_facts; inv_close.
  - (* WorkerTimeout *)
    destruct Hinv as [Hu Hc Hp Hl Hn Hr Hj Hf Hcs].
    destruct s as [d live ftp mpc wpc outs cut]; simpl in *.
    destruct wpc; try (destruct mpc; discriminate).
    unfold get in Hstep.
    destruct (items (frame_queue d)) as [|item rest] eqn:Hitems;
      [|destruct mpc; discriminate].
    assert (s' = with_worker Loop
                  {| det := d; process_live := live; frames_to_process := ftp;
                     main_pc := mpc; worker_pc := Waiting; outcomes := outs;
                           cut_short := cut |})
      as -> by (by destruct mpc; simplify_eq).
    clear Hstep.
    destruct live; inv_facts; [|done].
    destruct mpc; inv_facts; inv_close.
  - (* WorkerProcess *)
    destruct Hinv as [Hu Hc Hp Hl Hn Hr Hj Hf Hcs].
    destruct s as [d live ftp mpc wpc outs cut]; simpl in *.
    destruct wpc as [| | |item| |]; try (destruct mpc; discriminate).
    assert (s' = with_worker BeforeTaskDone
                  (with_det (handle_frame item d)
                     (record_outcomes [(process_frame item.1 item.2).1]
                        {| det := d; process_live := live;
                           frames_to_process := ftp; main_pc := mpc;
                           worker_pc := Got item; outcomes := outs;
                           cut_short := cut |})))
      as -> by (by destruct mpc; simplify_eq).
    clear Hstep.
    destruct (handle_frame_queue item d) as (Hq & Hcap & Hpr & Hdr).
    pose proof (handle_frame_processed item d) as Hproc.
    destruct live; inv_facts; [|done].
    destruct mpc; inv_facts;
      inv_close_with ltac:(rewrite ?Hq, ?Hcap, ?Hproc, ?Hpr, ?Hdr,
                             ?results_count_app).
  - (* WorkerTaskDone *)
    destruct Hinv as [Hu Hc Hp Hl Hn Hr Hj Hf Hcs].
    destruct s as [d live ftp mpc wpc outs cut]; simpl in *.
    destruct wpc; try (destruct mpc; discriminate).
    unfold task_done in Hstep.
    destruct (unfinished_tasks (frame_queue d)) as [|n] eqn:Hn0;
      [simpl in Hu; lia|].
    assert (s' = with_worker Loop
                  (with_det
                     (set_frame_queue
                        {| items := items (frame_queue d);
                           maxsize := maxsize (frame_queue d);
                           unfinished_tasks := n |} d)
                     {| det := d; process_live := live; frames_to_process := ftp;
                        main_pc := mpc; worker_pc := BeforeTaskDone;
                        outcomes := outs;
                           cut_short := cut |}))
      as -> by (by destruct mpc; simplify_eq).
    clear Hstep.
    destruct live; inv_facts; [|done].
    destruct mpc; inv_facts; inv_close.
  - (* WorkerExit *)
    destruct Hinv as [Hu Hc Hp Hl Hn Hr Hj Hf Hcs].
    destruct s as [d live ftp mpc wpc outs cut]; simpl in *.
    destruct wpc; try (destruct mpc; discriminate).
    assert (Hs : processing d = false /\ s' = with_worker Stopped
                   {| det := d; process_live := live; frames_to_process := ftp;
                      main_pc := mpc; worker_pc := Loop; outcomes := outs;
                           cut_short := cut |}).
    { destruct (processing d); destruct mpc; by simplify_eq. }
    destruct Hs as [Hproc ->]. clear Hstep.
    destruct live; inv_facts; [|done].
    destruct mpc; inv_facts; inv_close.
  - (* TurnInterrupted *)
    unfold step in Hstep.
    destruct (main_pc s) eqn:Hpc; try (destruct (worker_pc s); discriminate).
    assert (s' = interrupted_turn s) as ->
      by (by destruct (worker_pc s); simplify_eq).
    by apply interrupted_turn_inv.
Qed.

Lemma run_cons (a : Action) (schedule : list Action) (s s1 : Session) :
  step a s = Some s1 -> run (a :: schedule) s = run schedule s1.
Proof. intros Hstep. simpl. by rewrite Hstep. Qed.

Lemma run_inv (schedule : list Action) (s s' : Session) :
  session_inv s -> run schedule s = Some s' -> session_inv s'.
Proof.
  revert s. induction schedule as [|a schedule IH]; intros s Hinv Hrun.
  - by simplify_eq/=.
  - simpl in Hrun. destruct (step a s) as [s1|] eqn:Hstep; [|done].
    eauto using step_inv.
Qed.

Lemma reachable_inv (queue_size : Z) (live : bool) (s : Session) :
  reachable queue_size live s -> session_inv s.
Proof. intros [schedule Hrun]. eauto using run_inv, start_inv. Qed.

Lemma logger_nil (d : Detector) : logger [] d = d.
Proof. destruct d; unfold logger; simpl. by rewrite app_nil_r. Qed.

Lemma handle_frame_no_result (item : Frame * nat) (d : Detector) :
  (process_frame item.1 item.2).1 = None ->
  handle_frame item d = logger (process_frame item.1 item.2).2 d.
Proof.
  unfold handle_frame.
  destruct (process_frame item.1 item.2) as [[r|] records]; simpl; [done|].
  by intros _.
Qed.

(** A stage that returns a status other than success ends the pass with no
    result and without a log record. *)
Lemma preprocessing_status_not_success (frame_in : Frame) (n : nat)
    (rgb : Image) (prep : PrepResult) (status : string) :
  cvtColor frame_in = Returned rgb ->
  preprocessor rgb = Returned prep ->
  prep_status prep = Some status ->
  is_success status = false ->
  process_frame frame_in n = (None, []).
Proof.
  intros Hcvt Hprep Hst Hne.
  unfold process_frame, process_frame_body.
  rewrite Hcvt; simpl. rewrite Hprep; simpl. rewrite Hst; simpl.
  by rewrite Hne.
Qed.

(** An exception raised by the first module is logged as an error. *)
Lemma preprocessing_exception_logged (frame_in : Frame) (n : nat)
    (rgb : Image) (e : Exn) :
  cvtColor frame_in = Returned rgb ->
  preprocessor rgb = Raised e ->
  process_frame frame_in n = (None, [ErrorProcessingFrame n e]).
Proof.
  intros Hcvt Hprep.
  unfold process_frame, process_frame_body.
  rewrite Hcvt; simpl. by rewrite Hprep.
Qed.

(** The history [cut_short] counts the turns of the schedule that were cut
    short; there is at most one, the last turn of the recording. *)
Lemma step_cut_short (a : Action) (s s' : Session) :
  step a s = Some s' ->
  cut_short s' = cut_short s + (if is_turn_interrupted a then 1 else 0).
Proof.
  intros Hstep.
  unfold step, read_frame, interrupted_turn, stop in Hstep.
  repeat (case_match; simplify_eq/=); lia.
Qed.

Lemma run_cut_short (schedule : list Action) (s s' : Session) :
  run schedule s = Some s' ->
  cut_short s' = cut_short s + turns_cut_short schedule.
Proof.
  revert s. induction schedule as [|a schedule IH]; intros s Hrun; simpl in Hrun.
  - simplify_eq. unfold turns_cut_short. simpl. lia.
  - destruct (step a s) as [s1|] eqn:Hstep; [|done].
    rewrite (IH _ Hrun), (step_cut_short _ _ _ Hstep).
    unfold turns_cut_short.
    destruct (is_turn_interrupted a) eqn:Ha.
    + rewrite filter_cons_True by done. simpl. lia.
    + rewrite filter_cons_False by congruence. lia.
Qed.

Lemma turns_cut_short_reachable (queue_size : Z) (live : bool)
    (schedule : list Action) (s : Session) :
  run schedule (start queue_size live) = Some s ->
  cut_short s = turns_cut_short schedule /\ turns_cut_short schedule <= 1.
Proof.
  intros Hrun.
  pose proof (run_cut_short _ _ _ Hrun) as Hcut. simpl in Hcut.
  pose proof (inv_cut_short _ (run_inv _ _ _ (start_inv queue_size live) Hrun))
    as [Hle _].
  lia.
Qed.

(** *** The claims about the buffered session *)

(** C1, as the code has it.  When a session has reached the final summary,
    every captured frame is accounted for in exactly one of four ways: it was
    processed with a result ([frames_processed]), it was skipped because the
    queue was full (one warning each, [frames_dropped]), its [process_frame]
    call returned no result, or it was counted in the loop turn that a
    keyboard interrupt cut short before the frame was queued or kept; of the
    last kind there is at most one frame.  The last two groups are counted
    nowhere by the detector. *)
Theorem capture_accounting (queue_size : Z) (live : bool)
    (schedule : list Action) (s : Session) :
  run schedule (start queue_size live) = Some s ->
  main_pc s = Finished ->
  frames_captured (det s)
  = frames_processed (det s) + frames_dropped (det s)
    + no_result_count (outcomes s) + turns_cut_short schedule
  /\ turns_cut_short schedule <= 1.
Proof.
  intros Hrun Hfin.
  destruct (turns_cut_short_reachable _ _ _ _ Hrun) as [Hcut Hle].
  split; [|done]. rewrite <- Hcut.
  destruct (run_inv schedule _ _ (start_inv queue_size live) Hrun)
    as [Hu Hc Hp Hl Hn Hr Hj Hf Hcs].
  destruct (Hj (or_intror Hfin)) as (_ & Hitems & Hfl).
  rewrite Hc, Hp, Hitems. unfold pending. rewrite Hfin. simpl.
  rewrite (outcomes_split (outcomes s)).
  assert (being_processed (worker_pc s) = 0)
    by (destruct (worker_pc s); simpl in *; lia).
  lia.
Qed.

(** C8.  The [finally] block joins before the summary.  In every reachable
    state: [frame_queue.join()] can return only when the queue is empty and
    the worker holds no frame; [worker.join()] can return only when the worker
    has left its loop; and when the final statistics are printed the queue is
    empty, no task is unfinished, the worker of a live session has stopped,
    and every frame that was queued or kept has been through
    [process_frame]: the captured frames are those skipped with a warning,
    those passed to [process_frame], and the one of a turn cut short by a
    keyboard interrupt, if there is one. *)
Theorem join_before_final_statistics (queue_size : Z) (live : bool)
    (schedule : list Action) (s : Session) :
  run schedule (start queue_size live) = Some s ->
  (is_Some (step QueueJoinReturns s) ->
     items (frame_queue (det s)) = [] /\ in_flight (worker_pc s) = 0)
  /\ (is_Some (step WorkerJoinReturns s) ->
        items (frame_queue (det s)) = [] /\ worker_pc s = Stopped)
  /\ (main_pc s = Finished ->
        items (frame_queue (det s)) = []
        /\ unfinished_tasks (frame_queue (det s)) = 0
        /\ in_flight (worker_pc s) = 0
        /\ (live = true -> worker_pc s = Stopped)
        /\ frames_captured (det s)
           = frames_dropped (det s) + length (outcomes s)
             + turns_cut_short schedule).
Proof.
  intros Hrun.
  destruct (turns_cut_short_reachable _ _ _ _ Hrun) as [Hcut _].
  rewrite <- Hcut.
  assert (Hlive : process_live s = live).
  { clear -Hrun.
    assert (Hgen : forall sch s0 s1,
               run sch s0 = Some s1 -> process_live s1 = process_live s0).
    { induction sch as [|a sch IH]; intros s0 s1 H; simpl in H.
      - by simplify_eq.
      - destruct (step a s0) as [s2|] eqn:Hstep; [|done].
        rewrite (IH _ _ H). clear -Hstep.
        unfold step, read_frame, interrupted_turn, stop in Hstep.
        repeat (case_match; simplify_eq/=); done. }
    apply Hgen in Hrun. by rewrite Hrun. }
  destruct (run_inv schedule _ _ (start_inv queue_size live) Hrun)
    as [Hu Hc Hp Hl Hn Hr Hj Hf Hcs].
  split; [|split].
  - intros [s1 Hstep]. unfold step in Hstep.
    destruct (main_pc s); try (by destruct (worker_pc s)).
    destruct (Nat.eqb_spec (unfinished_tasks (frame_queue (det s))) 0)
      as [Hz|]; [|by destruct (worker_pc s)].
    rewrite Hz in Hu.
    split; [apply length_zero_iff_nil|]; lia.
  - intros [s1 Hstep]. unfold step in Hstep.
    destruct (main_pc s) eqn:Hpc; try (by destruct (worker_pc s)).
    destruct (Hj (or_introl eq_refl)) as (_ & Hitems & _).
    by destruct (worker_pc s).
  - intros Hfin.
    destruct (Hj (or_intror Hfin)) as (_ & Hitems & Hfl).
    repeat split; try done.
    + rewrite Hu, Hitems, Hfl. done.
    + intros ->. rewrite (Hf Hfin), Hlive. done.
    + rewrite Hc, Hitems. unfold pending. rewrite Hfin. simpl.
      assert (being_processed (worker_pc s) = 0)
        by (destruct (worker_pc s); simpl in *; lia).
      lia.
Qed.


(** The recording loop never waits: in every state of the loop a frame that
    was read is handled in one step, whatever the queue holds. *)
Lemma read_frame_enabled (frame : Frame) (s : Session) :
  main_pc s = Recording ->
  step (ReadFrame frame) s = Some (read_frame frame s)
  /\ main_pc (read_frame frame s) = Recording.
Proof.
  intros Hpc. split.
  - unfold step. rewrite Hpc. by destruct (worker_pc s).
  - unfold read_frame.
    destruct (process_live s); [|done].
    by destruct (put_nowait _ _).
Qed.

(** C9, as the code has it.  A frame for which [process_frame] gives no
    result: an exception raised in the pass is logged as an error, while a
    stage that returns a status other than success is not logged at all.  In
    both cases the statistics and the results queue stay as they were, the
    worker reports the task as done and is back at the head of its loop. *)
Theorem frame_failure_is_isolated (queue_size : Z) (live : bool)
    (schedule : list Action) (item : Frame * nat) (s : Session) :
  run schedule (start queue_size live) = Some s ->
  worker_pc s = Got item ->
  (process_frame item.1 item.2).1 = None ->
  exists s1 s2,
    step WorkerProcess s = Some s1
    /\ step WorkerTaskDone s1 = Some s2
    /\ worker_pc s2 = Loop
    /\ main_pc s2 = main_pc s
    /\ frames_processed (det s2) = frames_processed (det s)
    /\ total_organisms (det s2) = total_organisms (det s)
    /\ species_counts (det s2) = species_counts (det s)
    /\ results_queue (det s2) = results_queue (det s)
    /\ log (det s2)
       = log (det s)
         ++ match process_frame_body item.1 item.2 with
            | Raised e => [ErrorProcessingFrame item.2 e]
            | Returned _ => []
            end.
Proof.
  intros Hrun Hpc Hnone.
  pose proof (inv_unfinished _
                (run_inv schedule _ _ (start_inv queue_size live) Hrun)) as Hu.
  rewrite Hpc in Hu. simpl in Hu.
  destruct (unfinished_tasks (frame_queue (det s))) as [|n] eqn:Hn; [lia|].
  clear Hu.
  eexists _, _. split; [|split].
  - unfold step. rewrite Hpc. by destruct (main_pc s).
  - unfold step. simpl.
    rewrite handle_frame_no_result by done. simpl.
    unfold task_done. simpl. rewrite Hn.
    by destruct (main_pc s).
  - simpl. repeat split; try done.
    unfold process_frame.
    by destruct (process_frame_body item.1 item.2).
Qed.

(** C10.  Preprocessing and segmentation succeed and segmentation finds no
    organism: [process_frame] returns [None] and logs nothing, and the worker
    step leaves the whole detector as it was: the frame is not counted as
    processed and adds nothing to the statistics or the results queue. *)
Theorem empty_frame_gives_no_result (frame_in : Frame) (n : nat)
    (rgb pre : Image) (meta : Metadata)
    (prep : PrepResult) (seg : SegResult) (s : Session) :
  cvtColor frame_in = Returned rgb ->
  preprocessor rgb = Returned prep ->
  prep_status prep = Some "success" ->
  prep_preprocessed_image prep = Some pre ->
  prep_metadata prep = Some meta ->
  segmenter pre rgb meta = Returned seg ->
  seg_status seg = Some "success" ->
  seg_organisms seg = Some [] ->
  worker_pc s = Got (frame_in, n) ->
  process_frame frame_in n = (None, [])
  /\ exists s1,
       step WorkerProcess s = Some s1
       /\ det s1 = det s
       /\ frames_processed (det s1) = frames_processed (det s)
       /\ outcomes s1 = outcomes s ++ [None]
       /\ worker_pc s1 = BeforeTaskDone.
Proof.
  intros Hcvt Hprep Hps Hpi Hpm Hseg Hss Hso Hpc.
  assert (Hpf : process_frame frame_in n = (None, [])).
  { unfold process_frame, process_frame_body.
    rewrite Hcvt; simpl. rewrite Hprep; simpl.
    rewrite Hps, Hpi, Hpm; simpl. rewrite Hseg; simpl.
    by rewrite Hss, Hso. }
  split; [done|].
  eexists. split.
  - unfold step. rewrite Hpc. by destruct (main_pc s).
  - simpl. unfold handle_frame. simpl. rewrite Hpf. simpl.
    by rewrite logger_nil.
Qed.

(** *** Further properties of the session

    The steps as a relation: each constructor is one branch of [step]. *)

Inductive step_spec : Action -> Session -> Session -> Prop :=
| step_read_frame frame s :
    main_pc s = Recording ->
    step_spec (ReadFrame frame) s (read_frame frame s)
| step_stop why s :
    main_pc s = Recording ->
    step_spec (Stop why) s (stop why s)
| step_queue_join s :
    main_pc s = JoinQueue ->
    unfinished_tasks (frame_queue (det s)) = 0 ->
    step_spec QueueJoinReturns s
      (with_main JoinWorker (with_det (set_processing false (det s)) s))
| step_worker_join s :
    main_pc s = JoinWorker ->
    worker_pc s = Stopped ->
    step_spec WorkerJoinReturns s
      (with_main Finished (with_det (finish (det s)) s))
| step_post_process s :
    main_pc s = PostProcess ->
    step_spec RunPostProcess s
      (with_main Finished
         (with_det (finish (_post_process_frames (frames_to_process s) (det s)))
            (record_outcomes
               (map (fun item => (process_frame item.1 item.2).1)
                  (frames_to_process s)) s)))
| step_worker_enter s :
    worker_pc s = Loop ->
    processing (det s) = true ->
    step_spec WorkerEnter s (with_worker Waiting s)
| step_worker_get s item rest :
    worker_pc s = Waiting ->
    items (frame_queue (det s)) = item :: rest ->
    step_spec WorkerGet s
      (with_worker (Got item)
         (with_det
            (set_frame_queue
               {| items := rest;
                  maxsize := maxsize (frame_queue (det s));
                  unfinished_tasks := unfinished_tasks (frame_queue (det s)) |}
               (det s)) s))
| step_worker_timeout s :
    worker_pc s = Waiting ->
    items (frame_queue (det s)) = [] ->
    step_spec WorkerTimeout s (with_worker Loop s)
| step_worker_exit s :
    worker_pc s = Loop ->
    processing (det s) = false ->
    step_spec WorkerExit s (with_worker Stopped s)
| step_worker_process s item :
    worker_pc s = Got item ->
    step_spec WorkerProcess s
      (with_worker BeforeTaskDone
         (with_det (handle_frame item (det s))
            (record_outcomes [(process_frame item.1 item.2).1] s)))
| step_worker_task_done s :
    worker_pc s = BeforeTaskDone ->
    step_spec WorkerTaskDone s
      (match task_done (frame_queue (det s)) with
       | Returned q => with_worker Loop (with_det (set_frame_queue q (det s)) s)
       | Raised e => with_worker Loop (with_det (logger [WorkerError e] (det s)) s)
       end)
| step_turn_interrupted s :
    main_pc s = Recording ->
    step_spec TurnInterrupted s (interrupted_turn s).

Lemma step_step_spec (a : Action) (s s' : Session) :
  step a s = Some s' <-> step_spec a s s'.
Proof.
  split.
  - intros Hstep. unfold step in Hstep.
    destruct a; destruct (main_pc s) eqn:Hm; destruct (worker_pc s) eqn:Hw;
      try discriminate; simplify_eq;
      try (by constructor);
      try (destruct (Nat.eqb_spec (unfinished_tasks (frame_queue (det s))) 0);
           simplify_eq; by constructor);
      try (destruct (processing (det s)) eqn:Hp; simplify_eq; by constructor);
      try (unfold get in Hstep;
           destruct (items (frame_queue (det s))) eqn:Hi; simplify_eq;
           by constructor);
      try (destruct (task_done (frame_queue (det s))) eqn:Ht; simplify_eq;
           pose proof (step_worker_task_done s Hw) as Hs;
           by rewrite Ht in Hs).
  - intros Hspec. destruct Hspec; unfold step;
      repeat match goal with
             | H : main_pc _ = _ |- _ => rewrite H
             | H : worker_pc _ = _ |- _ => rewrite H
             | H : processing _ = _ |- _ => rewrite H
             | H : unfinished_tasks _ = _ |- _ => rewrite H
             end;
      try (unfold get; rewrite H0);
      try done;
      try (by destruct (worker_pc s));
      try (by destruct (main_pc s));
      try (destruct (main_pc s); by destruct (task_done _)).
Qed.

(** What a turn cut short changes: the count of captured frames, and the
    place of the main thread. *)
Lemma interrupted_turn_spec (s : Session) :
  frame_queue (det (interrupted_turn s)) = frame_queue (det s)
  /\ frames_captured (det (interrupted_turn s)) = S (frames_captured (det s))
  /\ frames_dropped (det (interrupted_turn s)) = frames_dropped (det s)
  /\ processing (det (interrupted_turn s)) = processing (det s)
  /\ log (det (interrupted_turn s)) = log (det s)
  /\ (frames_processed (det (interrupted_turn s)),
      total_organisms (det (interrupted_turn s)),
      species_counts (det (interrupted_turn s)))
     = (frames_processed (det s), total_organisms (det s),
        species_counts (det s))
  /\ worker_pc (interrupted_turn s) = worker_pc s
  /\ outcomes (interrupted_turn s) = outcomes s
  /\ frames_to_process (interrupted_turn s) = frames_to_process s
  /\ process_live (interrupted_turn s) = process_live s
  /\ main_pc (interrupted_turn s)
     = (if process_live s then JoinQueue
        else match frames_to_process s with
             | [] => Finished
             | _ :: _ => PostProcess
             end).
Proof.
  unfold interrupted_turn, stop, frames_dropped. simpl.
  destruct (process_live s) eqn:Hlive; simpl;
    [repeat split; first [reflexivity | exact Hlive]|].
  destruct (frames_to_process s) eqn:Hftp; simpl;
    [|repeat split; first [reflexivity | exact Hlive | exact Hftp]].
  unfold finish. simpl.
  destruct (0 <? frames_processed (det s)); simpl;
    repeat split; first [reflexivity | exact Hlive | exact Hftp].
Qed.

(** Induction over the reachable states. *)
Lemma reachable_ind (queue_size : Z) (live : bool) (P : Session -> Prop) :
  P (start queue_size live) ->
  (forall a s s', session_inv s -> P s -> step_spec a s s' -> P s') ->
  forall schedule s, run schedule (start queue_size live) = Some s -> P s.
Proof.
  intros Hstart Hstep schedule s Hrun.
  assert (Hgen : forall sch s0 s1,
             session_inv s0 -> P s0 -> run sch s0 = Some s1 -> P s1).
  { induction sch as [|a sch IH]; intros s0 s1 Hinv HP H; simpl in H.
    - by simplify_eq.
    - destruct (step a s0) as [s2|] eqn:Hs; [|done].
      apply (IH s2 s1); [by eapply step_inv| |done].
      eapply Hstep; [done..|]. by apply step_step_spec. }
  eapply Hgen; [apply start_inv|exact Hstart|exact Hrun].
Qed.

(** The queue keeps the size it was built with, and never holds more frames
    than that size when the size is positive. *)
Theorem queue_never_exceeds_capacity (queue_size : Z) (live : bool)
    (schedule : list Action) (s : Session) :
  run schedule (start queue_size live) = Some s ->
  maxsize (frame_queue (det s)) = queue_size
  /\ ((0 < queue_size)%Z ->
      (Z.of_nat (length (items (frame_queue (det s)))) <= queue_size)%Z).
Proof.
  revert schedule s.
  apply (reachable_ind queue_size live
           (fun s => maxsize (frame_queue (det s)) = queue_size
                     /\ ((0 < queue_size)%Z ->
                         (Z.of_nat (length (items (frame_queue (det s))))
                          <= queue_size)%Z))).
  - destruct live; simpl; split; try done; lia.
  - intros a s0 s1 _ [Hmax Hlen] Hspec.
    destruct Hspec; simpl;
      rewrite ?(proj1 (finish_spec _)),
        ?(proj1 (post_process_frames_spec _ _)),
        ?(proj1 (handle_frame_queue _ _)); try done.
    + (* ReadFrame *)
      unfold read_frame. destruct (process_live s); [|done].
      unfold put_nowait. simpl.
      destruct (full (frame_queue (det s))) eqn:Hfull; simpl; [done|].
      split; [done|]. intros Hpos. rewrite length_app. simpl.
      unfold full in Hfull. rewrite Hmax in Hfull.
      apply andb_false_iff in Hfull as [Hf|Hf]; lia.
    + (* Stop *)
      unfold stop. destruct why; simpl;
        destruct (process_live s); simpl; try done;
        destruct (frames_to_process s); simpl;
        rewrite ?(proj1 (finish_spec _)); done.
    + (* WorkerGet *)
      rewrite H0 in Hlen. simpl in *. split; [done|].
      intros Hpos. specialize (Hlen Hpos). lia.
    + (* WorkerTaskDone *)
      unfold task_done.
      destruct (unfinished_tasks (frame_queue (det s))); done.
    + (* TurnInterrupted *)
      by rewrite (proj1 (interrupted_turn_spec s)).
Qed.

Lemma step_maxsize (a : Action) (s s' : Session) :
  step_spec a s s' ->
  maxsize (frame_queue (det s')) = maxsize (frame_queue (det s)).
Proof.
  intros Hspec. destruct Hspec; simpl;
    rewrite ?(proj1 (finish_spec _)),
      ?(proj1 (post_process_frames_spec _ _)),
      ?(proj1 (handle_frame_queue _ _)); try done.
  - unfold read_frame, put_nowait.
    destruct (process_live s); [|done].
    simpl. by destruct (full (frame_queue (det s))).
  - unfold stop. destruct why; simpl;
      destruct (process_live s); simpl; try done;
      destruct (frames_to_process s); simpl;
      rewrite ?(proj1 (finish_spec _)); done.
  - unfold task_done.
    by destruct (unfinished_tasks (frame_queue (det s))).
  - by rewrite (proj1 (interrupted_turn_spec s)).
Qed.

(** What one step does to the counters of captured and skipped frames:
    both only grow, and a frame is skipped only by a turn of the recording
    loop of a live session that finds the queue full. *)
Lemma step_counters (a : Action) (s s' : Session) :
  step_spec a s s' ->
  frames_captured (det s) <= frames_captured (det s')
  /\ (frames_dropped (det s') = frames_dropped (det s)
      \/ (process_live s = true
          /\ full (frame_queue (det s)) = true
          /\ frames_dropped (det s') = S (frames_dropped (det s))
          /\ frames_captured (det s') = S (frames_captured (det s)))).
Proof.
  intros Hspec. destruct Hspec; simpl.
  - unfold read_frame. destruct (process_live s); simpl.
    + unfold put_nowait. simpl.
      destruct (full (frame_queue (det s))) eqn:Hfull; simpl.
      * split; [lia|]. right. rewrite frames_dropped_logger. simpl.
        unfold frames_dropped. simpl. repeat split; lia.
      * split; [lia|]. by left.
    + split; [lia|]. by left.
  - unfold stop.
    assert (Hd : frames_dropped
                   match why with
                   | ReadFailed => logger [WarningFailedToReadFrame] (det s)
                   | _ => det s
                   end = frames_dropped (det s)
                 /\ frames_captured
                      match why with
                      | ReadFailed => logger [WarningFailedToReadFrame] (det s)
                      | _ => det s
                      end = frames_captured (det s)).
    { destruct why; try done. rewrite frames_dropped_logger. simpl. lia. }
    destruct Hd as [Hd Hc]. simpl.
    destruct (process_live s); simpl; [rewrite Hc; split; [lia|by left]|].
    destruct (frames_to_process s); simpl;
      [|rewrite Hc; split; [lia|by left]].
    destruct (finish_spec
                match why with
                | ReadFailed => logger [WarningFailedToReadFrame] (det s)
                | _ => det s
                end) as (_ & -> & _ & _ & ->).
    rewrite Hc. split; [lia|by left].
  - split; [lia|by left].
  - destruct (finish_spec (det s)) as (_ & -> & _ & _ & ->).
    split; [lia|by left].
  - destruct (finish_spec (_post_process_frames (frames_to_process s) (det s)))
      as (_ & -> & _ & _ & ->).
    destruct (post_process_frames_spec (frames_to_process s) (det s))
      as (_ & -> & _ & -> & _).
    split; [lia|by left].
  - split; [lia|by left].
  - split; [lia|by left].
  - split; [lia|by left].
  - split; [lia|by left].
  - destruct (handle_frame_queue item (det s)) as (_ & -> & _ & ->).
    split; [lia|by left].
  - unfold task_done.
    destruct (unfinished_tasks (frame_queue (det s))); simpl.
    + rewrite frames_dropped_logger. simpl. split; [lia|left; lia].
    + split; [lia|by left].
  - destruct (interrupted_turn_spec s) as (_ & -> & -> & _).
    split; [lia|by left].
Qed.

(** A queue that is large enough never makes the recorder skip a frame:
    with a queue size of zero or less (an unbounded queue), or as long as no
    more frames were captured than the queue can hold, no queue-full warning
    has been logged. *)
Theorem no_frame_skipped_within_capacity (queue_size : Z) (live : bool)
    (schedule : list Action) (s : Session) :
  run schedule (start queue_size live) = Some s ->
  (queue_size <= 0 \/ Z.of_nat (frames_captured (det s)) <= queue_size)%Z ->
  frames_dropped (det s) = 0.
Proof.
  intros Hrun.
  cut (maxsize (frame_queue (det s)) = queue_size
       /\ ((queue_size <= 0
            \/ Z.of_nat (frames_captured (det s)) <= queue_size)%Z
           -> frames_dropped (det s) = 0)); [by intros [_ ?]|].
  revert schedule s Hrun.
  apply (reachable_ind queue_size live
           (fun s => maxsize (frame_queue (det s)) = queue_size
                     /\ ((queue_size <= 0
                          \/ Z.of_nat (frames_captured (det s)) <= queue_size)%Z
                         -> frames_dropped (det s) = 0))).
  - by destruct live.
  - intros a s s' Hinv [Hmax IH] Hspec.
    split; [by rewrite (step_maxsize a s s' Hspec)|]. intros Hcap.
    destruct (step_counters a s s' Hspec) as [Hmono Hdrop].
    destruct Hdrop as [->|(Hlive & Hfull & Hd & Hc)].
    + apply IH. lia.
    + exfalso. unfold full in Hfull. rewrite Hmax in Hfull.
      apply andb_true_iff in Hfull as [Hpos Hle].
      pose proof (inv_captured s Hinv) as Hcaptured.
      lia.
Qed.

(** The three statistics of a detector, which only the frame handling
    changes. *)
Definition stats (d : Detector) : nat * nat * gmap string nat :=
  (frames_processed d, total_organisms d, species_counts d).

Lemma handle_frame_stats (item : Frame * nat) (d : Detector) :
  stats (handle_frame item d)
  = match (process_frame item.1 item.2).1 with
    | Some r => (S (frames_processed d),
                 total_organisms d + length (organisms r),
                 foldl count_species (species_counts d) (organisms r))
    | None => stats d
    end.
Proof.
  unfold handle_frame.
  by destruct (process_frame item.1 item.2) as [[r|] records].
Qed.

(** A property of the statistics that the handling of a frame keeps is kept
    by every step of a session. *)
Lemma step_stats_invariant (Q : nat * nat * gmap string nat -> Prop)
    (a : Action) (s s' : Session) :
  (forall item d, Q (stats d) -> Q (stats (handle_frame item d))) ->
  step_spec a s s' -> Q (stats (det s)) -> Q (stats (det s')).
Proof.
  intros Hhandle Hspec HQ.
  assert (Hfinish : forall d, stats (finish d) = stats d)
    by (intros d; unfold finish; by destruct (0 <? frames_processed d)).
  assert (Hpost : forall frames d,
             Q (stats d) -> Q (stats (_post_process_frames frames d))).
  { induction frames as [|item frames IH]; intros d Hd; [done|].
    unfold _post_process_frames in *. simpl. by apply IH, Hhandle. }
  destruct Hspec; simpl; rewrite ?Hfinish; try done.
  - unfold read_frame. destruct (process_live s); [|done].
    simpl. by destruct (put_nowait _ _).
  - unfold stop. destruct why; simpl;
      destruct (process_live s); simpl; try done;
      destruct (frames_to_process s); simpl; rewrite ?Hfinish; done.
  - by apply Hpost.
  - by apply Hhandle.
  - by destruct (task_done _).
  - destruct (interrupted_turn_spec s) as (_ & _ & _ & _ & _ & Hstats & _).
    unfold stats in *. by rewrite Hstats.
Qed.

(** The sum of the counts of all species. *)
Definition count_total (counts : gmap string nat) : nat :=
  map_fold (fun _ n acc => n + acc) 0 counts.

Lemma count_total_insert (counts : gmap string nat) (species : string) (n : nat) :
  counts !! species = None ->
  count_total (<[species := n]> counts) = n + count_total counts.
Proof.
  intros Hnone. unfold count_total.
  apply map_fold_insert_L; [|done]. intros. lia.
Qed.

Lemma count_total_count_species (counts : gmap string nat)
    (org : ClassifiedOrganism) :
  count_total (count_species counts org) = S (count_total counts).
Proof.
  unfold count_species.
  set (species := default "unknown" (predicted_class org)).
  destruct (counts !! species) as [n|] eqn:Hn; simpl.
  - rewrite <- (insert_delete_eq counts species (S n)).
    rewrite count_total_insert by apply lookup_delete_eq.
    rewrite <- (insert_id counts species n Hn) at 2.
    rewrite <- (insert_delete_eq counts species n).
    rewrite count_total_insert by apply lookup_delete_eq. lia.
  - by rewrite count_total_insert.
Qed.

Lemma count_total_foldl (orgs : list ClassifiedOrganism)
    (counts : gmap string nat) :
  count_total (foldl count_species counts orgs) = count_total counts + length orgs.
Proof.
  revert counts. induction orgs as [|org orgs IH]; intros counts; simpl.
  - lia.
  - rewrite IH, count_total_count_species. lia.
Qed.

Lemma species_counts_sum (queue_size : Z) (live : bool)
    (schedule : list Action) (s : Session) :
  run schedule (start queue_size live) = Some s ->
  count_total (species_counts (det s)) = total_organisms (det s).
Proof.
  revert schedule s.
  apply (reachable_ind queue_size live
           (fun s => (fun st => count_total st.2 = st.1.2) (stats (det s)))).
  - by destruct live.
  - intros a s s' _ IH Hspec.
    apply (step_stats_invariant (fun st => count_total st.2 = st.1.2) a s s');
      [|done..].
    intros item d Hd. rewrite handle_frame_stats.
    destruct ((process_frame item.1 item.2).1) as [r|]; [|done].
    simpl in *. rewrite count_total_foldl. lia.
Qed.

(** [_print_summary]: the species breakdown.  Each line gives a species,
    its count and its share of all organisms in percent (as a rational
    number).  The order of the lines, by descending count, is not
    modelled. *)
Definition percentage (total count : nat) : Q :=
  if 0 <? total
  then (inject_Z (Z.of_nat count) / inject_Z (Z.of_nat total) * 100)%Q
  else 0%Q.

Definition species_breakdown (d : Detector) : list (string * nat * Q) :=
  (fun kn => (kn.1, kn.2, percentage (total_organisms d) kn.2))
  <$> map_to_list (species_counts d).

Definition sum_percent (lines : list (string * nat * Q)) : Q :=
  foldr (fun line acc => (line.2 + acc)%Q) 0%Q lines.

Lemma count_total_to_list (counts : gmap string nat) :
  count_total counts = sum_list (snd <$> map_to_list counts).
Proof.
  unfold count_total. rewrite map_fold_foldr.
  induction (map_to_list counts) as [|[k n] l IH]; [done|].
  simpl. by rewrite IH.
Qed.

(** Every species that has an entry was counted at least once. *)
Lemma species_counts_positive (queue_size : Z) (live : bool)
    (schedule : list Action) (s : Session) :
  run schedule (start queue_size live) = Some s ->
  map_Forall (fun _ n => 0 < n) (species_counts (det s)).
Proof.
  revert schedule s.
  apply (reachable_ind queue_size live
           (fun s => (fun st => map_Forall (fun _ n => 0 < n) st.2)
                       (stats (det s)))).
  - destruct live; apply map_Forall_empty.
  - intros a s s' _ IH Hspec.
    apply (step_stats_invariant
             (fun st => map_Forall (fun _ n => 0 < n) st.2) a s s');
      [|done..].
    intros item d Hd. rewrite handle_frame_stats.
    destruct ((process_frame item.1 item.2).1) as [r|]; [|done].
    simpl in *. clear -Hd. revert Hd.
    generalize (species_counts d).
    induction (organisms r) as [|org orgs IHo]; intros counts Hc; [done|].
    simpl. apply IHo. unfold count_species.
    apply map_Forall_insert_2; [lia|done].
Qed.

Lemma sum_percent_breakdown (total : nat) (l : list (string * nat)) :
  0 < total ->
  (sum_percent ((fun kn => (kn.1, kn.2, percentage total kn.2)) <$> l)
   == inject_Z (Z.of_nat (sum_list (snd <$> l)))
      / inject_Z (Z.of_nat total) * 100)%Q.
Proof.
  intros Hpos. unfold percentage.
  destruct (Nat.ltb_spec 0 total) as [_|?]; [|lia].
  assert (Hne : ~ (inject_Z (Z.of_nat total) == 0)%Q).
  { change 0%Q with (inject_Z 0). rewrite inject_Z_injective. lia. }
  induction l as [|[k n] l IH]; simpl.
  - by field.
  - rewrite IH. rewrite Nat2Z.inj_add, inject_Z_plus.
    change (list_fmap (string * nat)%type nat snd l) with (snd <$> l).
    by field.
Qed.

(** The summary's percentages.  When no organism was found the breakdown
    has no line, so the division is never by zero; otherwise every line has a
    count of at least one and the percentages add up to 100. *)
Theorem species_percentages_add_up (queue_size : Z) (live : bool)
    (schedule : list Action) (s : Session) :
  run schedule (start queue_size live) = Some s ->
  (total_organisms (det s) = 0 -> species_breakdown (det s) = [])
  /\ Forall (fun line => 0 < line.1.2) (species_breakdown (det s))
  /\ (0 < total_organisms (det s) ->
      (sum_percent (species_breakdown (det s)) == 100)%Q).
Proof.
  intros Hrun.
  pose proof (species_counts_sum _ _ _ _ Hrun) as Hsum.
  pose proof (species_counts_positive _ _ _ _ Hrun) as Hpos.
  rewrite count_total_to_list in Hsum.
  apply map_Forall_to_list in Hpos.
  unfold species_breakdown.
  split; [|split].
  - intros Hzero. rewrite Hzero in Hsum.
    destruct (map_to_list (species_counts (det s))) as [|[k n] l]; [done|].
    apply Forall_cons in Hpos as [Hn _]. simpl in *. lia.
  - apply Forall_fmap. eapply Forall_impl; [exact Hpos|].
    by intros [k n].
  - intros Htotal. rewrite sum_percent_breakdown by done.
    rewrite Hsum.
    assert (Hne : ~ (inject_Z (Z.of_nat (total_organisms (det s))) == 0)%Q).
    { change 0%Q with (inject_Z 0). rewrite inject_Z_injective. lia. }
    by field.
Qed.

(** The results among the outcomes of the [process_frame] calls. *)
Definition results_of (outs : list (option FrameResult)) : list FrameResult :=
  omap (fun o => o) outs.

Lemma results_of_app (l1 l2 : list (option FrameResult)) :
  results_of (l1 ++ l2) = results_of l1 ++ results_of l2.
Proof. apply omap_app. Qed.

Lemma results_count_results_of (outs : list (option FrameResult)) :
  results_count outs = length (results_of outs).
Proof.
  unfold results_count, results_of.
  induction outs as [|[r|] outs IH]; simpl_filter; simpl; by rewrite ?IH.
Qed.

Definition organisms_found (results : list FrameResult) : nat :=
  sum_list ((fun r => length (organisms r)) <$> results).

Lemma organisms_found_app (l1 l2 : list FrameResult) :
  organisms_found (l1 ++ l2) = organisms_found l1 + organisms_found l2.
Proof. unfold organisms_found. by rewrite fmap_app, sum_list_with_app. Qed.

Lemma handle_frame_results (item : Frame * nat) (d : Detector) :
  results_queue (handle_frame item d)
  = results_queue d ++ results_of [(process_frame item.1 item.2).1]
  /\ total_organisms (handle_frame item d)
     = total_organisms d
       + organisms_found (results_of [(process_frame item.1 item.2).1]).
Proof.
  unfold handle_frame, organisms_found, results_of.
  destruct (process_frame item.1 item.2) as [[r|] records]; simpl.
  - split; [done|lia].
  - rewrite app_nil_r. split; [done|lia].
Qed.

Lemma results_of_cons (o : option FrameResult) (l : list (option FrameResult)) :
  results_of (o :: l) = results_of [o] ++ results_of l.
Proof. by destruct o. Qed.

Lemma post_process_frames_results (frames : list (Frame * nat)) (d : Detector) :
  results_queue (_post_process_frames frames d)
  = results_queue d
    ++ results_of (map (fun item => (process_frame item.1 item.2).1) frames)
  /\ total_organisms (_post_process_frames frames d)
     = total_organisms d
       + organisms_found
           (results_of (map (fun item => (process_frame item.1 item.2).1) frames)).
Proof.
  revert d. induction frames as [|item frames IH]; intros d.
  - simpl. rewrite app_nil_r. split; [done|]. unfold organisms_found. simpl. lia.
  - destruct (IH (handle_frame item d)) as [Hq Ht].
    destruct (handle_frame_results item d) as [Hq' Ht'].
    unfold _post_process_frames in *. cbn [foldl map].
    rewrite Hq, Ht, Hq', Ht'.
    rewrite (results_of_cons _ (map _ frames)).
    rewrite organisms_found_app, <- app_assoc.
    split; [done|lia].
Qed.

Lemma finish_results (d : Detector) (outs : list (option FrameResult)) :
  results_queue d = results_of outs ->
  frames_processed d = results_count outs ->
  results_queue (finish d) = []
  /\ total_organisms (finish d) = total_organisms d.
Proof.
  intros Hq Hp. unfold finish.
  destruct (Nat.ltb_spec 0 (frames_processed d)) as [Hlt|Hge]; [done|].
  split; [|done]. rewrite Hq.
  rewrite results_count_results_of in Hp.
  apply length_zero_iff_nil. lia.
Qed.

(** The results queue holds one result per processed frame, in the order
    of processing, until the annotated video is generated; after the summary
    it is empty.  The number of organisms is the number of organisms in those
    results. *)
Theorem results_queue_holds_results (queue_size : Z) (live : bool)
    (schedule : list Action) (s : Session) :
  run schedule (start queue_size live) = Some s ->
  frames_processed (det s) = length (results_of (outcomes s))
  /\ total_organisms (det s) = organisms_found (results_of (outcomes s))
  /\ (main_pc s <> Finished -> results_queue (det s) = results_of (outcomes s))
  /\ (main_pc s = Finished -> results_queue (det s) = []).
Proof.
  intros Hrun.
  pose proof (run_inv schedule _ _ (start_inv queue_size live) Hrun) as Hinv.
  split; [by rewrite (inv_processed s Hinv), results_count_results_of|].
  revert schedule s Hrun Hinv.
  cut (forall schedule s,
         run schedule (start queue_size live) = Some s ->
         total_organisms (det s) = organisms_found (results_of (outcomes s))
         /\ (main_pc s <> Finished ->
             results_queue (det s) = results_of (outcomes s))
         /\ (main_pc s = Finished -> results_queue (det s) = []));
    [by eauto|].
  apply (reachable_ind queue_size live
           (fun s =>
              total_organisms (det s) = organisms_found (results_of (outcomes s))
              /\ (main_pc s <> Finished ->
                  results_queue (det s) = results_of (outcomes s))
              /\ (main_pc s = Finished -> results_queue (det s) = []))).
  - by destruct live.
  - intros a s s' Hinv (Ht & Hq & Hf) Hspec.
    pose proof (inv_processed s Hinv) as Hp.
    destruct Hspec as [frame s Hm|why s Hm|s Hm Hu|s Hm Hw|s Hm|s Hw Hp'
                      |s item rest Hw Hi|s Hw Hi|s Hw Hp'|s item Hw|s Hw
                      |s Hm];
      simpl.
    + (* ReadFrame *)
      assert (Hne : main_pc s <> Finished) by (by rewrite Hm).
      unfold read_frame. destruct (process_live s); simpl.
      * destruct (put_nowait _ _); simpl; rewrite Hm;
          repeat split; try done; by intros _; apply Hq.
      * rewrite Hm. repeat split; try done. by intros _; apply Hq.
    + (* Stop *)
      assert (Hne : main_pc s <> Finished) by (by rewrite Hm).
      specialize (Hq Hne). unfold stop.
      set (d := match why with
                | ReadFailed => logger [WarningFailedToReadFrame] (det s)
                | _ => det s
                end).
      assert (Hd : results_queue d = results_queue (det s)
                   /\ total_organisms d = total_organisms (det s)
                   /\ frames_processed d = frames_processed (det s))
        by (by destruct why).
      destruct Hd as (Hdq & Hdt & Hdp). simpl.
      destruct (process_live s); simpl;
        [rewrite Hdq, Hdt; by repeat split|].
      destruct (frames_to_process s); simpl;
        [|rewrite Hdq, Hdt; by repeat split].
      destruct (finish_results d (outcomes s)) as [Hfq Hft];
        [congruence..|].
      rewrite Hfq, Hft, Hdt. by repeat split.
    + (* QueueJoinReturns *)
      assert (Hne : main_pc s <> Finished) by (by rewrite Hm).
      repeat split; try done. by intros _; apply Hq.
    + (* WorkerJoinReturns *)
      assert (Hne : main_pc s <> Finished) by (by rewrite Hm).
      destruct (finish_results (det s) (outcomes s)) as [Hfq Hft];
        [by apply Hq|done|].
      rewrite Hfq, Hft. by repeat split.
    + (* RunPostProcess *)
      assert (Hne : main_pc s <> Finished) by (by rewrite Hm).
      destruct (post_process_frames_results (frames_to_process s) (det s))
        as [Hpq Hpt].
      destruct (post_process_frames_spec (frames_to_process s) (det s))
        as (_ & _ & _ & _ & Hpp).
      destruct (finish_results
                  (_post_process_frames (frames_to_process s) (det s))
                  (outcomes s
                   ++ map (fun item => (process_frame item.1 item.2).1)
                        (frames_to_process s))) as [Hfq Hft].
      { rewrite Hpq, results_of_app, (Hq Hne). done. }
      { rewrite Hpp, results_count_app, Hp. done. }
      rewrite Hfq, Hft, Hpt, results_of_app, organisms_found_app, Ht.
      by repeat split.
    + by repeat split.
    + by repeat split.
    + by repeat split.
    + by repeat split.
    + (* WorkerProcess *)
      destruct (handle_frame_results item (det s)) as [Hhq Hht].
      rewrite Hhq, Hht, results_of_app, organisms_found_app, Ht.
      assert (Hne : main_pc s <> Finished).
      { intros Hfin.
        destruct (inv_joined s Hinv (or_intror Hfin)) as (_ & _ & Hfl).
        rewrite Hw in Hfl. done. }
      repeat split; try done. intros _. by rewrite (Hq Hne).
    + destruct (task_done _); by repeat split.
    + (* TurnInterrupted *)
      assert (Hne : main_pc s <> Finished) by (by rewrite Hm).
      specialize (Hq Hne). unfold interrupted_turn, stop. simpl.
      destruct (process_live s); simpl; [by repeat split|].
      destruct (frames_to_process s); simpl; [|by repeat split].
      destruct (finish_results (incr_frames_captured (det s)) (outcomes s))
        as [Hfq Hft]; [exact Hq|exact Hp|].
      rewrite Hfq, Hft. by repeat split.
Qed.

(** *** The species table

    The species an organism is counted under, and the number of organisms of
    a list of results that are counted under a species. *)
Definition species_of (org : ClassifiedOrganism) : string :=
  default "unknown" (predicted_class org).

Definition counted_as (sp : string) (orgs : list ClassifiedOrganism) : nat :=
  length (filter (fun org => species_of org = sp) orgs).

Definition organisms_of_species (sp : string) (results : list FrameResult) : nat :=
  sum_list_with (fun r => counted_as sp (organisms r)) results.

Lemma organisms_of_species_app (sp : string) (l1 l2 : list FrameResult) :
  organisms_of_species sp (l1 ++ l2)
  = organisms_of_species sp l1 + organisms_of_species sp l2.
Proof. apply sum_list_with_app. Qed.

Lemma count_species_lookup (counts : gmap string nat)
    (org : ClassifiedOrganism) (sp : string) :
  default 0 (count_species counts org !! sp)
  = default 0 (counts !! sp) + counted_as sp [org].
Proof.
  unfold count_species, counted_as.
  fold (species_of org).
  destruct (decide (species_of org = sp)) as [Heq|Hne].
  - rewrite filter_cons_True by done. rewrite Heq, lookup_insert_eq. simpl. lia.
  - rewrite filter_cons_False by done. rewrite lookup_insert_ne by done.
    simpl. lia.
Qed.

Lemma foldl_count_species_lookup (orgs : list ClassifiedOrganism)
    (counts : gmap string nat) (sp : string) :
  default 0 (foldl count_species counts orgs !! sp)
  = default 0 (counts !! sp) + counted_as sp orgs.
Proof.
  revert counts. induction orgs as [|org orgs IH]; intros counts; simpl.
  - unfold counted_as. simpl. lia.
  - rewrite IH, count_species_lookup. unfold counted_as.
    destruct (decide (species_of org = sp)) as [Heq|Hne].
    + rewrite !filter_cons_True by done. simpl. lia.
    + rewrite !filter_cons_False by done. simpl. lia.
Qed.

Lemma handle_frame_species (item : Frame * nat) (d : Detector) (sp : string) :
  default 0 (species_counts (handle_frame item d) !! sp)
  = default 0 (species_counts d !! sp)
    + organisms_of_species sp (results_of [(process_frame item.1 item.2).1]).
Proof.
  pose proof (handle_frame_stats item d) as Hstats.
  apply (f_equal snd) in Hstats. simpl in Hstats. rewrite Hstats.
  unfold organisms_of_species, results_of.
  destruct ((process_frame item.1 item.2).1) as [r|]; simpl.
  - rewrite foldl_count_species_lookup. lia.
  - lia.
Qed.

Lemma post_process_frames_species (frames : list (Frame * nat)) (d : Detector)
    (sp : string) :
  default 0 (species_counts (_post_process_frames frames d) !! sp)
  = default 0 (species_counts d !! sp)
    + organisms_of_species sp
        (results_of (map (fun item => (process_frame item.1 item.2).1) frames)).
Proof.
  revert d. induction frames as [|item frames IH]; intros d.
  - unfold organisms_of_species. simpl. lia.
  - unfold _post_process_frames in *. cbn [foldl map].
    rewrite IH, handle_frame_species.
    rewrite (results_of_cons _ (map _ frames)), organisms_of_species_app. lia.
Qed.

Lemma species_counts_by_species (queue_size : Z) (live : bool)
    (schedule : list Action) (s : Session) :
  run schedule (start queue_size live) = Some s ->
  forall sp,
    default 0 (species_counts (det s) !! sp)
    = organisms_of_species sp (results_of (outcomes s)).
Proof.
  revert schedule s.
  apply (reachable_ind queue_size live
           (fun s => forall sp,
              default 0 (species_counts (det s) !! sp)
              = organisms_of_species sp (results_of (outcomes s)))).
  { intros sp. by destruct live. }
  intros a s s' Hinv IH Hspec sp. specialize (IH sp).
  assert (Hfinish : forall d, species_counts (finish d) = species_counts d)
    by (intros d; unfold finish; by destruct (0 <? frames_processed d)).
  destruct Hspec as [frame_in s Hm|why s Hm|s Hm Hu|s Hm Hw|s Hm|s Hw Hp'
                    |s item rest Hw Hi|s Hw Hi|s Hw Hp'|s item Hw|s Hw
                    |s Hm];
    simpl; rewrite ?Hfinish; try exact IH.
  - (* ReadFrame *)
    unfold read_frame. destruct (process_live s); simpl; [|exact IH].
    by destruct (put_nowait _ _).
  - (* Stop *)
    unfold stop. destruct why; simpl;
      destruct (process_live s); simpl; try exact IH;
      destruct (frames_to_process s); simpl; rewrite ?Hfinish; exact IH.
  - (* RunPostProcess *)
    rewrite post_process_frames_species, results_of_app,
      organisms_of_species_app, IH. done.
  - (* WorkerProcess *)
    rewrite handle_frame_species, results_of_app, organisms_of_species_app, IH.
    done.
  - (* WorkerTaskDone *)
    by destruct (task_done _).
  - (* TurnInterrupted *)
    destruct (interrupted_turn_spec s)
      as (_ & _ & _ & _ & _ & Hstats & _ & Hout & _).
    apply (f_equal snd) in Hstats. simpl in Hstats. by rewrite Hstats, Hout.
Qed.

(** The species table.  Every organism of a result is counted under exactly
    one species, the one it was classified as ([predicted_class]) or
    [unknown] when it has none: the count of each species is the number of
    organisms in the results that carry it.  So the counts add up to the
    number of organisms, no species is listed with a count of zero, and the
    table is empty exactly when no organism was found. *)
Theorem species_counts_add_up (queue_size : Z) (live : bool)
    (schedule : list Action) (s : Session) :
  run schedule (start queue_size live) = Some s ->
  (forall sp,
     default 0 (species_counts (det s) !! sp)
     = organisms_of_species sp (results_of (outcomes s)))
  /\ count_total (species_counts (det s)) = total_organisms (det s)
  /\ map_Forall (fun _ n => 0 < n) (species_counts (det s))
  /\ (species_counts (det s) = ∅ <-> total_organisms (det s) = 0).
Proof.
  intros Hrun.
  pose proof (species_counts_sum _ _ _ _ Hrun) as Hsum.
  pose proof (species_counts_positive _ _ _ _ Hrun) as Hpos.
  split; [by apply (species_counts_by_species queue_size live schedule)|].
  split; [done|]. split; [done|]. rewrite <- Hsum. split.
  - by intros ->.
  - intros Hzero. rewrite count_total_to_list in Hzero.
    apply map_to_list_empty_iff.
    apply map_Forall_to_list in Hpos.
    destruct (map_to_list (species_counts (det s))) as [|[k n] l]; [done|].
    apply Forall_cons in Hpos as [Hn _]. simpl in *. lia.
Qed.

(** The number that [process_frame] puts into a result is the number it was
    called with. *)
Lemma process_frame_number (frame_in : Frame) (n : nat) (r : FrameResult) :
  (process_frame frame_in n).1 = Some r -> frame_number r = n /\ frame r = frame_in.
Proof.
  unfold process_frame, process_frame_body, mbind, exc_mbind, exc_bind.
  intros H.
  repeat (case_match; simplify_eq/=; try done).
Qed.

(** The frame numbers that are still to be processed: the frame the worker
    holds, the queued frames, and the frames kept for post-processing. *)
Definition waiting_numbers (s : Session) : list nat :=
  match worker_pc s with
  | Got item => [item.2]
  | _ => []
  end
  ++ (snd <$> items (frame_queue (det s)))
  ++ match main_pc s with
     | Finished => []
     | _ => snd <$> frames_to_process s
     end.

Definition numbers (s : Session) : list nat :=
  (frame_number <$> results_of (outcomes s)) ++ waiting_numbers s.

(** A list of frame numbers that is strictly increasing and within
    [1 .. captured]. *)
Definition ordered (captured : nat) (l : list nat) : Prop :=
  StronglySorted lt l /\ Forall (fun n => 1 <= n <= captured) l.

Lemma Forall_sublist (P : nat -> Prop) (l1 l2 : list nat) :
  l1 `sublist_of` l2 -> Forall P l2 -> Forall P l1.
Proof.
  intros Hsub Hall. apply Forall_forall. intros x Hx.
  rewrite Forall_forall in Hall. apply Hall. by eapply elem_of_sublist.
Qed.

Lemma StronglySorted_sublist (l1 l2 : list nat) :
  l1 `sublist_of` l2 -> StronglySorted lt l2 -> StronglySorted lt l1.
Proof.
  induction 1 as [|x l1 l2 Hsub IH|x l1 l2 Hsub IH]; intros Hs.
  - constructor.
  - apply StronglySorted_inv in Hs as [Hs Hall].
    constructor; [by apply IH|].
    by eapply Forall_sublist.
  - apply StronglySorted_inv in Hs as [Hs _]. by apply IH.
Qed.

Lemma ordered_sublist (c : nat) (l1 l2 : list nat) :
  l1 `sublist_of` l2 -> ordered c l2 -> ordered c l1.
Proof.
  intros Hsub [Hs Hall]. split.
  - by eapply StronglySorted_sublist.
  - by eapply Forall_sublist.
Qed.

Lemma ordered_snoc (c : nat) (l : list nat) :
  ordered c l -> ordered (S c) (l ++ [S c]).
Proof.
  intros [Hs Hall]. split.
  - apply StronglySorted_app_2; [|done|repeat constructor].
    intros x1 x2 Hx1 Hx2. apply list_elem_of_singleton in Hx2 as ->.
    rewrite Forall_forall in Hall. specialize (Hall x1 Hx1). lia.
  - apply Forall_app. split.
    + eapply Forall_impl; [exact Hall|]. simpl. lia.
    + apply Forall_singleton. lia.
Qed.

Lemma ordered_S (c : nat) (l : list nat) : ordered c l -> ordered (S c) l.
Proof.
  intros [Hs Hall]. split; [done|].
  eapply Forall_impl; [exact Hall|]. simpl. lia.
Qed.

Lemma post_process_numbers (frames : list (Frame * nat)) :
  (frame_number
   <$> results_of (map (fun item => (process_frame item.1 item.2).1) frames))
  `sublist_of` (snd <$> frames).
Proof.
  induction frames as [|item frames IH]; [done|].
  cbn [map]. rewrite results_of_cons, !fmap_cons, fmap_app.
  destruct ((process_frame item.1 item.2).1) as [r|] eqn:Hr.
  - apply process_frame_number in Hr as [Hn _]. simpl. rewrite Hn.
    by apply sublist_skip.
  - simpl. by apply sublist_cons.
Qed.

Lemma numbers_ordered (queue_size : Z) (live : bool)
    (schedule : list Action) (s : Session) :
  run schedule (start queue_size live) = Some s ->
  ordered (frames_captured (det s)) (numbers s).
Proof.
  revert schedule s.
  apply (reachable_ind queue_size live
           (fun s => ordered (frames_captured (det s)) (numbers s))).
  - destruct live; split; constructor.
  - intros a s s' Hinv IH Hspec.
    destruct Hspec as [frame s Hm|why s Hm|s Hm Hu|s Hm Hw|s Hm|s Hw Hp'
                      |s item rest Hw Hi|s Hw Hi|s Hw Hp'|s item Hw|s Hw
                      |s Hm].
    + (* ReadFrame *)
      unfold read_frame. destruct (process_live s) eqn:Hlive.
      * destruct (inv_live s Hinv Hlive) as (Hftp & _ & _).
        unfold put_nowait. simpl.
        destruct (full (frame_queue (det s))); simpl.
        -- apply ordered_S.
           unfold numbers, waiting_numbers in *. simpl. exact IH.
        -- replace (numbers _) with (numbers s ++ [S (frames_captured (det s))]);
             [by apply ordered_snoc|].
           unfold numbers, waiting_numbers. simpl.
           rewrite Hm, Hftp, fmap_app. simpl.
           by rewrite !app_nil_r, <- !app_assoc.
      * replace (numbers _) with (numbers s ++ [S (frames_captured (det s))]);
          [by apply ordered_snoc|].
        unfold numbers, waiting_numbers. simpl.
        rewrite Hm, fmap_app. simpl. by rewrite <- !app_assoc.
    + (* Stop *)
      assert (Hsame : numbers (stop why s) = numbers s
                      /\ frames_captured (det (stop why s))
                         = frames_captured (det s)).
      { unfold stop. simpl.
        destruct (process_live s) eqn:Hlive.
        - unfold numbers, waiting_numbers. simpl. rewrite Hm. by destruct why.
        - destruct (frames_to_process s) eqn:Hftp.
          + unfold numbers, waiting_numbers. simpl. rewrite Hm, Hftp. simpl.
            rewrite (proj1 (finish_spec _)),
              (proj1 (proj2 (finish_spec _))).
            by destruct why.
          + unfold numbers, waiting_numbers. simpl. rewrite Hm, Hftp.
            by destruct why. }
      destruct Hsame as [-> ->]. exact IH.
    + (* QueueJoinReturns *)
      unfold numbers, waiting_numbers in *. simpl. by rewrite Hm in IH.
    + (* WorkerJoinReturns *)
      assert (Hlive : process_live s = true).
      { destruct (process_live s) eqn:Hl; [done|].
        destruct (inv_not_live s Hinv Hl) as (_ & _ & _ & _ & Hne).
        by rewrite Hm in Hne. }
      destruct (inv_live s Hinv Hlive) as (Hftp & _ & _).
      unfold numbers, waiting_numbers in *. simpl.
      rewrite (proj1 (finish_spec _)), (proj1 (proj2 (finish_spec _))).
      by rewrite Hm, Hftp in IH.
    + (* RunPostProcess *)
      assert (Hlive : process_live s = false).
      { destruct (process_live s) eqn:Hl; [|done].
        destruct (inv_live s Hinv Hl) as (_ & _ & Hne). by rewrite Hm in Hne. }
      destruct (inv_not_live s Hinv Hlive) as (Hw & Hitems & _).
      unfold numbers, waiting_numbers in *. simpl.
      rewrite Hw, Hitems, Hm in IH. simpl in IH.
      rewrite Hw. simpl.
      rewrite (proj1 (finish_spec _)), (proj1 (proj2 (finish_spec _))).
      destruct (post_process_frames_spec (frames_to_process s) (det s))
        as (-> & -> & _).
      rewrite Hitems. simpl. rewrite app_nil_r.
      rewrite results_of_app, fmap_app.
      eapply ordered_sublist; [|exact IH].
      apply sublist_app; [done|]. apply post_process_numbers.
    + (* WorkerEnter *)
      unfold numbers, waiting_numbers in *. simpl. by rewrite Hw in IH.
    + (* WorkerGet *)
      unfold numbers, waiting_numbers in *. simpl.
      by rewrite Hw, Hi in IH.
    + (* WorkerTimeout *)
      unfold numbers, waiting_numbers in *. simpl. by rewrite Hw in IH.
    + (* WorkerExit *)
      unfold numbers, waiting_numbers in *. simpl. by rewrite Hw in IH.
    + (* WorkerProcess *)
      destruct (handle_frame_queue item (det s)) as (Hq & Hc & _).
      unfold numbers, waiting_numbers in *. simpl.
      rewrite Hq, Hc. rewrite Hw in IH.
      rewrite results_of_app, fmap_app, <- app_assoc.
      eapply ordered_sublist; [|exact IH].
      apply sublist_app; [done|]. simpl.
      destruct ((process_frame item.1 item.2).1) as [r|] eqn:Hr; simpl.
      * apply process_frame_number in Hr as [-> _]. done.
      * by apply sublist_cons.
    + (* WorkerTaskDone *)
      unfold numbers, waiting_numbers in *. rewrite Hw in IH.
      unfold task_done.
      destruct (unfinished_tasks (frame_queue (det s))); simpl; exact IH.
    + (* TurnInterrupted *)
      destruct (interrupted_turn_spec s)
        as (Hq & Hc & _ & _ & _ & _ & Hw & Ho & Hftp & Hl & Hmain).
      replace (numbers (interrupted_turn s)) with (numbers s);
        [rewrite Hc; by apply ordered_S|].
      unfold numbers, waiting_numbers. rewrite Hq, Hw, Ho, Hftp, Hmain, Hm.
      destruct (process_live s); [done|]. by destruct (frames_to_process s).
Qed.

(** Frames are processed in the order in which they were captured, each at
    most once: the frame numbers of the results are strictly increasing, and
    each is the number of a captured frame. *)
Theorem results_in_capture_order (queue_size : Z) (live : bool)
    (schedule : list Action) (s : Session) :
  run schedule (start queue_size live) = Some s ->
  StronglySorted lt (frame_number <$> results_of (outcomes s))
  /\ Forall (fun r => 1 <= frame_number r <= frames_captured (det s))
       (results_of (outcomes s)).
Proof.
  intros Hrun.
  destruct (numbers_ordered _ _ _ _ Hrun) as [Hs Hall].
  unfold numbers in *. split.
  - by apply StronglySorted_app_1_l in Hs.
  - apply Forall_app in Hall as [Hall _].
    by apply Forall_fmap in Hall.
Qed.

(** *** [_generate_annotated_video]

    The results are taken off the queue into a dictionary keyed by frame
    number; then the recorded video is read frame by frame, counting from 1,
    and the organisms of the result with that number, if there is one, are
    drawn on the frame.  A frame of the annotated video is modelled as the
    frame read together with the organisms drawn on it, if any.  [original]
    is the recorded video as read back, [None] when no video was saved or it
    cannot be opened. *)

Definition results_by_frame (results : list FrameResult) : gmap nat FrameResult :=
  foldl (fun by_frame result => <[frame_number result := result]> by_frame)
    ∅ results.

Inductive Annotation : Type :=
| NoResultsToAnnotate
| CouldNotReadOriginal
| AnnotatedVideo (frames : list (Frame * option (list ClassifiedOrganism))).

Definition annotate_video (by_frame : gmap nat FrameResult) (video : list Frame)
  : list (Frame * option (list ClassifiedOrganism)) :=
  imap (fun i frame_read => (frame_read, organisms <$> by_frame !! S i)) video.

Definition _generate_annotated_video (original : option (list Frame))
    (d : Detector) : Detector * Annotation :=
  let by_frame := results_by_frame (results_queue d) in
  let d := set_results_queue [] d in
  if Nat.eqb (size by_frame) 0 then (d, NoResultsToAnnotate)
  else match original with
       | None => (d, CouldNotReadOriginal)
       | Some video => (d, AnnotatedVideo (annotate_video by_frame video))
       end.

Lemma StronglySorted_lt_NoDup (l : list nat) : StronglySorted lt l -> NoDup l.
Proof.
  induction 1 as [|x l Hs IH Hall]; constructor; [|done].
  intros Hin. rewrite Forall_forall in Hall. specialize (Hall x Hin). lia.
Qed.

Lemma results_by_frame_lookup (results : list FrameResult) (n : nat)
    (r : FrameResult) :
  NoDup (frame_number <$> results) ->
  results_by_frame results !! n = Some r <-> r ∈ results /\ frame_number r = n.
Proof.
  unfold results_by_frame.
  induction results as [|x results IH] using rev_ind; intros Hnd.
  - simpl. rewrite lookup_empty. split; [done|]. by intros [?%elem_of_nil _].
  - rewrite fmap_app in Hnd. apply NoDup_app in Hnd as (Hnd & Hnotin & _).
    rewrite foldl_snoc. rewrite elem_of_app, list_elem_of_singleton.
    destruct (decide (frame_number x = n)) as [Heq|Hne].
    + rewrite Heq, lookup_insert_eq. split.
      * intros [= <-]. split; [by right|done].
      * intros [[Hin| ->] Hn]; [|done].
        exfalso. apply (Hnotin (frame_number r)).
        -- apply list_elem_of_fmap. eauto.
        -- rewrite Hn, <- Heq. simpl. by apply list_elem_of_singleton.
    + rewrite lookup_insert_ne by done. rewrite (IH Hnd). split.
      * intros [Hin Hn]. split; [by left|done].
      * intros [[Hin| ->] Hn]; [done|congruence].
Qed.

Lemma results_by_frame_size (results : list FrameResult) :
  NoDup (frame_number <$> results) ->
  size (results_by_frame results) = length results.
Proof.
  induction results as [|x results IH] using rev_ind; intros Hnd; [done|].
  pose proof Hnd as Hnd'.
  rewrite fmap_app in Hnd. apply NoDup_app in Hnd as (Hnd & Hnotin & _).
  unfold results_by_frame in *. rewrite foldl_snoc, length_app. simpl.
  rewrite map_size_insert_None; [rewrite IH by done; lia|].
  destruct (foldl _ ∅ results !! frame_number x) as [r|] eqn:Hr; [|done].
  apply (results_by_frame_lookup results _ r Hnd) in Hr as [Hin Hn].
  exfalso. apply (Hnotin (frame_number x)).
  - apply list_elem_of_fmap. eauto.
  - simpl. by apply list_elem_of_singleton.
Qed.

(** The annotated video.  Given results with strictly increasing frame
    numbers, as every session has them, and at least one result: no result is
    lost in the dictionary; the video is annotated whenever the original can
    be read, and then has as many frames as the original; each result is
    drawn on the frame of its number, and a frame whose number no result
    carries is written without annotation.  The results queue is left
    empty. *)
Theorem annotation_follows_frame_numbers (original : option (list Frame))
    (d : Detector) :
  StronglySorted lt (frame_number <$> results_queue d) ->
  results_queue d <> [] ->
  let by_frame := results_by_frame (results_queue d) in
  size by_frame = length (results_queue d)
  /\ (_generate_annotated_video original d).1 = set_results_queue [] d
  /\ match original with
     | None => (_generate_annotated_video original d).2 = CouldNotReadOriginal
     | Some video =>
         exists frames,
           (_generate_annotated_video original d).2 = AnnotatedVideo frames
           /\ length frames = length video
           /\ (forall r frame_read,
                 r ∈ results_queue d ->
                 video !! (frame_number r - 1) = Some frame_read ->
                 1 <= frame_number r ->
                 frames !! (frame_number r - 1)
                 = Some (frame_read, Some (organisms r)))
           /\ (forall i frame_read,
                 video !! i = Some frame_read ->
                 (forall r, r ∈ results_queue d -> frame_number r <> S i) ->
                 frames !! i = Some (frame_read, None))
     end.
Proof.
  intros Hsorted Hne by_frame.
  pose proof (StronglySorted_lt_NoDup _ Hsorted) as Hnd.
  pose proof (results_by_frame_size _ Hnd) as Hsize. fold by_frame in Hsize.
  assert (Hpos : Nat.eqb (size by_frame) 0 = false).
  { apply Nat.eqb_neq. rewrite Hsize.
    destruct (results_queue d); [done|simpl; lia]. }
  unfold _generate_annotated_video. fold by_frame. rewrite Hpos.
  split; [done|]. split; [by destruct original|].
  destruct original as [video|]; [|done].
  eexists. split; [done|]. unfold annotate_video.
  split; [by rewrite length_imap|]. split.
  - intros r frame_read Hin Hv Hn.
    rewrite list_lookup_imap, Hv. simpl.
    replace (S (frame_number r - 1)) with (frame_number r) by lia.
    assert (by_frame !! frame_number r = Some r) as ->
      by (by apply results_by_frame_lookup).
    done.
  - intros i frame_read Hv Hnone.
    rewrite list_lookup_imap, Hv. simpl.
    destruct (by_frame !! S i) as [r|] eqn:Hr; [|done].
    apply (results_by_frame_lookup _ _ _ Hnd) in Hr as [Hin Hn].
    by destruct (Hnone r Hin).
Qed.

(** *** Shutdown

    A schedule that reads no further frame winds the session down. *)

Definition reads_frame (a : Action) : bool :=
  match a with
  | ReadFrame _ | TurnInterrupted => true
  | _ => false
  end.

Definition winds_down (s s' : Session) : Prop :=
  exists rest,
    Forall (fun a => reads_frame a = false) rest /\ run rest s = Some s'.

Lemma winds_down_refl (s : Session) : winds_down s s.
Proof. by exists []. Qed.

Lemma winds_down_step (a : Action) (s s1 s2 : Session) :
  reads_frame a = false -> step a s = Some s1 -> winds_down s1 s2 ->
  winds_down s s2.
Proof.
  intros Ha Hs (rest & Hq & Hr). exists (a :: rest).
  split; [by constructor|]. simpl. by rewrite Hs.
Qed.

(** How far the worker is from its next [task_done]. *)
Definition phase (pc : WorkerPc) : nat :=
  match pc with
  | Loop => 3
  | Waiting => 2
  | Got _ => 1
  | _ => 0
  end.

(** While the main thread waits in [frame_queue.join()], the worker can
    work off every unfinished task. *)
Lemma worker_drains_queue (n : nat) (s : Session) :
  session_inv s -> main_pc s = JoinQueue ->
  4 * unfinished_tasks (frame_queue (det s)) + phase (worker_pc s) <= n ->
  exists s', winds_down s s' /\ main_pc s' = JoinQueue /\ session_inv s'
             /\ unfinished_tasks (frame_queue (det s')) = 0.
Proof.
  revert s. induction n as [|n IH]; intros s Hinv Hmain Hn.
  { exists s. split; [apply winds_down_refl|].
    split; [done|]. split; [done|]. lia. }
  destruct (unfinished_tasks (frame_queue (det s))) as [|u] eqn:Hu.
  { exists s. split; [apply winds_down_refl|]. by split. }
  assert (Hlive : process_live s = true).
  { destruct (process_live s) eqn:Hl; [done|].
    by destruct (inv_not_live s Hinv Hl) as (_ & _ & _ & ? & _). }
  destruct (inv_recording s Hinv (or_intror Hmain)) as [Hproc Hns].
  destruct (inv_live s Hinv Hlive) as (_ & Hnn & _).
  pose proof (inv_unfinished s Hinv) as Hunf.
  rewrite Hlive in Hproc.
  assert (Hnext : exists a s1,
             reads_frame a = false /\ step a s = Some s1
             /\ main_pc s1 = JoinQueue
             /\ 4 * unfinished_tasks (frame_queue (det s1)) + phase (worker_pc s1)
                <= n).
  { destruct (worker_pc s) as [| | |item| |] eqn:Hw; try done.
    - exists WorkerEnter, (with_worker Waiting s).
      split; [done|]. split; [unfold step; by rewrite ?Hmain, ?Hw, ?Hproc|].
      split; [done|]. simpl in *. lia.
    - destruct (items (frame_queue (det s))) as [|item rest] eqn:Hitems;
        [simpl in *; lia|].
      eexists WorkerGet, _. split; [done|]. split.
      { unfold step, get. by rewrite ?Hmain, ?Hw, ?Hitems. }
      split; [done|]. simpl in *. lia.
    - eexists WorkerProcess, _. split; [done|]. split.
      { unfold step. by rewrite ?Hmain, ?Hw. }
      split; [done|]. simpl.
      rewrite (proj1 (handle_frame_queue item (det s))). simpl in *. lia.
    - eexists WorkerTaskDone, _. split; [done|]. split.
      { unfold step, task_done. by rewrite ?Hmain, ?Hw, ?Hu. }
      split; [done|]. simpl in *. lia. }
  destruct Hnext as (a & s1 & Ha & Hstep & Hmain1 & Hn1).
  destruct (IH s1) as (s' & Hwd & Hrest); [by eapply step_inv|done..|].
  exists s'. split; [|done]. by eapply winds_down_step.
Qed.

(** Once the queue is joined, the worker leaves its loop and is joined. *)
Lemma worker_stops_after_join (s : Session) :
  session_inv s -> main_pc s = JoinWorker ->
  exists s', winds_down s s' /\ main_pc s' = Finished.
Proof.
  intros Hinv Hmain.
  assert (Hlive : process_live s = true).
  { destruct (process_live s) eqn:Hl; [done|].
    by destruct (inv_not_live s Hinv Hl) as (_ & _ & _ & _ & ?). }
  destruct (inv_joined s Hinv (or_introl Hmain)) as (Hproc & Hitems & Hfl).
  destruct (inv_live s Hinv Hlive) as (_ & Hnn & _).
  assert (Hjoin : forall s0, main_pc s0 = JoinWorker -> worker_pc s0 = Stopped ->
            exists s', winds_down s0 s' /\ main_pc s' = Finished).
  { intros s0 Hm Hw. eexists. split.
    - eapply (winds_down_step WorkerJoinReturns); [done| |apply winds_down_refl].
      unfold step. by rewrite Hm, Hw.
    - done. }
  assert (Hexit : forall s0, main_pc s0 = JoinWorker -> worker_pc s0 = Loop ->
            processing (det s0) = false ->
            exists s', winds_down s0 s' /\ main_pc s' = Finished).
  { intros s0 Hm Hw Hp.
    destruct (Hjoin (with_worker Stopped s0)) as (s' & Hwd & Hfin); [done..|].
    exists s'. split; [|done].
    eapply (winds_down_step WorkerExit); [done| |exact Hwd].
    unfold step. by rewrite ?Hm, ?Hw, ?Hp. }
  destruct (worker_pc s) as [| | |item| |] eqn:Hw; try done.
  - by apply Hexit.
  - destruct (Hexit (with_worker Loop s)) as (s' & Hwd & Hfin); [done..|].
    exists s'. split; [|done].
    eapply (winds_down_step WorkerTimeout); [done| |exact Hwd].
    unfold step, get. by rewrite ?Hmain, ?Hw, ?Hitems.
  - by apply Hjoin.
Qed.

(** The session can always be shut down.  From every state a session
    reaches there is a way on, without reading another frame, to the final
    summary: the recording loop is left, the worker works off the queue, both
    joins return, or the kept frames are post-processed. *)
Theorem shutdown_always_completes (queue_size : Z) (live : bool)
    (schedule : list Action) (s : Session) :
  run schedule (start queue_size live) = Some s ->
  exists rest s',
    Forall (fun a => reads_frame a = false) rest
    /\ run rest s = Some s'
    /\ main_pc s' = Finished.
Proof.
  intros Hrun.
  pose proof (run_inv _ _ _ (start_inv queue_size live) Hrun) as Hinv.
  cut (exists s', winds_down s s' /\ main_pc s' = Finished).
  { intros (s' & (rest & Hq & Hr) & Hfin). by exists rest, s'. }
  clear Hrun.
  assert (Hqueue : forall s0, session_inv s0 -> main_pc s0 = JoinQueue ->
            exists s', winds_down s0 s' /\ main_pc s' = Finished).
  { intros s0 Hinv0 Hm.
    destruct (worker_drains_queue _ s0 Hinv0 Hm (le_n _))
      as (s1 & (rest1 & Hq1 & Hr1) & Hm1 & Hinv1 & Hu1).
    set (s2 := with_main JoinWorker (with_det (set_processing false (det s1)) s1)).
    assert (Hstep : step QueueJoinReturns s1 = Some s2).
    { unfold step. by rewrite Hm1, Hu1. }
    destruct (worker_stops_after_join s2) as (s' & (rest2 & Hq2 & Hr2) & Hfin);
      [by eapply step_inv|done|].
    exists s'. split; [|done].
    exists (rest1 ++ QueueJoinReturns :: rest2). split.
    - apply Forall_app. split; [done|]. by constructor.
    - clear -Hr1 Hstep Hr2. revert s0 Hr1.
      induction rest1 as [|a rest1 IH]; intros s0 Hr1; simpl in *.
      + simplify_eq. by rewrite Hstep.
      + destruct (step a s0); [by apply IH|done]. }
  assert (Hpost : forall s0, main_pc s0 = PostProcess ->
            exists s', winds_down s0 s' /\ main_pc s' = Finished).
  { intros s0 Hm. eexists. split.
    - eapply (winds_down_step RunPostProcess); [done| |apply winds_down_refl].
      unfold step. by rewrite Hm.
    - done. }
  destruct (main_pc s) eqn:Hmain.
  - (* Recording *)
    assert (Hstep : step (Stop UserQuit) s = Some (stop UserQuit s))
      by (unfold step; by rewrite Hmain).
    pose proof (step_inv _ _ _ Hinv Hstep) as Hinv1.
    assert (Hnext : exists s', winds_down (stop UserQuit s) s'
                               /\ main_pc s' = Finished).
    { destruct (main_pc (stop UserQuit s)) eqn:Hm1.
      - exfalso. revert Hm1. unfold stop. simpl.
        destruct (process_live s); [done|].
        by destruct (frames_to_process s).
      - by apply Hqueue.
      - by apply worker_stops_after_join.
      - by apply Hpost.
      - exists (stop UserQuit s). split; [apply winds_down_refl|done]. }
    destruct Hnext as (s' & Hwd & Hfin). exists s'. split; [|done].
    by apply (winds_down_step (Stop UserQuit) s (stop UserQuit s)).
  - by apply Hqueue.
  - by apply worker_stops_after_join.
  - by apply Hpost.
  - exists s. split; [apply winds_down_refl|done].
Qed.

(** *** Sessions without live processing *)

Lemma not_live_invariant (queue_size : Z) (schedule : list Action) (s : Session) :
  run schedule (start queue_size false) = Some s ->
  process_live s = false
  /\ frames_dropped (det s) = 0
  /\ (snd <$> frames_to_process s) = seq 1 (length (frames_to_process s))
  /\ (main_pc s <> Finished -> outcomes s = [])
  /\ (main_pc s = Finished ->
      outcomes s = map (fun item => (process_frame item.1 item.2).1)
                     (frames_to_process s)).
Proof.
  revert schedule s.
  apply (reachable_ind queue_size false
           (fun s =>
              process_live s = false
              /\ frames_dropped (det s) = 0
              /\ (snd <$> frames_to_process s)
                 = seq 1 (length (frames_to_process s))
              /\ (main_pc s <> Finished -> outcomes s = [])
              /\ (main_pc s = Finished ->
                  outcomes s = map (fun item => (process_frame item.1 item.2).1)
                                 (frames_to_process s)))).
  { by repeat split. }
  intros a s s' Hinv (Hlive & Hdrop & Hnum & Hrec & Hfin) Hspec.
  destruct (inv_not_live s Hinv Hlive) as (Hw & Hitems & Hproc & Hjq & Hjw).
  destruct Hspec as [frame_in s Hm|why s Hm|s Hm Hu|s Hm Hw'|s Hm|s Hw' Hp'
                    |s item rest Hw' Hi|s Hw' Hi|s Hw' Hp'|s item Hw'|s Hw'
                    |s Hm];
    try congruence.
  - (* ReadFrame: the frame gets the number after those of the kept frames *)
    assert (Hcaptured : frames_captured (det s) = length (frames_to_process s)).
    { rewrite (inv_captured s Hinv), Hdrop, Hitems, Hw, (Hrec ltac:(congruence)).
      unfold pending. rewrite Hm.
      destruct (inv_cut_short s Hinv) as [_ Hcut]. rewrite (Hcut Hm).
      simpl. lia. }
    unfold read_frame. rewrite Hlive. simpl.
    split; [done|]. split; [done|]. split.
    + rewrite fmap_app, Hnum, length_app, Nat.add_1_r, seq_S, Hcaptured. done.
    + split; [intros _; apply Hrec; congruence|congruence].
  - (* Stop *)
    assert (Hout : outcomes s = []) by (apply Hrec; congruence).
    set (d := match why with
              | ReadFailed => logger [WarningFailedToReadFrame] (det s)
              | _ => det s
              end).
    assert (Hd : frames_dropped d = 0).
    { subst d. destruct why; try done.
      rewrite frames_dropped_logger. simpl. lia. }
    unfold stop. fold d. simpl. rewrite Hlive.
    destruct (frames_to_process s) as [|item rest] eqn:Hframes; simpl.
    + rewrite Hframes. simpl.
      destruct (finish_spec d) as (_ & _ & _ & _ & ->).
      by repeat split.
    + rewrite Hframes. by repeat split.
  - (* RunPostProcess *)
    simpl.
    destruct (finish_spec (_post_process_frames (frames_to_process s) (det s)))
      as (_ & _ & _ & _ & ->).
    destruct (post_process_frames_spec (frames_to_process s) (det s))
      as (_ & _ & _ & -> & _).
    rewrite Hrec by congruence. by repeat split.
  - (* TurnInterrupted: the frame is not kept *)
    assert (Hout : outcomes s = []) by (apply Hrec; congruence).
    destruct (interrupted_turn_spec s)
      as (_ & _ & -> & _ & _ & _ & _ & -> & -> & -> & Hmain).
    rewrite Hlive in Hmain.
    split; [done|]. split; [done|]. split; [done|]. split; [done|].
    intros Hfinished. rewrite Hfinished in Hmain.
    destruct (frames_to_process s); [by rewrite Hout|done].
Qed.

(** Without live processing nothing goes through the queue and no frame is
    skipped.  The frames kept are numbered from 1 in the order of capture;
    they are all the captured frames but the one of a turn that a keyboard
    interrupt cut short, if there is one; no frame is processed while the
    recording runs; and by the final summary each kept frame has been
    processed exactly once, in that order. *)
Theorem post_processing_handles_every_frame (queue_size : Z)
    (schedule : list Action) (s : Session) :
  run schedule (start queue_size false) = Some s ->
  items (frame_queue (det s)) = []
  /\ frames_dropped (det s) = 0
  /\ (snd <$> frames_to_process s) = seq 1 (length (frames_to_process s))
  /\ frames_captured (det s)
     = length (frames_to_process s) + turns_cut_short schedule
  /\ turns_cut_short schedule <= 1
  /\ (main_pc s <> Finished ->
      outcomes s = [] /\ frames_processed (det s) = 0)
  /\ (main_pc s = Finished ->
      outcomes s = map (fun item => (process_frame item.1 item.2).1)
                     (frames_to_process s)).
Proof.
  intros Hrun.
  pose proof (run_inv _ _ _ (start_inv queue_size false) Hrun) as Hinv.
  destruct (turns_cut_short_reachable _ _ _ _ Hrun) as [Hcut Hle].
  destruct (not_live_invariant _ _ _ Hrun)
    as (Hlive & Hdrop & Hnum & Hrec & Hfin).
  destruct (inv_not_live s Hinv Hlive) as (Hw & Hitems & _).
  split; [done|]. split; [done|]. split; [done|]. split.
  { rewrite (inv_captured s Hinv), Hdrop, Hitems, Hw, <- Hcut.
    unfold pending. simpl.
    destruct (main_pc s) eqn:Hm;
      first [ rewrite (Hfin eq_refl), length_map; lia
            | rewrite (Hrec ltac:(discriminate)); simpl; lia ]. }
  split; [done|]. split.
  - intros Hm. rewrite (inv_processed s Hinv), (Hrec Hm). done.
  - exact Hfin.
Qed.

(** *** What a result of [process_frame] stands for *)

(** Colour conversion and all three modules succeeded on the frame,
    segmentation found at least one organism, and [classified] is what the
    classifier made of the organisms. *)
Definition every_stage_succeeded (frame_in : Frame)
    (classified : list ClassifiedOrganism) : Prop :=
  exists rgb prep pre meta seg orgs meta' cls,
    cvtColor frame_in = Returned rgb
    /\ preprocessor rgb = Returned prep
    /\ prep_status prep = Some "success"
    /\ prep_preprocessed_image prep = Some pre
    /\ prep_metadata prep = Some meta
    /\ segmenter pre rgb meta = Returned seg
    /\ seg_status seg = Some "success"
    /\ seg_organisms seg = Some orgs
    /\ orgs <> []
    /\ seg_metadata seg = Some meta'
    /\ classifier orgs meta' = Returned cls
    /\ class_status cls = Some "success"
    /\ class_classified_organisms cls = Some classified.

Lemma is_success_eq (status : string) :
  is_success status = true -> status = "success".
Proof. unfold is_success. by rewrite String.eqb_eq. Qed.

(** [process_frame] gives a result only for a frame on which every stage
    succeeded and segmentation found an organism.  The result carries the
    frame and the number it was given and the organisms as the classifier
    returned them, and nothing is logged. *)
Theorem result_means_every_stage_succeeded (frame_in : Frame) (n : nat)
    (r : FrameResult) :
  (process_frame frame_in n).1 = Some r ->
  frame_number r = n
  /\ frame r = frame_in
  /\ (process_frame frame_in n).2 = []
  /\ every_stage_succeeded frame_in (organisms r).
Proof.
  unfold process_frame, process_frame_body, every_stage_succeeded,
    mbind, exc_mbind, exc_bind, getitem.
  intros H.
  destruct (cvtColor frame_in) as [e|rgb] eqn:Hcvt; [done|].
  destruct (preprocessor rgb) as [e|prep] eqn:Hprep; [done|].
  destruct (prep_status prep) as [st1|] eqn:Hps; [|done].
  destruct (is_success st1) eqn:Hok1; [|done]. simpl in H |- *.
  destruct (prep_preprocessed_image prep) as [pre|] eqn:Hpi; [|done].
  destruct (prep_metadata prep) as [meta|] eqn:Hpm; [|done].
  destruct (segmenter pre rgb meta) as [e|seg] eqn:Hseg; [done|].
  destruct (seg_status seg) as [st2|] eqn:Hss; [|done].
  destruct (is_success st2) eqn:Hok2; [|done]. simpl in H |- *.
  destruct (seg_organisms seg) as [orgs|] eqn:Hso; [|done].
  destruct (Nat.eqb_spec (length orgs) 0) as [Hlen|Hlen]; [done|].
  destruct (seg_metadata seg) as [meta'|] eqn:Hsm; [|done].
  destruct (classifier orgs meta') as [e|cls] eqn:Hcls; [done|].
  destruct (class_status cls) as [st3|] eqn:Hcs; [|done].
  destruct (is_success st3) eqn:Hok3; [|done]. simpl in H |- *.
  destruct (class_classified_organisms cls) as [classified|] eqn:Hco; [|done].
  simpl in H |- *. simplify_eq. simpl.
  apply is_success_eq in Hok1, Hok2, Hok3. subst.
  split; [done|]. split; [done|]. split; [done|].
  exists rgb, prep, pre, meta, seg, orgs, meta', cls.
  repeat (split; [done|]). split; [by destruct orgs|].
  by repeat split.
Qed.

(** *** The statistics as a function of the frames read *)

(** The frames of the complete loop turns of a schedule (the frame of a turn
    cut short by a keyboard interrupt is not among them), and the same frames
    with the numbers the loop gives them. *)
Definition frames_read (schedule : list Action) : list Frame :=
  omap (fun a => match a with
                 | ReadFrame frame_in => Some frame_in
                 | _ => None
                 end) schedule.

Definition numbered (frames : list Frame) : list (Frame * nat) :=
  imap (fun i frame_in => (frame_in, S i)) frames.

(** The frames that are still to be processed: the frame the worker holds,
    the queued frames, and the frames kept for post-processing. *)
Definition waiting (s : Session) : list (Frame * nat) :=
  match worker_pc s with
  | Got item => [item]
  | _ => []
  end
  ++ items (frame_queue (det s))
  ++ match main_pc s with
     | Finished => []
     | _ => frames_to_process s
     end.

(** The session has processed a first part of the numbered frames, one after
    the other, and the rest is waiting. *)
Definition follows (queue_size : Z) (frames : list Frame) (s : Session) : Prop :=
  exists processed,
    numbered frames = processed ++ waiting s
    /\ outcomes s = map (fun item => (process_frame item.1 item.2).1) processed
    /\ stats (det s) = stats (_post_process_frames processed (init queue_size)).

Lemma run_snoc (schedule : list Action) (a : Action) (s0 s : Session) :
  run (schedule ++ [a]) s0 = Some s ->
  exists s1, run schedule s0 = Some s1 /\ step a s1 = Some s.
Proof.
  revert s0. induction schedule as [|b schedule IH]; intros s0 Hrun; simpl in *.
  - destruct (step a s0) as [s1|] eqn:Hstep; [|done]. simpl in Hrun.
    simplify_eq. by exists s0.
  - destruct (step b s0) as [s1|]; [by apply IH|done].
Qed.

(** Induction over the reachable states together with the schedules that
    lead to them. *)
Lemma reachable_ind_schedule (queue_size : Z) (live : bool)
    (P : list Action -> Session -> Prop) :
  P [] (start queue_size live) ->
  (forall schedule a s s',
     session_inv s -> P schedule s -> step_spec a s s' ->
     P (schedule ++ [a]) s') ->
  forall schedule s, run schedule (start queue_size live) = Some s -> P schedule s.
Proof.
  intros Hstart Hstep schedule.
  induction schedule as [|a schedule IH] using rev_ind; intros s Hrun.
  - simpl in Hrun. by simplify_eq.
  - apply run_snoc in Hrun as (s1 & Hrun & Hs).
    apply (Hstep schedule a s1 s); [|by apply IH|by apply step_step_spec].
    eapply run_inv; [apply start_inv|exact Hrun].
Qed.

Lemma numbered_snoc (frames : list Frame) (frame_in : Frame) :
  numbered (frames ++ [frame_in])
  = numbered frames ++ [(frame_in, S (length frames))].
Proof. unfold numbered. rewrite imap_app. simpl. by rewrite Nat.add_0_r. Qed.

Lemma finish_stats (d : Detector) : stats (finish d) = stats d.
Proof. unfold finish. by destruct (0 <? frames_processed d). Qed.

Lemma handle_frame_stats_congr (item : Frame * nat) (d1 d2 : Detector) :
  stats d1 = stats d2 ->
  stats (handle_frame item d1) = stats (handle_frame item d2).
Proof.
  intros Hd. rewrite !handle_frame_stats.
  destruct ((process_frame item.1 item.2).1); [|done].
  unfold stats in Hd. injection Hd as H1 H2 H3. by rewrite H1, H2, H3.
Qed.

Lemma post_process_stats_congr (frames : list (Frame * nat)) (d1 d2 : Detector) :
  stats d1 = stats d2 ->
  stats (_post_process_frames frames d1) = stats (_post_process_frames frames d2).
Proof.
  revert d1 d2. induction frames as [|item frames IH]; intros d1 d2 Hd; [done|].
  unfold _post_process_frames in *. simpl.
  by apply IH, handle_frame_stats_congr.
Qed.

Lemma post_process_app (l1 l2 : list (Frame * nat)) (d : Detector) :
  _post_process_frames (l1 ++ l2) d
  = _post_process_frames l2 (_post_process_frames l1 d).
Proof. apply foldl_app. Qed.

Lemma follows_captured (queue_size : Z) (frames : list Frame) (s : Session) :
  session_inv s -> frames_dropped (det s) = 0 -> follows queue_size frames s ->
  frames_captured (det s) = length frames + cut_short s.
Proof.
  intros Hinv Hdrop (processed & Hnum & Hout & _).
  apply (f_equal length) in Hnum.
  unfold numbered, waiting in Hnum.
  rewrite length_imap, !length_app in Hnum.
  rewrite (inv_captured s Hinv), Hdrop, Hout, length_map, Hnum.
  unfold pending, being_processed.
  destruct (worker_pc s), (main_pc s); simpl; lia.
Qed.

Lemma session_follows (queue_size : Z) (live : bool)
    (schedule : list Action) (s : Session) :
  run schedule (start queue_size live) = Some s ->
  frames_dropped (det s) = 0 ->
  follows queue_size (frames_read schedule) s.
Proof.
  revert schedule s.
  apply (reachable_ind_schedule queue_size live
           (fun schedule s =>
              frames_dropped (det s) = 0 ->
              follows queue_size (frames_read schedule) s)).
  { intros _. exists []. by destruct live. }
  intros schedule a s s' Hinv IH Hspec Hdrop'.
  assert (Hdrop : frames_dropped (det s) = 0).
  { destruct (step_counters a s s' Hspec) as [_ [Hd|(_ & _ & Hd & _)]]; lia. }
  specialize (IH Hdrop).
  pose proof (follows_captured _ _ _ Hinv Hdrop IH) as Hcaptured.
  destruct IH as (processed & Hnum & Hout & Hstats).
  unfold frames_read. rewrite omap_app. fold (frames_read schedule).
  unfold follows, waiting in *.
  destruct Hspec as [frame_in s Hm|why s Hm|s Hm Hu|s Hm Hw|s Hm|s Hw Hp'
                    |s item rest Hw Hi|s Hw Hi|s Hw Hp'|s item Hw|s Hw
                    |s Hm];
    cbn [omap list_omap]; rewrite ?app_nil_r.
  - (* ReadFrame *)
    rewrite (proj2 (inv_cut_short s Hinv) Hm), Nat.add_0_r in Hcaptured.
    rewrite numbered_snoc, <- Hcaptured, Hnum, Hm.
    unfold read_frame in *. destruct (process_live s) eqn:Hlive.
    + destruct (inv_live s Hinv Hlive) as (Hftp & _ & _).
      unfold put_nowait in *. simpl in *.
      destruct (full (frame_queue (det s))); simpl in *.
      { rewrite frames_dropped_logger in Hdrop'. simpl in Hdrop'. lia. }
      exists processed. rewrite Hm, Hftp. split; [|done].
      by rewrite !app_nil_r, <- !app_assoc.
    + simpl. exists processed. rewrite Hm. split; [|done].
      by rewrite <- !app_assoc.
  - (* Stop *)
    exists processed. rewrite Hm in Hnum. unfold stop.
    set (d := match why with
              | ReadFailed => logger [WarningFailedToReadFrame] (det s)
              | _ => det s
              end).
    assert (Hd : stats d = stats (det s) /\ frame_queue d = frame_queue (det s))
      by (subst d; by destruct why).
    destruct Hd as [Hd Hq]. simpl. fold d.
    destruct (process_live s) eqn:Hlive; simpl.
    + by rewrite Hq, Hd.
    + destruct (frames_to_process s) as [|item rest] eqn:Hftp; simpl.
      * by rewrite (proj1 (finish_spec d)), finish_stats, Hq, Hd.
      * by rewrite Hq, Hd, Hftp.
  - (* QueueJoinReturns *)
    exists processed. simpl. by rewrite Hm in Hnum.
  - (* WorkerJoinReturns *)
    assert (Hlive : process_live s = true).
    { destruct (process_live s) eqn:Hl; [done|].
      destruct (inv_not_live s Hinv Hl) as (_ & _ & _ & _ & Hne).
      by rewrite Hm in Hne. }
    destruct (inv_live s Hinv Hlive) as (Hftp & _ & _).
    exists processed. simpl.
    rewrite (proj1 (finish_spec _)), finish_stats.
    rewrite Hm, Hftp in Hnum. by rewrite !app_nil_r in *.
  - (* RunPostProcess *)
    assert (Hlive : process_live s = false).
    { destruct (process_live s) eqn:Hl; [|done].
      destruct (inv_live s Hinv Hl) as (_ & _ & Hne). by rewrite Hm in Hne. }
    destruct (inv_not_live s Hinv Hlive) as (Hw & Hitems & _).
    rewrite Hw, Hitems, Hm in Hnum. simpl in Hnum.
    exists (processed ++ frames_to_process s). simpl.
    rewrite Hw, finish_stats, (proj1 (finish_spec _)).
    rewrite (proj1 (post_process_frames_spec _ _)), Hitems. simpl.
    rewrite !app_nil_r. split; [done|]. split.
    + by rewrite Hout, map_app.
    + rewrite post_process_app. by apply post_process_stats_congr.
  - (* WorkerEnter *)
    exists processed. simpl. by rewrite Hw in Hnum.
  - (* WorkerGet *)
    exists processed. simpl. by rewrite Hw, Hi in Hnum.
  - (* WorkerTimeout *)
    exists processed. simpl. by rewrite Hw in Hnum.
  - (* WorkerExit *)
    exists processed. simpl. by rewrite Hw in Hnum.
  - (* WorkerProcess *)
    rewrite Hw in Hnum.
    exists (processed ++ [item]). simpl.
    rewrite (proj1 (handle_frame_queue item (det s))).
    split; [by rewrite <- app_assoc|]. split.
    + by rewrite Hout, map_app.
    + rewrite post_process_app. unfold _post_process_frames at 1. simpl.
      by apply handle_frame_stats_congr.
  - (* WorkerTaskDone *)
    exists processed. rewrite Hw in Hnum. unfold task_done.
    by destruct (unfinished_tasks (frame_queue (det s))).
  - (* TurnInterrupted *)
    exists processed.
    destruct (interrupted_turn_spec s)
      as (Hq & _ & _ & _ & _ & Hst & Hw & Ho & Hftp & Hl & Hmain).
    unfold stats. rewrite Hq, Hst, Hw, Ho, Hftp, Hmain.
    rewrite Hm in Hnum. split; [|done].
    destruct (process_live s); [done|].
    by destruct (frames_to_process s).
Qed.

(** The statistics of a session that skipped no frame depend only on the
    frames of its complete loop turns.  Whatever the interleaving of recorder
    and worker, and whether the frames were processed live or after the
    recording, at the final summary each of these frames has been passed to
    [process_frame] exactly once, in the order of capture and under its
    number, and the statistics are those that [_post_process_frames] gives on
    the numbered frames.  The captured frames are these and the frame of a
    turn cut short by a keyboard interrupt, if there is one; that frame is
    never processed. *)
Theorem undropped_session_matches_post_processing (queue_size : Z) (live : bool)
    (schedule : list Action) (s : Session) :
  run schedule (start queue_size live) = Some s ->
  main_pc s = Finished ->
  frames_dropped (det s) = 0 ->
  let frames := numbered (frames_read schedule) in
  frames_captured (det s) = length frames + turns_cut_short schedule
  /\ turns_cut_short schedule <= 1
  /\ outcomes s = map (fun item => (process_frame item.1 item.2).1) frames
  /\ stats (det s) = stats (_post_process_frames frames (init queue_size)).
Proof.
  intros Hrun Hfin Hdrop frames.
  destruct (turns_cut_short_reachable _ _ _ _ Hrun) as [Hcut Hle].
  pose proof (run_inv _ _ _ (start_inv queue_size live) Hrun) as Hinv.
  pose proof (session_follows _ _ _ _ Hrun Hdrop) as Hfollows.
  pose proof (follows_captured _ _ _ Hinv Hdrop Hfollows) as Hcaptured.
  destruct Hfollows as (processed & Hnum & Hout & Hstats).
  destruct (inv_joined s Hinv (or_intror Hfin)) as (_ & Hitems & _).
  pose proof (inv_finished s Hinv Hfin) as Hw.
  assert (Hwaiting : waiting s = []).
  { unfold waiting. rewrite Hw, Hitems, Hfin. by destruct (process_live s). }
  rewrite Hwaiting, app_nil_r in Hnum. fold frames in Hnum. subst processed.
  split; [|done]. unfold frames, numbered. by rewrite length_imap, <- Hcut.
Qed.

End Detector.

Arguments process_frame {Frame Image Metadata Organism}
  cvtColor preprocessor segmenter classifier frame frame_number.
Arguments step {Frame Image Metadata Organism}
  cvtColor preprocessor segmenter classifier a s.
Arguments run {Frame Image Metadata Organism}
  cvtColor preprocessor segmenter classifier schedule s.
Arguments ReadFrame {Frame} frame.
Arguments Stop {Frame} why.
Arguments QueueJoinReturns {Frame}.
Arguments WorkerJoinReturns {Frame}.
Arguments RunPostProcess {Frame}.
Arguments WorkerEnter {Frame}.
Arguments WorkerGet {Frame}.
Arguments WorkerTimeout {Frame}.
Arguments WorkerProcess {Frame}.
Arguments WorkerTaskDone {Frame}.
Arguments WorkerExit {Frame}.
Arguments TurnInterrupted {Frame}.
Arguments Got {Frame} item.
Arguments prep_status {Image Metadata} p.
Arguments prep_preprocessed_image {Image Metadata} p.
Arguments prep_metadata {Image Metadata} p.
Arguments seg_status {Metadata Organism} s.
Arguments seg_organisms {Metadata Organism} s.
Arguments seg_metadata {Metadata Organism} s.
Arguments NotStarted {Frame}.
Arguments Loop {Frame}.
Arguments Waiting {Frame}.
Arguments BeforeTaskDone {Frame}.
Arguments Stopped {Frame}.
Arguments read_frame {Frame} frame s.
Arguments det {Frame} s.
Arguments main_pc {Frame} s.
Arguments worker_pc {Frame} s.
Arguments outcomes {Frame} s.
Arguments cut_short {Frame} s.
Arguments turns_cut_short {Frame} schedule.
Arguments process_live {Frame} s.
Arguments frames_to_process {Frame} s.
Arguments frame_queue {Frame} d.
Arguments results_queue {Frame} d.
Arguments frames_captured {Frame} d.
Arguments frames_processed {Frame} d.
Arguments total_organisms {Frame} d.
Arguments species_counts {Frame} d.
Arguments processing {Frame} d.
Arguments log {Frame} d.
Arguments frames_dropped {Frame} d.
Arguments no_result_count {Frame} l.
Arguments results_count {Frame} l.
Arguments frame_number {Frame} f.
Arguments organisms {Frame} f.
Arguments species_breakdown {Frame} d.
Arguments results_of {Frame} outs.
Arguments organisms_found {Frame} results.
Arguments organisms_of_species {Frame} sp results.
Arguments results_by_frame {Frame} results.
Arguments NoResultsToAnnotate {Frame}.
Arguments CouldNotReadOriginal {Frame}.
Arguments AnnotatedVideo {Frame} frames.
Arguments _generate_annotated_video {Frame} original d.
Arguments reads_frame {Frame} a.
Arguments frames_read {Frame} schedule.
Arguments numbered {Frame} frames.
Arguments stats {Frame} d.

(** *** A detector on test doubles

    Frames are numbers.  The number of a frame says what the modules make of
    it: preprocessing raises on frame 13 and returns an error status on frame
    7; segmentation finds as many organisms as the number says, so frame 0 is
    an empty frame; every organism is classified as a copepod. *)

Definition test_cvtColor (frame : nat) : Exc nat := Returned frame.

Definition test_preprocessor (image : nat) : Exc (PrepResult nat unit) :=
  if Nat.eqb image 13 then Raised (RuntimeError "preprocessing crashed")
  else if Nat.eqb image 7 then
    Returned {| prep_status := Some "error";
                prep_preprocessed_image := None;
                prep_metadata := None |}
  else
    Returned {| prep_status := Some "success";
                prep_preprocessed_image := Some image;
                prep_metadata := Some tt |}.

Definition test_segmenter (preprocessed original : nat) (metadata : unit)
  : Exc (SegResult unit nat) :=
  Returned {| seg_status := Some "success";
              seg_organisms := Some (seq 0 preprocessed);
              seg_metadata := Some metadata |}.

Definition test_classifier (orgs : list nat) (metadata : unit) : Exc ClassResult :=
  Returned {| class_status := Some "success";
              class_classified_organisms :=
                Some (map (fun _ => {| predicted_class := Some "copepod";
                                       bbox := (0, 0, 1, 1)%Z |}) orgs) |}.

Definition test_process_frame : nat -> nat -> option (FrameResult nat) * list LogRecord :=
  process_frame test_cvtColor test_preprocessor test_segmenter test_classifier.

Definition test_step : Action nat -> Session nat -> option (Session nat) :=
  step test_cvtColor test_preprocessor test_segmenter test_classifier.

Definition test_run : list (Action nat) -> Session nat -> option (Session nat) :=
  run test_cvtColor test_preprocessor test_segmenter test_classifier.

(** A live session with a queue of size one.  Frame 2 is queued, frame 5
    finds the queue full, frame 0 is queued once the worker has taken frame 2;
    the worker processes both, then the session shuts down. *)
Definition schedule_three_frames : list (Action nat) :=
  [ReadFrame 2; ReadFrame 5; WorkerEnter; WorkerGet; ReadFrame 0;
   WorkerProcess; WorkerTaskDone; WorkerEnter; WorkerGet; WorkerProcess;
   WorkerTaskDone; Stop UserQuit; QueueJoinReturns; WorkerExit;
   WorkerJoinReturns].

(** A live session that captures one empty frame and shuts down. *)
Definition schedule_empty_frame : list (Action nat) :=
  [ReadFrame 0; WorkerEnter; WorkerGet; WorkerProcess; WorkerTaskDone;
   Stop DurationLimit; QueueJoinReturns; WorkerExit; WorkerJoinReturns].

(** A session that is not live: two frames are kept and post-processed. *)
Definition schedule_post_process : list (Action nat) :=
  [ReadFrame 3; ReadFrame 7; Stop ReadFailed; RunPostProcess].

Example three_frames_final_statistics :
  exists s, test_run schedule_three_frames (start nat 1 true) = Some s
    /\ main_pc s = Finished
    /\ frames_captured (det s) = 3
    /\ frames_processed (det s) = 1
    /\ frames_dropped (det s) = 1
    /\ total_organisms (det s) = 2
    /\ species_counts (det s) !! "copepod" = Some 2
    /\ log (det s) = [WarningQueueFull 2].
Proof.
  eexists. split; [vm_compute; reflexivity|].
  repeat split; vm_compute; reflexivity.
Qed.

Example post_process_final_statistics :
  exists s, test_run schedule_post_process (start nat 100 false) = Some s
    /\ main_pc s = Finished
    /\ frames_captured (det s) = 2
    /\ frames_processed (det s) = 1
    /\ frames_dropped (det s) = 0
    /\ total_organisms (det s) = 3.
Proof.
  eexists. split; [vm_compute; reflexivity|].
  repeat split; vm_compute; reflexivity.
Qed.

(** C1 fails as stated: the session of [schedule_empty_frame] shuts down
    gracefully with one frame captured, none processed and none dropped. *)
Lemma capture_accounting_counterexample :
  exists s, test_run schedule_empty_frame (start nat 100 true) = Some s
    /\ main_pc s = Finished
    /\ frames_captured (det s) = 1
    /\ frames_processed (det s) = 0
    /\ frames_dropped (det s) = 0
    /\ frames_captured (det s)
       <> frames_processed (det s) + frames_dropped (det s).
Proof.
  eexists. split; [vm_compute; reflexivity|].
  repeat split; try (vm_compute; reflexivity). discriminate.
Qed.

(** A live session in which frame 2 is processed and a keyboard interrupt
    ends the second loop turn after its frame was counted. *)
Definition schedule_interrupted : list (Action nat) :=
  [ReadFrame 2; WorkerEnter; WorkerGet; WorkerProcess; WorkerTaskDone;
   TurnInterrupted; QueueJoinReturns; WorkerExit; WorkerJoinReturns].

(** The interrupt alone: one frame is counted, nothing is queued, skipped or
    processed, and nothing is logged. *)
Example interrupted_first_turn :
  exists s, test_run [TurnInterrupted; QueueJoinReturns; WorkerExit;
                      WorkerJoinReturns] (start nat 100 true) = Some s
    /\ main_pc s = Finished
    /\ frames_captured (det s) = 1
    /\ frames_processed (det s) = 0
    /\ outcomes s = []
    /\ log (det s) = [].
Proof.
  eexists. split; [vm_compute; reflexivity|].
  repeat split; vm_compute; reflexivity.
Qed.

Lemma capture_accounting_witness :
  exists s, test_run schedule_interrupted (start nat 1 true) = Some s
    /\ main_pc s = Finished
    /\ frames_captured (det s) = 2
    /\ frames_processed (det s) = 1
    /\ turns_cut_short schedule_interrupted = 1
    /\ frames_captured (det s)
       = frames_processed (det s) + frames_dropped (det s)
         + no_result_count (outcomes s)
         + turns_cut_short schedule_interrupted.
Proof.
  eexists. split; [vm_compute; reflexivity|]. split; [reflexivity|].
  split; [reflexivity|]. split; [reflexivity|]. split; [reflexivity|].
  destruct (capture_accounting nat nat unit nat
              test_cvtColor test_preprocessor test_segmenter test_classifier
              1 true schedule_interrupted _
              ltac:(vm_compute; reflexivity) eq_refl) as [Hcount _].
  exact Hcount.
Defined.

Lemma join_before_final_statistics_witness :
  exists s, test_run schedule_three_frames (start nat 1 true) = Some s
    /\ main_pc s = Finished
    /\ items (frame_queue (det s)) = []
    /\ unfinished_tasks (frame_queue (det s)) = 0
    /\ worker_pc s = Stopped
    /\ frames_captured (det s)
       = frames_dropped (det s) + length (outcomes s)
         + turns_cut_short schedule_three_frames.
Proof.
  eexists. split; [vm_compute; reflexivity|]. split; [reflexivity|].
  destruct (join_before_final_statistics nat nat unit nat
              test_cvtColor test_preprocessor test_segmenter test_classifier
              1 true schedule_three_frames _ ltac:(vm_compute; reflexivity))
    as (_ & _ & Hfin).
  destruct (Hfin eq_refl) as (Hitems & Hunf & _ & Hstopped & Hcap).
  split; [exact Hitems|]. split; [exact Hunf|].
  split; [exact (Hstopped eq_refl) | exact Hcap].
Defined.



(** The live session in which the worker has just taken a frame from the
    queue. *)
Definition schedule_take (frame : nat) : list (Action nat) :=
  [ReadFrame frame; WorkerEnter; WorkerGet].

(** C9 fails as stated: frame 7 fails in preprocessing with an error status,
    and the worker passes it without a single log record. *)
Lemma failure_logged_counterexample :
  (exists prep, test_preprocessor 7 = Returned prep
                /\ prep_status prep = Some "error")
  /\ test_process_frame 7 1 = (None, [])
  /\ exists s s1,
       test_run (schedule_take 7) (start nat 100 true) = Some s
       /\ worker_pc s = Got (7, 1)
       /\ test_step WorkerProcess s = Some s1
       /\ log (det s1) = [].
Proof.
  split; [by eexists|]. split; [reflexivity|].
  eexists _, _. split; [vm_compute; reflexivity|].
  split; [reflexivity|]. split; reflexivity.
Qed.

(** Frame 13 raises in preprocessing: the error is logged and the worker
    goes on. *)
Lemma frame_failure_is_isolated_witness :
  exists s s2,
    test_run (schedule_take 13) (start nat 100 true) = Some s
    /\ worker_pc s = Got (13, 1)
    /\ (test_process_frame 13 1).1 = None
    /\ test_run [WorkerProcess; WorkerTaskDone] s = Some s2
    /\ worker_pc s2 = Loop
    /\ frames_processed (det s2) = 0
    /\ log (det s2)
       = [ErrorProcessingFrame 1 (RuntimeError "preprocessing crashed")].
Proof.
  eexists.
  destruct (frame_failure_is_isolated nat nat unit nat
              test_cvtColor test_preprocessor test_segmenter test_classifier
              100 true (schedule_take 13) (13, 1) _
              ltac:(vm_compute; reflexivity) eq_refl eq_refl)
    as (s1 & s2 & Hs1 & Hs2 & Hpc & _ & Hproc & _ & _ & _ & Hlog).
  exists s2. split; [reflexivity|]. split; [reflexivity|].
  split; [reflexivity|]. split.
  - unfold test_run.
    rewrite (run_cons _ _ _ _ _ _ _ _ _ _ _ _ Hs1).
    by rewrite (run_cons _ _ _ _ _ _ _ _ _ _ _ _ Hs2).
  - split; [exact Hpc|]. split; [exact Hproc | exact Hlog].
Defined.

Lemma empty_frame_gives_no_result_witness :
  exists s s1,
    test_run (schedule_take 0) (start nat 100 true) = Some s
    /\ test_process_frame 0 1 = (None, [])
    /\ test_step WorkerProcess s = Some s1
    /\ det s1 = det s
    /\ frames_processed (det s1) = 0.
Proof.
  eexists.
  destruct (empty_frame_gives_no_result nat nat unit nat
              test_cvtColor test_preprocessor test_segmenter test_classifier
              0 1 0 0 tt _ _ _
              eq_refl eq_refl eq_refl eq_refl eq_refl eq_refl eq_refl eq_refl
              (eq_refl : worker_pc
                           (default (start nat 100 true)
                              (test_run (schedule_take 0) (start nat 100 true)))
                         = Got (0, 1)))
    as (Hpf & s1 & Hstep & Hdet & Hproc & _).
  exists s1. split; [reflexivity|]. split; [exact Hpf|].
  split; [exact Hstep|]. split; [exact Hdet | exact Hproc].
Defined.

(** *** The further properties on the test doubles *)

(** A live session with a queue of size one in which frame 5 finds the queue
    full. *)
Definition schedule_queue_full : list (Action nat) := [ReadFrame 2; ReadFrame 5].

(** A live session whose worker has processed two frames; the recording
    still runs. *)
Definition schedule_two_results : list (Action nat) :=
  [ReadFrame 2; ReadFrame 3; WorkerEnter; WorkerGet; WorkerProcess;
   WorkerTaskDone; WorkerEnter; WorkerGet; WorkerProcess; WorkerTaskDone].

Lemma queue_never_exceeds_capacity_witness :
  exists s, test_run schedule_queue_full (start nat 1 true) = Some s
    /\ maxsize (frame_queue (det s)) = 1%Z
    /\ (Z.of_nat (length (items (frame_queue (det s)))) <= 1)%Z.
Proof.
  eexists. split; [vm_compute; reflexivity|].
  destruct (queue_never_exceeds_capacity nat nat unit nat
              test_cvtColor test_preprocessor test_segmenter test_classifier
              1 true schedule_queue_full _ ltac:(vm_compute; reflexivity))
    as [Hmax Hlen].
  split; [exact Hmax | apply Hlen; lia].
Defined.

Lemma no_frame_skipped_within_capacity_witness :
  exists s, test_run schedule_two_results (start nat 2 true) = Some s
    /\ frames_captured (det s) = 2
    /\ frames_dropped (det s) = 0.
Proof.
  eexists. split; [vm_compute; reflexivity|]. split; [reflexivity|].
  apply (no_frame_skipped_within_capacity nat nat unit nat
           test_cvtColor test_preprocessor test_segmenter test_classifier
           2 true schedule_two_results); [vm_compute; reflexivity|].
  right. simpl. lia.
Defined.


(** A classifier that leaves the first organism of every frame without a
    class and calls the others diatoms. *)
Definition test_classifier_mixed (orgs : list nat) (metadata : unit)
  : Exc ClassResult :=
  Returned {| class_status := Some "success";
              class_classified_organisms :=
                Some (map (fun org =>
                             {| predicted_class :=
                                  if Nat.eqb org 0 then None else Some "diatom";
                                bbox := (0, 0, 1, 1)%Z |}) orgs) |}.

Lemma species_counts_add_up_witness :
  exists s,
    run test_cvtColor test_preprocessor test_segmenter test_classifier_mixed
      schedule_two_results (start nat 2 true) = Some s
    /\ total_organisms (det s) = 5
    /\ species_counts (det s) !! "unknown" = Some 2
    /\ species_counts (det s) !! "diatom" = Some 3
    /\ default 0 (species_counts (det s) !! "unknown")
       = organisms_of_species "unknown" (results_of (outcomes s))
    /\ count_total (species_counts (det s)) = total_organisms (det s)
    /\ (species_counts (det s) = ∅ <-> total_organisms (det s) = 0).
Proof.
  eexists. split; [vm_compute; reflexivity|]. split; [reflexivity|].
  split; [vm_compute; reflexivity|]. split; [vm_compute; reflexivity|].
  destruct (species_counts_add_up nat nat unit nat
              test_cvtColor test_preprocessor test_segmenter
              test_classifier_mixed
              2 true schedule_two_results _ ltac:(vm_compute; reflexivity))
    as (Hspecies & Hsum & _ & Hempty).
  split; [exact (Hspecies "unknown")|]. split; [exact Hsum | exact Hempty].
Defined.

Lemma species_percentages_add_up_witness :
  exists s, test_run schedule_two_results (start nat 2 true) = Some s
    /\ total_organisms (det s) = 5
    /\ (sum_percent (species_breakdown (det s)) == 100)%Q.
Proof.
  eexists. split; [vm_compute; reflexivity|]. split; [reflexivity|].
  destruct (species_percentages_add_up nat nat unit nat
              test_cvtColor test_preprocessor test_segmenter test_classifier
              2 true schedule_two_results _ ltac:(vm_compute; reflexivity))
    as (_ & _ & Hsum).
  apply Hsum. simpl. lia.
Defined.

Lemma results_queue_holds_results_witness :
  exists s, test_run schedule_two_results (start nat 2 true) = Some s
    /\ main_pc s = Recording
    /\ frames_processed (det s) = 2
    /\ results_queue (det s) = results_of (outcomes s).
Proof.
  eexists. split; [vm_compute; reflexivity|]. split; [reflexivity|].
  split; [reflexivity|].
  destruct (results_queue_holds_results nat nat unit nat
              test_cvtColor test_preprocessor test_segmenter test_classifier
              2 true schedule_two_results _ ltac:(vm_compute; reflexivity))
    as (_ & _ & Hqueue & _).
  apply Hqueue. simpl. discriminate.
Defined.

Lemma results_in_capture_order_witness :
  exists s, test_run schedule_two_results (start nat 2 true) = Some s
    /\ frame_number <$> results_of (outcomes s) = [1; 2]
    /\ StronglySorted lt (frame_number <$> results_of (outcomes s)).
Proof.
  eexists. split; [vm_compute; reflexivity|]. split; [reflexivity|].
  destruct (results_in_capture_order nat nat unit nat
              test_cvtColor test_preprocessor test_segmenter test_classifier
              2 true schedule_two_results _ ltac:(vm_compute; reflexivity))
    as [Hsorted _].
  exact Hsorted.
Defined.

(** The detector of the session of [schedule_two_results]: its results
    queue holds the results of frames 1 and 2. *)
Definition detector_two_results : Detector nat :=
  det (default (start nat 2 true)
         (test_run schedule_two_results (start nat 2 true))).

(** A video of three frames annotated from two results: the third frame is
    written as it was read. *)
Lemma annotation_follows_frame_numbers_witness :
  frame_number <$> results_queue detector_two_results = [1; 2]
  /\ exists frames,
       (_generate_annotated_video (Some [2; 3; 4]) detector_two_results).2
       = AnnotatedVideo frames
       /\ length frames = 3.
Proof.
  split; [reflexivity|].
  assert (Hsorted : StronglySorted lt
                      (frame_number <$> results_queue detector_two_results))
    by (vm_compute; repeat constructor).
  assert (Hne : results_queue detector_two_results <> [])
    by (vm_compute; discriminate).
  destruct (annotation_follows_frame_numbers nat (Some [2; 3; 4])
              detector_two_results Hsorted Hne)
    as (_ & _ & frames & Hvideo & Hlen & _).
  exists frames. split; [exact Hvideo | exact Hlen].
Defined.

(** The worker holds a frame when the recording is stopped: the session
    still reaches its final summary. *)
Lemma shutdown_always_completes_witness :
  exists s rest s',
    test_run (schedule_take 2) (start nat 100 true) = Some s
    /\ worker_pc s = Got (2, 1)
    /\ Forall (fun a => reads_frame a = false) rest
    /\ test_run rest s = Some s'
    /\ main_pc s' = Finished.
Proof.
  eexists.
  destruct (shutdown_always_completes nat nat unit nat
              test_cvtColor test_preprocessor test_segmenter test_classifier
              100 true (schedule_take 2) _ ltac:(vm_compute; reflexivity))
    as (rest & s' & Hquiet & Hrun & Hfin).
  exists rest, s'. split; [vm_compute; reflexivity|]. split; [reflexivity|].
  split; [exact Hquiet|]. split; [exact Hrun | exact Hfin].
Defined.

(** A session that is not live: two frames are kept, a keyboard interrupt
    ends the third turn after its frame was counted, and the two kept frames
    are post-processed. *)
Definition schedule_post_process_interrupted : list (Action nat) :=
  [ReadFrame 3; ReadFrame 2; TurnInterrupted; RunPostProcess].

Lemma post_processing_handles_every_frame_witness :
  exists s,
    test_run schedule_post_process_interrupted (start nat 100 false) = Some s
    /\ main_pc s = Finished
    /\ frames_captured (det s) = 3
    /\ length (outcomes s) = 2
    /\ frames_dropped (det s) = 0
    /\ snd <$> frames_to_process s = [1; 2]
    /\ frames_captured (det s)
       = length (frames_to_process s)
         + turns_cut_short schedule_post_process_interrupted.
Proof.
  eexists. split; [vm_compute; reflexivity|]. split; [reflexivity|].
  split; [reflexivity|]. split; [reflexivity|].
  destruct (post_processing_handles_every_frame nat nat unit nat
              test_cvtColor test_preprocessor test_segmenter test_classifier
              100 schedule_post_process_interrupted _
              ltac:(vm_compute; reflexivity))
    as (_ & Hdrop & Hnum & Hcaptured & _).
  split; [exact Hdrop|]. split; [exact Hnum | exact Hcaptured].
Defined.

(** Frame 2, captured first, gives a result with two organisms. *)
Lemma result_means_every_stage_succeeded_witness :
  exists r,
    (test_process_frame 2 1).1 = Some r
    /\ frame_number r = 1
    /\ length (organisms r) = 2
    /\ every_stage_succeeded nat nat unit nat
         test_cvtColor test_preprocessor test_segmenter test_classifier
         2 (organisms r).
Proof.
  eexists. split; [reflexivity|].
  destruct (result_means_every_stage_succeeded nat nat unit nat
              test_cvtColor test_preprocessor test_segmenter test_classifier
              2 1 _ eq_refl)
    as (Hnumber & _ & _ & Hstages).
  split; [exact Hnumber|]. split; [reflexivity | exact Hstages].
Defined.

(** A live session that processes two frames and is then interrupted in
    its third loop turn, and the session that keeps the same two frames and
    processes them afterwards. *)
Definition schedule_two_frames_live : list (Action nat) :=
  schedule_two_results
  ++ [TurnInterrupted; QueueJoinReturns; WorkerExit; WorkerJoinReturns].

Definition schedule_two_frames_later : list (Action nat) :=
  [ReadFrame 2; ReadFrame 3; Stop UserQuit; RunPostProcess].

Lemma undropped_session_matches_post_processing_witness :
  exists s1 s2,
    test_run schedule_two_frames_live (start nat 2 true) = Some s1
    /\ test_run schedule_two_frames_later (start nat 2 false) = Some s2
    /\ main_pc s1 = Finished
    /\ main_pc s2 = Finished
    /\ frames_read schedule_two_frames_live = [2; 3]
    /\ frames_read schedule_two_frames_later = [2; 3]
    /\ frames_captured (det s1) = 3
    /\ frames_captured (det s2) = 2
    /\ outcomes s1 = outcomes s2
    /\ stats (det s1) = stats (det s2).
Proof.
  eexists _, _. split; [vm_compute; reflexivity|].
  split; [vm_compute; reflexivity|].
  split; [reflexivity|]. split; [reflexivity|].
  split; [reflexivity|]. split; [reflexivity|].
  split; [reflexivity|]. split; [reflexivity|].
  destruct (undropped_session_matches_post_processing nat nat unit nat
              test_cvtColor test_preprocessor test_segmenter test_classifier
              2 true schedule_two_frames_live _
              ltac:(vm_compute; reflexivity) eq_refl eq_refl)
    as (_ & _ & Hout1 & Hstats1).
  destruct (undropped_session_matches_post_processing nat nat unit nat
              test_cvtColor test_preprocessor test_segmenter test_classifier
              2 false schedule_two_frames_later _
              ltac:(vm_compute; reflexivity) eq_refl eq_refl)
    as (_ & _ & Hout2 & Hstats2).
  split.
  - exact (eq_trans Hout1 (eq_sym Hout2)).
  - exact (eq_trans Hstats1 (eq_sym Hstats2)).
Defined.

End Buffered.

(** ** simulate_pipeline.py *)

Module Simulate.

Inductive StageName : Type :=
| Acquisition | Preprocessing | Segmentation | Classification
| Counting | Analytics | Export.

#[global] Instance StageName_eq_dec : EqDecision StageName.
Proof. solve_decision. Defined.

(** The order in which [simulate_single_sample] calls the modules. *)
Definition stage_order : list StageName :=
  [Acquisition; Preprocessing; Segmentation; Classification;
   Counting; Analytics; Export].

(** What a call of a module's [process] came back with: the value under
    ['status'] of the dictionary it returned, or the exception it raised. *)
Inductive CallOutcome : Type :=
| ReturnedStatus (status : option string)
| Threw (e : Exn).

Inductive VisKind : Type :=
| VisOriginal | VisPreprocessed | VisSegmentation | VisClassification
| VisFinal | VisGrid | VisMetadataJson.

(** The observable events of one run, in order: module calls, files written
    by the visualizer, and error-level log lines. *)
Inductive Event : Type :=
| Called (stage : StageName) (outcome : CallOutcome)
| Saved (kind : VisKind)
| LoggedFailure (stage : StageName).

(** How a piece of the function body ends: with a value, with
    [return None], or with an exception. *)
Inductive Outcome (A : Type) : Type :=
| Value (a : A)
| ReturnNone
| Exception (e : Exn).

Arguments Value {A} a.
Arguments ReturnNone {A}.
Arguments Exception {A} e.

(** Computations that extend the trace of events. *)
Definition Sim (A : Type) : Type := list Event -> Outcome A * list Event.

Definition sim_ret {A : Type} (a : A) : Sim A := fun trace => (Value a, trace).

Definition sim_bind {A B : Type} (k : A -> Sim B) (m : Sim A) : Sim B :=
  fun trace =>
    match m trace with
    | (Value a, trace') => k a trace'
    | (ReturnNone, trace') => (ReturnNone, trace')
    | (Exception e, trace') => (Exception e, trace')
    end.

#[global] Instance sim_mret : MRet Sim := @sim_ret.
#[global] Instance sim_mbind : MBind Sim := @sim_bind.

Definition emit (ev : Event) : Sim unit := fun trace => (Value tt, trace ++ [ev]).

Definition return_none {A : Type} : Sim A := fun trace => (ReturnNone, trace).

(** A step that can raise and leaves no event. *)
Definition lift {A : Type} (x : Exc A) : Sim A :=
  fun trace =>
    match x with
    | Returned a => (Value a, trace)
    | Raised e => (Exception e, trace)
    end.

(** [manager.modules[stage].process(input)]: the call is recorded together
    with what came back. *)
Definition call {R : Type} (stage : StageName) (status_of : R -> option string)
    (result : Exc R) : Sim R :=
  fun trace =>
    match result with
    | Returned r => (Value r, trace ++ [Called stage (ReturnedStatus (status_of r))])
    | Raised e => (Exception e, trace ++ [Called stage (Threw e)])
    end.

(** [if result['status'] != 'success': logger.error(...); return None]. *)
Definition check_status (stage : StageName) (status : option string) : Sim unit :=
  status ← lift (getitem "status" status);
  if is_success status then mret tt
  else (_ ← emit (LoggedFailure stage); return_none).

Section Pipeline.

Variables Image Metadata Stats Masks Boxes Centroids Areas : Type.
Variables Counts Organisms Diversity Alerts ModelMetadata : Type.
Variables ConfigSection Path : Type.

Record AcquisitionParams : Type := {
  magnification : Q;
  exposure_ms : Z
}.

Record Prediction : Type := {
  class_name : option string
}.

Record AcqResult : Type := {
  acq_status : option string;
  acq_image : option Image;
  acq_metadata : option Metadata
}.

Record PrepResult : Type := {
  prep_status : option string;
  prep_processed_image : option Image;
  prep_preprocessing_stats : option Stats
}.

Record SegResult : Type := {
  seg_status : option string;
  seg_masks : option Masks;
  seg_bounding_boxes : option Boxes;
  seg_centroids : option Centroids;
  seg_areas_px : option Areas;
  seg_algorithm : option string
}.

Record ClassResult : Type := {
  class_status : option string;
  class_predictions : option (list Prediction);
  class_model_metadata : option ModelMetadata
}.

Record CountResult : Type := {
  count_status : option string;
  count_counts_by_class : option Counts;
  count_organisms : option Organisms;
  count_total_count : option nat
}.

Record AnalyticsResult : Type := {
  analytics_status : option string;
  analytics_diversity_indices : option Diversity;
  analytics_bloom_alerts : option Alerts
}.

Record ExportResult : Type := {
  export_status : option string;
  export_exported_files : option (list Path)
}.

(** [manager.modules]: the seven modules, each a [process] function. *)
Record Modules : Type := {
  acquisition : AcquisitionParams -> Exc AcqResult;
  preprocessing : Image -> ConfigSection -> Exc PrepResult;
  segmentation : Image -> ConfigSection -> Exc SegResult;
  classification : Image -> Masks -> Boxes -> ConfigSection -> Exc ClassResult;
  counting : list Prediction -> Masks -> Boxes -> Centroids -> Areas
             -> Metadata -> ConfigSection -> Exc CountResult;
  analytics : Counts -> Organisms -> Metadata -> ConfigSection
              -> Exc AnalyticsResult;
  export : Metadata -> Counts -> Organisms -> Diversity -> Alerts
           -> ConfigSection -> Exc ExportResult
}.

Record PipelineManager : Type := {
  modules : Modules;
  config : gmap string ConfigSection
}.

(** What the function does with the values of the results between two
    module calls.  Each of these can raise, and what it raises ends the run:
    [image.shape], [len(masks)] and [len(bloom_alerts)], read for the log and
    for the metadata; [diversity_indices[key]], read for the log; and the
    calls of the visualizer, each of which writes one file on the data of the
    run and returns its path.  Informational log lines are left out.  The
    predictions and the exported files are taken to be lists, the class
    names strings (they are dictionary keys and are sorted), and the
    diversity indices numbers (the Shannon index is formatted with three
    decimals). *)
Variable image_shape : Image -> Exc unit.
Variable len_masks : Masks -> Exc nat.
Variable len_alerts : Alerts -> Exc nat.
Variable diversity_entry : Diversity -> string -> option Q.
Variable visualizer : VisKind -> Exc Path.
(** [metadata['capture_id']]. *)
Variable capture_id : Metadata -> option string.

(** A call of the visualizer: the file counts as saved when the call has
    returned. *)
Definition save (kind : VisKind) : Sim Path :=
  path ← lift (visualizer kind); _ ← emit (Saved kind); mret path.

Definition config_section (manager : PipelineManager) (name : string)
  : Sim ConfigSection :=
  lift (getitem name (config manager !! name)).

(** The loop that tallies [pred['class_name']] for the log. *)
Fixpoint class_distribution (predictions : list Prediction) : Exc unit :=
  match predictions with
  | [] => Returned tt
  | pred :: rest =>
      _ ← getitem "class_name" (class_name pred); class_distribution rest
  end.

(** The dictionary returned by a complete run: the sample id, the metadata
    collected on the way ([results]), and the paths of the files. *)
Record CompleteMetadata : Type := {
  meta_sample_id : string;
  meta_acquisition : Metadata;
  meta_preprocessing : Stats;
  meta_num_organisms : nat;
  meta_algorithm : string;
  meta_num_predictions : nat;
  meta_model_metadata : option ModelMetadata;
  meta_total_count : nat;
  meta_counts_by_class : Counts;
  meta_diversity_indices : Diversity;
  meta_bloom_alerts : Alerts;
  meta_visualization_paths : list (string * Path)
}.

Record SampleResult : Type := {
  sample_id : string;
  results : CompleteMetadata;
  visualization_paths : list (string * Path)
}.

Definition simulate_single_sample (manager : PipelineManager)
    (magn : Q) (exposure : Z) : Sim SampleResult :=
  let m := modules manager in
  (* Step 1: Acquisition *)
  acq_result ← call Acquisition acq_status
    (acquisition m {| magnification := magn; exposure_ms := exposure |});
  _ ← check_status Acquisition (acq_status acq_result);
  image ← lift (getitem "image" (acq_image acq_result));
  metadata ← lift (getitem "metadata" (acq_metadata acq_result));
  sample ← lift (getitem "capture_id" (capture_id metadata));
  _ ← lift (image_shape image);
  p_original ← save VisOriginal;
  (* Step 2: Preprocessing *)
  cfg ← config_section manager "preprocessing";
  prep_result ← call Preprocessing prep_status (preprocessing m image cfg);
  _ ← check_status Preprocessing (prep_status prep_result);
  preprocessed_image ← lift (getitem "processed_image" (prep_processed_image prep_result));
  stats ← lift (getitem "preprocessing_stats"
                  (prep_preprocessing_stats prep_result));
  p_preprocessed ← save VisPreprocessed;
  (* Step 3: Segmentation *)
  cfg ← config_section manager "segmentation";
  seg_result ← call Segmentation seg_status (segmentation m preprocessed_image cfg);
  _ ← check_status Segmentation (seg_status seg_result);
  masks ← lift (getitem "masks" (seg_masks seg_result));
  bounding_boxes ← lift (getitem "bounding_boxes" (seg_bounding_boxes seg_result));
  centroids ← lift (getitem "centroids" (seg_centroids seg_result));
  areas_px ← lift (getitem "areas_px" (seg_areas_px seg_result));
  _ ← lift (len_masks masks);
  p_segmentation ← save VisSegmentation;
  (* Step 4: Classification *)
  cfg ← config_section manager "classification";
  class_result ← call Classification class_status
    (classification m preprocessed_image masks bounding_boxes cfg);
  _ ← check_status Classification (class_status class_result);
  predictions ← lift (getitem "predictions" (class_predictions class_result));
  _ ← lift (class_distribution predictions);
  p_classification ← save VisClassification;
  (* Step 5: Counting *)
  cfg ← config_section manager "counting";
  count_result ← call Counting count_status
    (counting m predictions masks bounding_boxes centroids areas_px metadata cfg);
  _ ← check_status Counting (count_status count_result);
  counts_by_class ← lift (getitem "counts_by_class" (count_counts_by_class count_result));
  organisms ← lift (getitem "organisms" (count_organisms count_result));
  total_count ← lift (getitem "total_count" (count_total_count count_result));
  (* Step 6: Analytics *)
  cfg ← config_section manager "analytics";
  analytics_result ← call Analytics analytics_status
    (analytics m counts_by_class organisms metadata cfg);
  _ ← check_status Analytics (analytics_status analytics_result);
  diversity_indices ← lift (getitem "diversity_indices"
                              (analytics_diversity_indices analytics_result));
  bloom_alerts ← lift (getitem "bloom_alerts" (analytics_bloom_alerts analytics_result));
  _ ← lift (getitem "shannon" (diversity_entry diversity_indices "shannon"));
  _ ← lift (getitem "species_richness"
              (diversity_entry diversity_indices "species_richness"));
  _ ← lift (len_alerts bloom_alerts);
  p_final ← save VisFinal;
  (* Step 7: Export *)
  cfg ← config_section manager "export";
  export_result ← call Export export_status
    (export m metadata counts_by_class organisms diversity_indices bloom_alerts cfg);
  _ ← check_status Export (export_status export_result);
  _ ← lift (getitem "exported_files" (export_exported_files export_result));
  p_grid ← save VisGrid;
  let vis_paths :=
    [("original", p_original); ("preprocessed", p_preprocessed);
     ("segmentation", p_segmentation); ("classification", p_classification);
     ("final", p_final); ("grid", p_grid)] in
  (* The complete metadata *)
  stats ← lift (getitem "preprocessing_stats"
                  (prep_preprocessing_stats prep_result));
  num_organisms ← lift (len_masks masks);
  let complete_metadata :=
    {| meta_sample_id := sample;
       meta_acquisition := metadata;
       meta_preprocessing := stats;
       meta_num_organisms := num_organisms;
       meta_algorithm := default "unknown" (seg_algorithm seg_result);
       meta_num_predictions := length predictions;
       meta_model_metadata := class_model_metadata class_result;
       meta_total_count := total_count;
       meta_counts_by_class := counts_by_class;
       meta_diversity_indices := diversity_indices;
       meta_bloom_alerts := bloom_alerts;
       meta_visualization_paths := vis_paths |} in
  _ ← save VisMetadataJson;
  mret {| sample_id := sample;
          results := complete_metadata;
          visualization_paths := vis_paths |}.

(** The module calls of a trace, in order. *)
Definition calls (trace : list Event) : list (StageName * CallOutcome) :=
  omap (fun ev => match ev with
                  | Called stage outcome => Some (stage, outcome)
                  | _ => None
                  end) trace.

(** A call succeeded when it returned a dictionary whose status is
    [success]. *)
Definition succeeded (outcome : CallOutcome) : bool :=
  match outcome with
  | ReturnedStatus (Some status) => is_success status
  | _ => false
  end.

(** *** A program logic for [Sim]

    [hoare P m Q F]: started on a trace that satisfies [P], the computation
    [m] either gives a value [a] and a trace that satisfies [Q a], or ends the
    function early (with [return None] or an exception) on a trace that
    satisfies [F]. *)
Definition hoare {A : Type} (P : list Event -> Prop) (m : Sim A)
    (Q : A -> list Event -> Prop) (F : list Event -> Prop) : Prop :=
  forall trace, P trace ->
    match m trace with
    | (Value a, trace') => Q a trace'
    | (_, trace') => F trace'
    end.

(** [n] modules have been called, in the fixed order, and every call
    succeeded. *)
Definition good (n : nat) (trace : list Event) : Prop :=
  map fst (calls trace) = take n stage_order
  /\ length (calls trace) = n
  /\ Forall (fun c => succeeded c.2 = true) (calls trace).

(** The modules were called in the fixed order, and a call that did not
    succeed is the last one. *)
Definition halted (trace : list Event) : Prop :=
  map fst (calls trace) = take (length (calls trace)) stage_order
  /\ forall i c, calls trace !! i = Some c -> succeeded c.2 = false ->
       length (calls trace) = S i.

Lemma hoare_bind {A B : Type} (P : list Event -> Prop) (m : Sim A)
    (Q : A -> list Event -> Prop) (k : A -> Sim B)
    (R : B -> list Event -> Prop) (F : list Event -> Prop) :
  hoare P m Q F -> (forall a, hoare (Q a) (k a) R F) -> hoare P (m ≫= k) R F.
Proof.
  intros Hm Hk trace HP. specialize (Hm trace HP).
  unfold mbind, sim_mbind, sim_bind.
  destruct (m trace) as [[a| |e] trace']; try done.
  by apply Hk.
Qed.

Lemma hoare_ret {A : Type} (P : list Event -> Prop) (a : A)
    (F : list Event -> Prop) :
  hoare P (mret a) (fun _ => P) F.
Proof. by intros trace HP. Qed.

Lemma calls_app (t1 t2 : list Event) : calls (t1 ++ t2) = calls t1 ++ calls t2.
Proof. apply omap_app. Qed.

Lemma good_halted (n : nat) (trace : list Event) : good n trace -> halted trace.
Proof.
  intros (Hmap & Hlen & Hall). split.
  - by rewrite Hlen.
  - intros i c Hi Hc.
    rewrite Forall_lookup in Hall. specialize (Hall i c Hi). congruence.
Qed.

(** Events that are not module calls change neither predicate. *)
Lemma good_silent (n : nat) (trace extra : list Event) :
  calls extra = [] -> good n trace -> good n (trace ++ extra).
Proof. intros He. unfold good. by rewrite calls_app, He, app_nil_r. Qed.

Lemma halted_silent (trace extra : list Event) :
  calls extra = [] -> halted trace -> halted (trace ++ extra).
Proof. intros He. unfold halted. by rewrite calls_app, He, app_nil_r. Qed.

Lemma good_call (n : nat) (trace : list Event) (stage : StageName)
    (o : CallOutcome) :
  good n trace -> stage_order !! n = Some stage -> succeeded o = true ->
  good (S n) (trace ++ [Called stage o]).
Proof.
  intros (Hmap & Hlen & Hall) Hst Ho. unfold good.
  rewrite calls_app, (take_S_r _ _ _ Hst).
  change (calls [Called stage o]) with [(stage, o)].
  repeat split.
  - by rewrite map_app, Hmap.
  - rewrite length_app. simpl. lia.
  - apply Forall_app. split; [done|]. by constructor.
Qed.

Lemma halted_call (n : nat) (trace : list Event) (stage : StageName)
    (o : CallOutcome) :
  good n trace -> stage_order !! n = Some stage ->
  halted (trace ++ [Called stage o]).
Proof.
  intros (Hmap & Hlen & Hall) Hst. unfold halted.
  rewrite calls_app.
  change (calls [Called stage o]) with [(stage, o)].
  rewrite length_app, Hlen.
  change (length [(stage, o)]) with 1. rewrite Nat.add_1_r. split.
  - by rewrite (take_S_r _ _ _ Hst), map_app, Hmap.
  - intros i c Hi Hc.
    destruct (decide (i < length (calls trace))) as [Hlt|Hge].
    + rewrite lookup_app_l in Hi by done.
      rewrite Forall_lookup in Hall. specialize (Hall i c Hi). congruence.
    + apply lookup_lt_Some in Hi. rewrite length_app in Hi. simpl in Hi. lia.
Qed.

Lemma hoare_lift {A : Type} (n : nat) (x : Exc A) :
  hoare (good n) (lift x) (fun _ => good n) halted.
Proof.
  intros trace HP. unfold lift.
  destruct x; [by eapply good_halted | done].
Qed.

Lemma hoare_save (n : nat) (kind : VisKind) :
  hoare (good n) (save kind) (fun _ => good n) halted.
Proof.
  intros trace HP. unfold save, lift, emit, mbind, sim_mbind, sim_bind.
  destruct (visualizer kind) as [e|path]; simpl; [by eapply good_halted|].
  by apply good_silent.
Qed.

Lemma hoare_config_section (n : nat) (manager : PipelineManager)
    (name : string) :
  hoare (good n) (config_section manager name) (fun _ => good n) halted.
Proof. apply hoare_lift. Qed.

(** A module call followed by the test of its status: the run goes on only
    after a success. *)
Lemma hoare_call_check {R A : Type} (n : nat) (stage : StageName)
    (status_of : R -> option string) (result : Exc R) (k : R -> Sim A)
    (Q : A -> list Event -> Prop) :
  stage_order !! n = Some stage ->
  (forall r, hoare (good (S n)) (k r) Q halted) ->
  hoare (good n)
    (r ← call stage status_of result;
     _ ← check_status stage (status_of r);
     k r)
    Q halted.
Proof.
  intros Hst Hk trace HP.
  unfold mbind, sim_mbind, sim_bind, call, check_status, lift, emit,
    return_none, mbind, sim_mbind, sim_bind.
  destruct result as [e|r]; [by eapply halted_call|].
  destruct (status_of r) as [status|] eqn:Hstatus; simpl;
    [|by eapply halted_call].
  destruct (is_success status) eqn:Hok; simpl.
  - apply Hk. eapply good_call; [done..|]. by simpl.
  - apply halted_silent; [done|]. by eapply halted_call.
Qed.

Ltac hoare_step :=
  first
    [ eapply hoare_call_check; [reflexivity|intros ?]
    | eapply hoare_bind; [apply hoare_lift|intros ?]
    | eapply hoare_bind; [apply hoare_save|intros ?]
    | eapply hoare_bind; [apply hoare_config_section|intros ?] ].

Lemma simulate_single_sample_hoare (manager : PipelineManager)
    (magn : Q) (exposure : Z) :
  hoare (good 0) (simulate_single_sample manager magn exposure)
    (fun _ => good 7) halted.
Proof.
  unfold simulate_single_sample.
  repeat hoare_step.
  apply (hoare_ret (good 7)).
Qed.

Lemma good_nil : good 0 [].
Proof. repeat split; by constructor. Qed.

(** C2.  One run of [simulate_single_sample], started on the empty trace.
    The modules are called in the fixed order, each at most once.  A call
    that does not come back with the status success (an error status, no
    status, or an exception) is the last call of the run, and the run gives
    no result.  In particular, after a segmentation call that did not succeed
    the export module is never called, so nothing is exported. *)
Theorem fail_fast (manager : PipelineManager) (magn : Q) (exposure : Z) :
  let result := simulate_single_sample manager magn exposure [] in
  let cs := calls result.2 in
  map fst cs = take (length cs) stage_order
  /\ (forall i c, cs !! i = Some c -> succeeded c.2 = false ->
        length cs = S i /\ forall v, result.1 <> Value v)
  /\ (forall o, (Segmentation, o) ∈ cs -> succeeded o = false ->
        Export ∉ map fst cs).
Proof.
  intros result cs.
  pose proof (simulate_single_sample_hoare manager magn exposure [] good_nil)
    as Hrun.
  fold result in Hrun.
  assert (Hhalt : halted result.2).
  { destruct result as [[v| |e] trace]; simpl in *;
      [by eapply good_halted|done..]. }
  destruct Hhalt as [Horder Hlast]. fold cs in Horder, Hlast.
  split; [done|]. split.
  - intros i c Hi Hc. split; [by eapply Hlast|].
    intros v Hv. destruct result as [o trace]; simpl in *; subst o.
    destruct Hrun as (_ & _ & Hall).
    rewrite Forall_lookup in Hall. specialize (Hall i c Hi). congruence.
  - intros o Hin Ho.
    apply list_elem_of_lookup in Hin as [i Hi].
    pose proof (Hlast i _ Hi Ho) as Hlen.
    assert (Hfst : map fst cs !! i = Some Segmentation)
      by (by rewrite list_lookup_fmap, Hi).
    rewrite Horder, Hlen in Hfst.
    assert (i = 2) as ->.
    { apply lookup_take_Some in Hfst as [Hfst _].
      do 7 (destruct i as [|i]; [by simplify_eq/=|]). done. }
    rewrite Horder, Hlen. simpl.
    rewrite !elem_of_cons. intros [?|[?|[?|?%elem_of_nil]]]; done.
Qed.

(** *** What a run leaves behind: files saved and failures logged *)

(** The files the visualizer wrote, and the stages logged as failed, in
    order. *)
Definition saves (trace : list Event) : list VisKind :=
  omap (fun ev => match ev with
                  | Saved kind => Some kind
                  | _ => None
                  end) trace.

Definition logged_failures (trace : list Event) : list StageName :=
  omap (fun ev => match ev with
                  | LoggedFailure stage => Some stage
                  | _ => None
                  end) trace.

(** The order in which [simulate_single_sample] writes its files. *)
Definition vis_order : list VisKind :=
  [VisOriginal; VisPreprocessed; VisSegmentation; VisClassification;
   VisFinal; VisGrid; VisMetadataJson].

Definition successful_calls (trace : list Event) : nat :=
  length (filter (fun c => succeeded c.2 = true) (calls trace)).

(** The files were written in the fixed order, none twice, and no more of
    them than modules have succeeded. *)
Definition tidy (trace : list Event) : Prop :=
  saves trace = take (length (saves trace)) vis_order
  /\ length (saves trace) <= successful_calls trace.

(** [n] modules have succeeded, [k] files are written, nothing is logged as
    failed. *)
Definition progress (n k : nat) (trace : list Event) : Prop :=
  good n trace /\ saves trace = take k vis_order /\ k <= n
  /\ logged_failures trace = [].

Definition is_key_error (e : Exn) : Prop := exists key, e = KeyError key.

(** The exception is one that [image.shape], [len(masks)],
    [len(bloom_alerts)] or a call of the visualizer raises. *)
Definition raised_between_calls (e : Exn) : Prop :=
  (exists image, image_shape image = Raised e)
  \/ (exists masks, len_masks masks = Raised e)
  \/ (exists alerts, len_alerts alerts = Raised e)
  \/ (exists kind, visualizer kind = Raised e).

(** The number of files written before the module of a stage is called. *)
Definition files_before (stage : StageName) : nat :=
  match stage with
  | Acquisition => 0
  | Preprocessing => 1
  | Segmentation => 2
  | Classification => 3
  | Counting | Analytics => 4
  | Export => 5
  end.

(** A run that ended with the exception [e]: nothing was logged as failed;
    [e] is a missing key, or it was raised between two module calls by a
    read of a value or by the visualizer, or it is what the last module
    called raised, and then the files written are those of the stages
    before. *)
Definition raised (e : Exn) (trace : list Event) : Prop :=
  logged_failures trace = [] /\ tidy trace
  /\ (is_key_error e
      \/ raised_between_calls e
      \/ exists stage,
           last (calls trace) = Some (stage, Threw e)
           /\ saves trace = take (files_before stage) vis_order).

(** A run that ended with [return None]: the last module called returned a
    status other than success, and that stage, and no other, was logged as
    failed, as the last thing the run did; the files written are those of the
    stages before. *)
Definition returned_none (trace : list Event) : Prop :=
  exists stage status,
    last trace = Some (LoggedFailure stage)
    /\ last (calls trace) = Some (stage, ReturnedStatus (Some status))
    /\ is_success status = false
    /\ logged_failures trace = [stage]
    /\ saves trace = take (files_before stage) vis_order
    /\ tidy trace.

(** [triple P m Q]: started on a trace that satisfies [P], the computation
    [m] gives a value [a] and a trace that satisfies [Q a], or returns [None]
    on a trace that satisfies [returned_none], or raises [e] on a trace that
    satisfies [raised e]. *)
Definition triple {A : Type} (P : list Event -> Prop) (m : Sim A)
    (Q : A -> list Event -> Prop) : Prop :=
  forall trace, P trace ->
    match m trace with
    | (Value a, trace') => Q a trace'
    | (ReturnNone, trace') => returned_none trace'
    | (Exception e, trace') => raised e trace'
    end.

Lemma triple_bind {A B : Type} (P : list Event -> Prop) (m : Sim A)
    (Q : A -> list Event -> Prop) (k : A -> Sim B)
    (R : B -> list Event -> Prop) :
  triple P m Q -> (forall a, triple (Q a) (k a) R) -> triple P (m ≫= k) R.
Proof.
  intros Hm Hk trace HP. specialize (Hm trace HP).
  unfold mbind, sim_mbind, sim_bind.
  destruct (m trace) as [[a| |e] trace']; try done.
  by apply Hk.
Qed.

Lemma triple_ret {A : Type} (P : list Event -> Prop) (a : A) :
  triple P (mret a) (fun _ => P).
Proof. by intros trace HP. Qed.

Lemma saves_app (t1 t2 : list Event) : saves (t1 ++ t2) = saves t1 ++ saves t2.
Proof. apply omap_app. Qed.

Lemma logged_failures_app (t1 t2 : list Event) :
  logged_failures (t1 ++ t2) = logged_failures t1 ++ logged_failures t2.
Proof. apply omap_app. Qed.

Lemma good_successful_calls (n : nat) (trace : list Event) :
  good n trace -> successful_calls trace = n /\ n <= 7.
Proof.
  intros (Hmap & Hlen & Hall). split.
  - unfold successful_calls. rewrite <- Hlen. clear Hmap Hlen.
    induction Hall as [|c cs Hc Hall IH]; [done|].
    rewrite filter_cons_True by done. simpl. by rewrite IH.
  - apply (f_equal length) in Hmap.
    rewrite length_map, Hlen, length_take in Hmap.
    change (length stage_order) with 7 in Hmap. lia.
Qed.

Lemma progress_tidy (n k : nat) (trace : list Event) :
  progress n k trace -> tidy trace.
Proof.
  intros (Hgood & Hsaves & Hk & _).
  destruct (good_successful_calls n trace Hgood) as [Hn H7].
  assert (Hlen : length (saves trace) = k).
  { rewrite Hsaves, length_take. change (length vis_order) with 7. lia. }
  split; [by rewrite Hlen|]. rewrite Hlen, Hn. done.
Qed.

(** A call that did not succeed, and what is logged after it, leaves the
    files as they were. *)
Lemma tidy_failed_call (n k : nat) (trace extra : list Event)
    (stage : StageName) (o : CallOutcome) :
  progress n k trace -> succeeded o = false ->
  calls extra = [] -> saves extra = [] ->
  tidy (trace ++ [Called stage o] ++ extra).
Proof.
  intros Hp Ho Hcalls Hsaves.
  destruct (progress_tidy n k trace Hp) as [Hprefix Hle].
  unfold tidy, successful_calls.
  rewrite !saves_app, !calls_app, Hcalls, Hsaves, filter_app.
  change (saves [Called stage o]) with (@nil VisKind).
  change (calls [Called stage o]) with [(stage, o)].
  rewrite !app_nil_r, filter_cons_False by (simpl; congruence).
  rewrite filter_nil, app_nil_r. done.
Qed.

Lemma last_calls_snoc (trace extra : list Event) (stage : StageName)
    (o : CallOutcome) :
  calls extra = [] ->
  last (calls (trace ++ [Called stage o] ++ extra)) = Some (stage, o).
Proof.
  intros Hcalls. rewrite !calls_app, Hcalls, app_nil_r.
  change (calls [Called stage o]) with [(stage, o)]. apply last_snoc.
Qed.

Lemma triple_getitem {A : Type} (n k : nat) (key : string) (o : option A) :
  triple (progress n k) (lift (getitem key o)) (fun _ => progress n k).
Proof.
  intros trace Hp. destruct o as [a|]; simpl; [done|].
  split; [by destruct Hp as (_ & _ & _ & ?)|].
  split; [by eapply progress_tidy|]. left. by eexists.
Qed.

Lemma triple_config_section (n k : nat) (manager : PipelineManager)
    (name : string) :
  triple (progress n k) (config_section manager name) (fun _ => progress n k).
Proof. apply triple_getitem. Qed.

Lemma class_distribution_raises (predictions : list Prediction) (e : Exn) :
  class_distribution predictions = Raised e -> is_key_error e.
Proof.
  induction predictions as [|pred rest IH]; [done|]. simpl.
  destruct (class_name pred) as [name|]; simpl; [exact IH|].
  intros [= <-]. by eexists.
Qed.

Lemma triple_class_distribution (n k : nat) (predictions : list Prediction) :
  triple (progress n k) (lift (class_distribution predictions))
    (fun _ => progress n k).
Proof.
  intros trace Hp. unfold lift.
  destruct (class_distribution predictions) as [e|[]] eqn:Hc; [|done].
  split; [by destruct Hp as (_ & _ & _ & ?)|].
  split; [by eapply progress_tidy|]. left. by eapply class_distribution_raises.
Qed.

(** A read between two module calls that can raise. *)
Lemma triple_between_calls {A : Type} (n k : nat) (x : Exc A) :
  (forall e, x = Raised e -> raised_between_calls e) ->
  triple (progress n k) (lift x) (fun _ => progress n k).
Proof.
  intros Hx trace Hp. unfold lift.
  destruct x as [e|a]; [|done].
  split; [by destruct Hp as (_ & _ & _ & ?)|].
  split; [by eapply progress_tidy|]. right. left. by apply Hx.
Qed.

Lemma triple_image_shape (n k : nat) (image : Image) :
  triple (progress n k) (lift (image_shape image)) (fun _ => progress n k).
Proof. apply triple_between_calls. intros e He. left. by exists image. Qed.

Lemma triple_len_masks (n k : nat) (masks : Masks) :
  triple (progress n k) (lift (len_masks masks)) (fun _ => progress n k).
Proof.
  apply triple_between_calls. intros e He. right. left. by exists masks.
Qed.

Lemma triple_len_alerts (n k : nat) (alerts : Alerts) :
  triple (progress n k) (lift (len_alerts alerts)) (fun _ => progress n k).
Proof.
  apply triple_between_calls. intros e He. right. right. left. by exists alerts.
Qed.

Lemma triple_save (n k : nat) (kind : VisKind) :
  vis_order !! k = Some kind -> S k <= n ->
  triple (progress n k) (save kind) (fun _ => progress n (S k)).
Proof.
  intros Hkind Hk trace Hp.
  pose proof Hp as (Hgood & Hsaves & _ & Hfail).
  unfold save, lift, emit, mbind, sim_mbind, sim_bind.
  destruct (visualizer kind) as [e|path] eqn:Hvis; simpl.
  { split; [done|]. split; [by eapply progress_tidy|].
    right. left. right. right. right. by exists kind. }
  split; [by apply good_silent|]. split; [|split; [done|]].
  - rewrite saves_app, Hsaves, (take_S_r _ _ _ Hkind). done.
  - by rewrite logged_failures_app, Hfail.
Qed.

(** A module call followed by the test of its status. *)
Lemma triple_call_check {R A : Type} (n k : nat) (stage : StageName)
    (status_of : R -> option string) (result : Exc R) (body : R -> Sim A)
    (Q : A -> list Event -> Prop) :
  stage_order !! n = Some stage -> files_before stage = k ->
  (forall r, triple (progress (S n) k) (body r) Q) ->
  triple (progress n k)
    (r ← call stage status_of result;
     _ ← check_status stage (status_of r);
     body r)
    Q.
Proof.
  intros Hst Hfiles Hbody trace Hp.
  pose proof Hp as (Hgood & Hsaves & Hk & Hfail).
  unfold mbind, sim_mbind, sim_bind, call, check_status, lift, emit,
    return_none, mbind, sim_mbind, sim_bind.
  destruct result as [e|r].
  { (* the module raised *)
    split; [by rewrite logged_failures_app, Hfail|]. split.
    - rewrite <- (app_nil_r [Called stage (Threw e)]).
      by eapply tidy_failed_call.
    - right. right. exists stage. split.
      + rewrite <- (app_nil_r [Called stage (Threw e)]).
        by apply last_calls_snoc.
      + by rewrite saves_app, app_nil_r, Hfiles. }
  destruct (status_of r) as [status|] eqn:Hstatus; simpl.
  2:{ (* no status in the result *)
    split; [by rewrite logged_failures_app, Hfail|]. split.
    - rewrite <- (app_nil_r [Called stage (ReturnedStatus None)]).
      by eapply tidy_failed_call.
    - left. by eexists. }
  destruct (is_success status) eqn:Hok; simpl.
  - (* success *)
    apply Hbody. split; [by eapply good_call|].
    split; [by rewrite saves_app, app_nil_r|]. split; [lia|].
    by rewrite logged_failures_app, Hfail.
  - (* another status *)
    exists stage, status. rewrite <- app_assoc.
    split; [by rewrite app_assoc, last_snoc|].
    split; [by apply last_calls_snoc|]. split; [done|]. split.
    + by rewrite !logged_failures_app, Hfail.
    + split; [by rewrite !saves_app, !app_nil_r, Hfiles|].
      eapply tidy_failed_call; [done| |done..]. simpl. by rewrite Hok.
Qed.

Ltac triple_step :=
  first
    [ eapply triple_call_check; [reflexivity|reflexivity|intros ?]
    | eapply triple_bind; [apply triple_getitem|intros ?]
    | eapply triple_bind; [apply triple_class_distribution|intros ?]
    | eapply triple_bind; [apply triple_image_shape|intros ?]
    | eapply triple_bind; [apply triple_len_masks|intros ?]
    | eapply triple_bind; [apply triple_len_alerts|intros ?]
    | eapply triple_bind; [apply triple_save; [reflexivity|lia]|intros ?]
    | eapply triple_bind; [apply triple_config_section|intros ?] ].

Lemma simulate_single_sample_triple (manager : PipelineManager)
    (magn : Q) (exposure : Z) :
  triple (progress 0 0) (simulate_single_sample manager magn exposure)
    (fun _ => progress 7 7).
Proof.
  unfold simulate_single_sample.
  repeat triple_step.
  apply (triple_ret (progress 7 7)).
Qed.

Lemma progress_nil : progress 0 0 [].
Proof. split; [apply good_nil|]. by repeat split. Qed.

(** A run that returns a result has called each of the seven modules once,
    in the fixed order, each with success; it has written all seven files, in
    their order; and it has logged no failure. *)
Theorem complete_run_leaves_every_file (manager : PipelineManager)
    (magn : Q) (exposure : Z) (v : SampleResult) (trace : list Event) :
  simulate_single_sample manager magn exposure [] = (Value v, trace) ->
  map fst (calls trace) = stage_order
  /\ Forall (fun c => succeeded c.2 = true) (calls trace)
  /\ saves trace = vis_order
  /\ logged_failures trace = [].
Proof.
  intros Hrun.
  pose proof (simulate_single_sample_triple manager magn exposure []
                progress_nil) as Hend.
  rewrite Hrun in Hend.
  destruct Hend as ((Hmap & _ & Hall) & Hsaves & _ & Hfail).
  by repeat split.
Qed.

(** How a run without a result ends.  A run that returns [None] was stopped
    by a module that returned a status other than success: the failure of that
    stage, and of no other, is logged, as the last thing the run does, and
    the files written are exactly those of the stages before it.  A run that
    raises logs no failure: the exception is a missing key (of a result, of
    the configuration or of the diversity indices), or one raised between two
    module calls by [image.shape], [len(masks)], [len(bloom_alerts)] or the
    visualizer, or it is the one the last module called raised, and then
    again the files written are those of the stages before it.  In every case
    the files are written in their fixed order, and no more of them than
    modules have succeeded. *)
Theorem run_without_result_report (manager : PipelineManager)
    (magn : Q) (exposure : Z) :
  let result := simulate_single_sample manager magn exposure [] in
  tidy result.2
  /\ match result.1 with
     | Value _ => logged_failures result.2 = []
     | ReturnNone =>
         exists stage status,
           last result.2 = Some (LoggedFailure stage)
           /\ last (calls result.2) = Some (stage, ReturnedStatus (Some status))
           /\ is_success status = false
           /\ logged_failures result.2 = [stage]
           /\ saves result.2 = take (files_before stage) vis_order
     | Exception e =>
         logged_failures result.2 = []
         /\ (is_key_error e
             \/ raised_between_calls e
             \/ exists stage,
                  last (calls result.2) = Some (stage, Threw e)
                  /\ saves result.2 = take (files_before stage) vis_order)
     end.
Proof.
  intros result.
  pose proof (simulate_single_sample_triple manager magn exposure []
                progress_nil) as Hend.
  fold result in Hend.
  destruct result as [[v| |e] trace]; simpl in *.
  - split; [by eapply progress_tidy|]. by destruct Hend as (_ & _ & _ & ?).
  - destruct Hend
      as (stage & status & Hlast & Hcall & Hok & Hfail & Hsaves & Htidy).
    split; [done|]. by exists stage, status.
  - by destruct Hend as (Hfail & Htidy & Hwhy).
Qed.

End Pipeline.

Arguments simulate_single_sample {Image Metadata Stats Masks Boxes Centroids
  Areas Counts Organisms Diversity Alerts ModelMetadata ConfigSection Path}
  image_shape len_masks len_alerts diversity_entry visualizer capture_id
  manager magn exposure _.

(** *** Runs on test doubles

    The diversity indices are a dictionary of numbers; the segmentation
    module returns the given status, the analytics module the given
    indices. *)

Definition modules_with (segmentation_status : string)
    (indices : gmap string Q)
  : Modules unit unit unit unit unit unit unit unit unit (gmap string Q)
      unit unit unit string :=
  {| acquisition := fun _ =>
       Returned {| acq_status := Some "success"; acq_image := Some tt;
                   acq_metadata := Some tt |};
     preprocessing := fun _ _ =>
       Returned {| prep_status := Some "success";
                   prep_processed_image := Some tt;
                   prep_preprocessing_stats := Some tt |};
     segmentation := fun _ _ =>
       Returned {| seg_status := Some segmentation_status;
                   seg_masks := Some tt;
                   seg_bounding_boxes := Some tt; seg_centroids := Some tt;
                   seg_areas_px := Some tt; seg_algorithm := None |};
     classification := fun _ _ _ _ =>
       Returned {| class_status := Some "success";
                   class_predictions :=
                     Some [{| class_name := Some "copepod" |}];
                   class_model_metadata := None |};
     counting := fun _ _ _ _ _ _ _ =>
       Returned {| count_status := Some "success";
                   count_counts_by_class := Some tt;
                   count_organisms := Some tt;
                   count_total_count := Some 1 |};
     analytics := fun _ _ _ _ =>
       Returned {| analytics_status := Some "success";
                   analytics_diversity_indices := Some indices;
                   analytics_bloom_alerts := Some tt |};
     export := fun _ _ _ _ _ _ =>
       Returned {| export_status := Some "success";
                   export_exported_files := Some ["results/summary.csv"] |} |}.

Definition manager_with (segmentation_status : string)
    (indices : gmap string Q)
  : PipelineManager unit unit unit unit unit unit unit unit unit
      (gmap string Q) unit unit unit string :=
  {| modules := modules_with segmentation_status indices;
     config := list_to_map
                 [("preprocessing", tt); ("segmentation", tt);
                  ("classification", tt); ("counting", tt);
                  ("analytics", tt); ("export", tt)] |}.

Definition both_indices : gmap string Q :=
  {[ "shannon" := 1%Q; "species_richness" := 1%Q ]}.

(** Segmentation reports an error. *)
Definition test_manager := manager_with "error" both_indices.

(** Every module succeeds. *)
Definition healthy_manager := manager_with "success" both_indices.

(** Every module succeeds, but the analytics module returns diversity
    indices without the Shannon index. *)
Definition manager_without_shannon :=
  manager_with "success" {[ "species_richness" := 1%Q ]}.

(** [diversity_indices[key]] on a dictionary. *)
Definition lookup_index (indices : gmap string Q) (key : string) : option Q :=
  indices !! key.

(** A run in which nothing raises between the module calls. *)
Definition test_simulation
    (manager : PipelineManager unit unit unit unit unit unit unit unit unit
                 (gmap string Q) unit unit unit string) :=
  simulate_single_sample
    (fun _ => Returned tt) (fun _ => Returned 1%nat) (fun _ => Returned 0%nat)
    lookup_index
    (fun _ => Returned "results/simulation/image.png")
    (fun _ => Some "sample_1") manager 2.5%Q 150%Z [].

Example segmentation_error_stops_run :
  test_simulation test_manager
  = (ReturnNone,
     [Called Acquisition (ReturnedStatus (Some "success"));
      Saved VisOriginal;
      Called Preprocessing (ReturnedStatus (Some "success"));
      Saved VisPreprocessed;
      Called Segmentation (ReturnedStatus (Some "error"));
      LoggedFailure Segmentation]).
Proof. vm_compute. reflexivity. Qed.

Lemma complete_run_leaves_every_file_witness :
  exists v trace,
    test_simulation healthy_manager = (Value v, trace)
    /\ map fst (calls trace) = stage_order
    /\ saves trace = vis_order
    /\ logged_failures trace = [].
Proof.
  eexists _, _. split; [vm_compute; reflexivity|].
  destruct (complete_run_leaves_every_file
              unit unit unit unit unit unit unit unit unit (gmap string Q)
              unit unit unit string
              (fun _ => Returned tt) (fun _ => Returned 1%nat)
              (fun _ => Returned 0%nat)
              lookup_index
              (fun _ => Returned "results/simulation/image.png")
              (fun _ => Some "sample_1") healthy_manager 2.5%Q 150%Z _ _
              ltac:(vm_compute; reflexivity))
    as (Hcalls & _ & Hsaves & Hfail).
  split; [exact Hcalls|]. split; [exact Hsaves | exact Hfail].
Defined.

(** The run in which segmentation reports an error: the failure is logged
    once, and the two files of the stages before are there. *)
Example segmentation_error_report :
  let result := test_simulation test_manager in
  result.1 = ReturnNone
  /\ logged_failures result.2 = [Segmentation]
  /\ saves result.2 = [VisOriginal; VisPreprocessed].
Proof. vm_compute. done. Qed.

(** The run in which the diversity indices lack the Shannon index: the read
    for the log raises [KeyError] after the analytics call, so the final
    analysis is not saved and the export module is not called. *)
Example missing_shannon_index_raises :
  let result := test_simulation manager_without_shannon in
  result.1 = Exception (KeyError "shannon")
  /\ map fst (calls result.2)
     = [Acquisition; Preprocessing; Segmentation; Classification; Counting;
        Analytics]
  /\ saves result.2
     = [VisOriginal; VisPreprocessed; VisSegmentation; VisClassification]
  /\ logged_failures result.2 = [].
Proof. vm_compute. done. Qed.

End Simulate.

(** ** batch_process.py

    Floating-point numbers are modelled as rationals: sums and quotients are
    exact. *)

Module Batch.

Local Open Scope Q_scope.

(** [str(e)]: the message; for a [KeyError] the key in quotes. *)
Definition exn_message (e : Exn) : string :=
  match e with
  | KeyError key => String.append "'" (String.append key "'")
  | TypeError msg | ValueError msg | RuntimeError msg => msg
  end.

(** The dictionary [execute_pipeline] returns, as far as the batch script
    reads it.  An absent key is [None]. *)
Record BloomAlert : Type := {
  species : option string;
  dominance : option Q
}.

Record ResultSummary : Type := {
  total_organisms : option Z;
  counts_by_class : option (gmap string Z);
  shannon_diversity : option Q;
  species_richness : option Z;
  capture_id : option string
}.

Record DetailedResults : Type := {
  diversity : option (gmap string Q);
  bloom_alerts : option (list BloomAlert)
}.

Record PipelineResult : Type := {
  status : option string;
  error_message : option string;
  summary : option ResultSummary;
  detailed_results : option DetailedResults
}.

(** [d.get(key, fallback)] with [d] itself obtained by [get(..., {})]. *)
Definition empty_summary : ResultSummary :=
  {| total_organisms := None; counts_by_class := None;
     shannon_diversity := None; species_richness := None;
     capture_id := None |}.

Definition empty_detailed : DetailedResults :=
  {| diversity := None; bloom_alerts := None |}.

(** [results.get('status') != 'success']. *)
Definition status_is_success (status : option string) : bool :=
  match status with
  | Some s => is_success s
  | None => false
  end.

(** The truth value of [error] in [if error:]. *)
Definition truthy (error : option string) : bool :=
  match error with
  | Some msg => negb (String.eqb msg "")
  | None => false
  end.

Section Run.

(** [pipeline.execute_pipeline] on the acquisition parameters built for an
    image file. *)
Variable execute_pipeline : string -> Exc PipelineResult.

Definition process_single_image (image_name : string)
  : option PipelineResult * option string :=
  match execute_pipeline image_name with
  | Returned results =>
      if negb (status_is_success (status results)) then
        (None,
         Some (String.append "Pipeline failed: "
                 (default "Unknown error" (error_message results))))
      else (Some results, None)
  | Raised e =>
      (None,
       Some (String.append "Error processing "
               (String.append image_name
                  (String.append ": " (exn_message e)))))
  end.

End Run.

(** *** [summarize_results] *)

Record BloomRecord : Type := {
  bloom_image : string;
  bloom_species : string;
  bloom_dominance : Q
}.

Record BatchSummary : Type := {
  total_images : nat;
  sum_total_organisms : Z;
  species_detected : gset string;
  species_counts : gmap string Z;
  average_diversity : gmap string Q;
  blooms_detected : list BloomRecord
}.

(** The running state of the loop of [summarize_results]. *)
Record Accumulator : Type := {
  acc_total_organisms : Z;
  acc_species_detected : gset string;
  acc_species_counts : gmap string Z;
  shannon_sum : Q;
  simpson_sum : Q;
  acc_blooms : list BloomRecord
}.

Definition initial : Accumulator :=
  {| acc_total_organisms := 0%Z; acc_species_detected := ∅;
     acc_species_counts := ∅; shannon_sum := 0; simpson_sum := 0;
     acc_blooms := [] |}.

(** The loop over [class_counts.items()]: it adds every count to the entry
    of its species. *)
Definition add_count (sp : string) (count : Z) (counts : gmap string Z)
  : gmap string Z :=
  <[sp := (default 0%Z (counts !! sp) + count)%Z]> counts.

Definition merge_counts (counts class_counts : gmap string Z) : gmap string Z :=
  map_fold add_count counts class_counts.

Definition bloom_record (image : string) (bloom : BloomAlert) : BloomRecord :=
  {| bloom_image := image;
     bloom_species := default "Unknown" (species bloom);
     bloom_dominance := default 0 (dominance bloom) |}.

(** The body of the loop for a result whose status is success. *)
Definition accumulate (result : PipelineResult) (acc : Accumulator) : Accumulator :=
  let result_summary := default empty_summary (summary result) in
  let detailed := default empty_detailed (detailed_results result) in
  let class_counts := default ∅ (counts_by_class result_summary) in
  {| acc_total_organisms :=
       (acc_total_organisms acc + default 0%Z (total_organisms result_summary))%Z;
     acc_species_detected := acc_species_detected acc ∪ dom class_counts;
     acc_species_counts := merge_counts (acc_species_counts acc) class_counts;
     shannon_sum := shannon_sum acc + default 0 (shannon_diversity result_summary);
     simpson_sum :=
       simpson_sum acc + default 0 (default ∅ (diversity detailed) !! "simpson");
     acc_blooms :=
       acc_blooms acc
       ++ map (bloom_record (default "Unknown" (capture_id result_summary)))
              (default [] (bloom_alerts detailed)) |}.

(** The loop: [result['status']] raises on [None] and on a dictionary
    without a status; a status other than success skips the result. *)
Fixpoint summarize_loop (all_results : list (option PipelineResult))
    (acc : Accumulator) : Exc Accumulator :=
  match all_results with
  | [] => Returned acc
  | None :: _ => Raised (TypeError "'NoneType' object is not subscriptable")
  | Some result :: rest =>
      st ← getitem "status" (status result);
      if negb (is_success st) then summarize_loop rest acc
      else summarize_loop rest (accumulate result acc)
  end.

Definition summarize_results (all_results : list (option PipelineResult))
  : Exc BatchSummary :=
  acc ← summarize_loop all_results initial;
  let n := length all_results in
  let q := inject_Z (Z.of_nat n) in
  Returned
    {| total_images := n;
       sum_total_organisms := acc_total_organisms acc;
       species_detected := acc_species_detected acc;
       species_counts := acc_species_counts acc;
       average_diversity :=
         if (0 <? n)%nat
         then {[ "shannon" := shannon_sum acc / q;
                 "simpson" := simpson_sum acc / q ]}
         else {[ "shannon" := 0; "simpson" := 0 ]};
       blooms_detected := acc_blooms acc |}.

(** *** [main] *)

Record FailedImage : Type := {
  failed_file : string;
  failed_error : option string
}.

(** How [main] ends: [sys.exit(code)], an exception that nothing catches,
    or the end of the function. *)
Inductive Outcome : Type :=
| SysExit (code : Z)
| Uncaught (e : Exn)
| Completed (all_results : list (option PipelineResult))
            (failed_images : list FailedImage)
            (batch_summary : BatchSummary).

(** The exit code of the process: a script that reaches its end exits with
    0, an uncaught exception gives 1. *)
Definition exit_code (o : Outcome) : Z :=
  match o with
  | SysExit code => code
  | Uncaught _ => 1
  | Completed _ _ _ => 0
  end.

Section Main.

Variable execute_pipeline : string -> Exc PipelineResult.

(** The loop over the image files; [None] stands for [sys.exit(1)]. *)
Fixpoint process_images (continue_on_error : bool) (image_files : list string)
    (all_results : list (option PipelineResult))
    (failed_images : list FailedImage)
  : option (list (option PipelineResult) * list FailedImage) :=
  match image_files with
  | [] => Some (all_results, failed_images)
  | image :: rest =>
      let '(result, error) := process_single_image execute_pipeline image in
      if truthy error then
        let failed_images :=
          failed_images ++ [{| failed_file := image; failed_error := error |}] in
        if negb continue_on_error then None
        else process_images continue_on_error rest all_results failed_images
      else
        process_images continue_on_error rest (all_results ++ [result])
          failed_images
  end.

(** [main]: [input_dir_exists] and [image_files] stand for what the file
    system answers to [input_dir.exists()] and [find_images(input_dir)].
    Loading the configuration, building the pipeline and writing the report
    files are taken to raise nothing. *)
Definition main (input_dir_exists : bool) (image_files : list string)
    (continue_on_error : bool) : Outcome :=
  if negb input_dir_exists then SysExit 1
  else match image_files with
       | [] => SysExit 1
       | _ :: _ =>
           match process_images continue_on_error image_files [] [] with
           | None => SysExit 1
           | Some (all_results, failed_images) =>
               match summarize_results all_results with
               | Returned s => Completed all_results failed_images s
               | Raised e => Uncaught e
               end
           end
       end.

(** An image succeeds when the pipeline returns a result with the status
    success. *)
Definition succeeds (image : string) : bool :=
  match execute_pipeline image with
  | Returned results => status_is_success (status results)
  | Raised _ => false
  end.

Definition successes (image_files : list string) : list string :=
  List.filter succeeds image_files.

Definition failures (image_files : list string) : list string :=
  List.filter (fun image => negb (succeeds image)) image_files.

(** The pipeline results of the images that succeed, in the order of the
    files, and the records of those that fail. *)
Definition successful_result (image : string) : option PipelineResult :=
  match execute_pipeline image with
  | Returned results =>
      if status_is_success (status results) then Some results else None
  | Raised _ => None
  end.

Definition successful_results (image_files : list string) : list PipelineResult :=
  omap successful_result image_files.

Definition failed_record (image : string) : option FailedImage :=
  if succeeds image then None
  else Some {| failed_file := image;
               failed_error := (process_single_image execute_pipeline image).2 |}.

Definition failed_records (image_files : list string) : list FailedImage :=
  omap failed_record image_files.

(** *** Facts about [process_single_image] and the loop of [main] *)

Lemma process_single_image_succeeds (image : string) :
  succeeds image = true ->
  exists results,
    successful_result image = Some results
    /\ status_is_success (status results) = true
    /\ process_single_image execute_pipeline image = (Some results, None).
Proof.
  unfold succeeds, successful_result, process_single_image.
  destruct (execute_pipeline image) as [e|results]; [done|].
  intros Hs. rewrite Hs. by exists results.
Qed.

Lemma process_single_image_fails (image : string) :
  succeeds image = false ->
  successful_result image = None
  /\ exists msg,
       process_single_image execute_pipeline image = (None, Some msg)
       /\ truthy (Some msg) = true.
Proof.
  unfold succeeds, successful_result, process_single_image.
  destruct (execute_pipeline image) as [e|results].
  - intros _. split; [done|]. by eexists.
  - intros ->. split; [done|]. by eexists.
Qed.

Lemma process_images_spec (continue_on_error : bool) (image_files : list string)
    (all_results : list (option PipelineResult)) (failed : list FailedImage) :
  process_images continue_on_error image_files all_results failed
  = if continue_on_error || forallb succeeds image_files
    then Some (all_results ++ map Some (successful_results image_files),
               failed ++ failed_records image_files)
    else None.
Proof.
  revert all_results failed.
  induction image_files as [|image rest IH]; intros all_results failed.
  - simpl. rewrite orb_true_r. by rewrite !app_nil_r.
  - simpl. unfold successful_results, failed_records. simpl.
    unfold failed_record at 1.
    destruct (succeeds image) eqn:Hs.
    + destruct (process_single_image_succeeds image Hs)
        as (results & -> & _ & ->).
      simpl. rewrite IH. simpl.
      destruct (continue_on_error || forallb succeeds rest); [|done].
      by rewrite <- app_assoc.
    + destruct (process_single_image_fails image Hs)
        as (-> & msg & Hp & Ht).
      rewrite Hp. rewrite Ht. simpl.
      destruct continue_on_error; simpl; [|done].
      rewrite IH. simpl. by rewrite <- app_assoc.
Qed.

Lemma successful_results_status (image_files : list string) :
  Forall (fun r => status_is_success (status r) = true)
    (successful_results image_files).
Proof.
  induction image_files as [|image rest IH]; [constructor|].
  unfold successful_results in *. simpl.
  unfold successful_result at 1.
  destruct (execute_pipeline image) as [e|results]; [done|].
  destruct (status_is_success (status results)) eqn:Hs; [|done].
  by constructor.
Qed.

Lemma successes_length (image_files : list string) :
  length (successful_results image_files) = length (successes image_files).
Proof.
  induction image_files as [|image rest IH]; [done|].
  unfold successful_results, successes in *. simpl.
  unfold successful_result at 1, succeeds at 1.
  destruct (execute_pipeline image) as [e|results]; [done|].
  destruct (status_is_success (status results)); simpl;
    first [exact IH | f_equal; exact IH].
Qed.

Lemma failures_nil_forallb (image_files : list string) :
  failures image_files = [] <-> forallb succeeds image_files = true.
Proof.
  induction image_files as [|image rest IH]; [done|].
  unfold failures in *. simpl.
  destruct (succeeds image); simpl; [done|]. split; done.
Qed.

End Main.

(** *** Facts about [summarize_results] *)

Definition accumulate_all (results : list PipelineResult) (acc : Accumulator)
  : Accumulator :=
  foldl (fun acc r => accumulate r acc) acc results.

Lemma summarize_loop_successes (results : list PipelineResult) (acc : Accumulator) :
  Forall (fun r => status_is_success (status r) = true) results ->
  summarize_loop (map Some results) acc = Returned (accumulate_all results acc).
Proof.
  revert acc. induction results as [|r rest IH]; intros acc Hall; [done|].
  inversion Hall as [|? ? Hr Hrest]; subst. simpl.
  unfold status_is_success in Hr.
  destruct (status r) as [st|]; [|done]. simpl.
  rewrite Hr. simpl. by apply IH.
Qed.

Lemma summarize_results_successes (results : list PipelineResult) :
  Forall (fun r => status_is_success (status r) = true) results ->
  exists s, summarize_results (map Some results) = Returned s
            /\ total_images s = length results
            /\ species_counts s = acc_species_counts (accumulate_all results initial)
            /\ average_diversity s
               = if (0 <? length results)%nat
                 then {[ "shannon" :=
                           shannon_sum (accumulate_all results initial)
                           / inject_Z (Z.of_nat (length results));
                         "simpson" :=
                           simpson_sum (accumulate_all results initial)
                           / inject_Z (Z.of_nat (length results)) ]}
                 else {[ "shannon" := 0; "simpson" := 0 ]}.
Proof.
  intros Hall. unfold summarize_results.
  rewrite (summarize_loop_successes _ _ Hall). simpl.
  rewrite length_map. by eexists.
Qed.

(** What the summary is compared with: sums and means over a list of
    samples. *)
Definition Qsum (l : list Q) : Q := foldr Qplus 0 l.

Definition Zsum (l : list Z) : Z := foldr Z.add 0%Z l.

Definition mean (l : list Q) : Q := Qsum l / inject_Z (Z.of_nat (length l)).

(** The values [summarize_results] reads off one sample. *)
Definition shannon_of (r : PipelineResult) : Q :=
  default 0 (shannon_diversity (default empty_summary (summary r))).

Definition simpson_of (r : PipelineResult) : Q :=
  default 0
    (default ∅ (diversity (default empty_detailed (detailed_results r)))
     !! "simpson").

Definition richness_of (r : PipelineResult) : Z :=
  default 0%Z (species_richness (default empty_summary (summary r))).

Definition count_of (sp : string) (r : PipelineResult) : Z :=
  default 0%Z
    (default ∅ (counts_by_class (default empty_summary (summary r))) !! sp).

Lemma merge_counts_lookup (counts class_counts : gmap string Z) (sp : string) :
  default 0%Z (merge_counts counts class_counts !! sp)
  = (default 0%Z (counts !! sp) + default 0%Z (class_counts !! sp))%Z.
Proof.
  unfold merge_counts.
  apply (map_fold_weak_ind
           (fun (r : gmap string Z) (m : gmap string Z) =>
              default 0%Z (r !! sp)
              = (default 0%Z (counts !! sp) + default 0%Z (m !! sp))%Z)).
  - rewrite lookup_empty. simpl. lia.
  - intros i x m r Hnone IH. unfold add_count.
    destruct (decide (i = sp)) as [->|Hne].
    + rewrite !lookup_insert_eq. simpl. rewrite IH, Hnone. simpl. lia.
    + by rewrite !lookup_insert_ne.
Qed.

Lemma accumulate_all_counts (results : list PipelineResult) (acc : Accumulator)
    (sp : string) :
  default 0%Z (acc_species_counts (accumulate_all results acc) !! sp)
  = (default 0%Z (acc_species_counts acc !! sp)
     + Zsum (map (count_of sp) results))%Z.
Proof.
  revert acc. induction results as [|r rest IH]; intros acc; simpl.
  - lia.
  - unfold accumulate_all in *. simpl. rewrite IH. simpl.
    rewrite merge_counts_lookup. unfold count_of. lia.
Qed.

Lemma accumulate_all_sums (results : list PipelineResult) (acc : Accumulator) :
  shannon_sum (accumulate_all results acc)
  == shannon_sum acc + Qsum (map shannon_of results)
  /\ simpson_sum (accumulate_all results acc)
     == simpson_sum acc + Qsum (map simpson_of results).
Proof.
  revert acc. induction results as [|r rest IH]; intros acc; simpl.
  - split; ring.
  - unfold accumulate_all in *. simpl.
    destruct (IH (accumulate r acc)) as [Hsh Hsi].
    rewrite Hsh, Hsi. simpl. unfold shannon_of, simpson_of. split; ring.
Qed.

(** C6, as the code has it.  The exit code is 0 exactly when the input
    directory exists, holds at least one image, and either no image fails or
    continue-on-error is set; whether any image succeeds plays no part.  In
    every other case, among them a first failure without continue-on-error,
    the exit code is 1. *)
Theorem batch_exit_code (execute_pipeline : string -> Exc PipelineResult)
    (input_dir_exists : bool) (image_files : list string)
    (continue_on_error : bool) :
  let code :=
    exit_code (main execute_pipeline input_dir_exists image_files
                 continue_on_error) in
  (code = 0%Z <->
     input_dir_exists = true /\ image_files <> []
     /\ (failures execute_pipeline image_files = [] \/ continue_on_error = true))
  /\ (code = 0%Z \/ code = 1%Z).
Proof.
  intros code. subst code. unfold main.
  destruct input_dir_exists; simpl; [|split; [split; [done|by intros [? _]]|by right]].
  destruct image_files as [|image rest];
    [split; [split; [done|by intros (_ & ? & _)]|by right]|].
  set (image_files := image :: rest).
  rewrite process_images_spec, !app_nil_l.
  destruct (continue_on_error || forallb (succeeds execute_pipeline) image_files)
    eqn:Hgo.
  - destruct (summarize_results_successes _
                (successful_results_status execute_pipeline image_files))
      as (s & -> & _).
    cbn [exit_code]. split; [|by left]. split; [|done]. intros _.
    split; [done|]. split; [done|].
    apply orb_true_iff in Hgo as [->|Hall]; [by right|left].
    by apply failures_nil_forallb.
  - cbn [exit_code]. split; [|by right]. split; [done|].
    intros (_ & _ & [Hnone| ->]); [|done].
    apply failures_nil_forallb in Hnone. rewrite Hnone in Hgo.
    by rewrite orb_true_r in Hgo.
Qed.

(** A pipeline on which every image fails with an error status. *)
Definition failing_pipeline (image : string) : Exc PipelineResult :=
  Returned {| status := Some "error";
              error_message := Some "Segmentation found no organisms";
              summary := None;
              detailed_results := None |}.

(** C6 fails as stated: with continue-on-error a batch whose only image
    fails still exits with 0, although no sample succeeds. *)
Lemma batch_exit_code_counterexample :
  let code := exit_code (main failing_pipeline true ["a.jpg"] true) in
  let n_failed := length (failures failing_pipeline ["a.jpg"]) in
  let n_ok := length (successes failing_pipeline ["a.jpg"]) in
  code = 0%Z /\ n_failed = 1%nat /\ n_ok = 0%nat
  /\ ~ (code = 0%Z <-> n_failed = 0%nat \/ (true = true /\ (1 <= n_ok)%nat)).
Proof.
  vm_compute. split; [done|]. split; [done|]. split; [done|].
  intros [H _]. destruct (H eq_refl) as [?|[_ ?]]; [done|lia].
Qed.

(** C7, as the code has it.  When a batch run completes, the results handed
    to [summarize_results] are exactly those of the successful samples; the
    merged class counts are the sums of the counts of the successful samples;
    and the averaged diversity holds two entries, the arithmetic means of the
    Shannon and of the Simpson values of the successful samples (both 0 when
    no sample succeeded).  The summary averages nothing else: it has no mean
    species richness. *)
Theorem batch_summary_statistics
    (execute_pipeline : string -> Exc PipelineResult)
    (input_dir_exists : bool) (image_files : list string)
    (continue_on_error : bool)
    (all_results : list (option PipelineResult))
    (failed_images : list FailedImage) (s : BatchSummary) :
  main execute_pipeline input_dir_exists image_files continue_on_error
  = Completed all_results failed_images s ->
  let ok := successful_results execute_pipeline image_files in
  all_results = map Some ok
  /\ failed_images = failed_records execute_pipeline image_files
  /\ total_images s = length ok
  /\ (forall sp, default 0%Z (species_counts s !! sp)
                 = Zsum (map (count_of sp) ok))
  /\ (exists shannon simpson,
        average_diversity s
        = {[ "shannon" := shannon; "simpson" := simpson ]}
        /\ (ok <> [] -> shannon == mean (map shannon_of ok)
                        /\ simpson == mean (map simpson_of ok))
        /\ (ok = [] -> shannon = 0 /\ simpson = 0))
  /\ dom (average_diversity s) = {[ "shannon"; "simpson" ]}.
Proof.
  intros Hmain. unfold main in Hmain.
  destruct input_dir_exists; [|done]. simpl in Hmain.
  destruct image_files as [|image rest]; [done|].
  set (image_files := image :: rest) in *.
  rewrite process_images_spec, !app_nil_l in Hmain.
  destruct (continue_on_error || forallb (succeeds execute_pipeline) image_files);
    [|done].
  destruct (summarize_results_successes _
              (successful_results_status execute_pipeline image_files))
    as (s' & Hs & Htotal & Hcounts & Havg).
  rewrite Hs in Hmain.
  set (ok := successful_results execute_pipeline image_files) in *.
  simplify_eq. simpl.
  split; [done|]. split; [done|]. split; [done|]. split.
  - intros sp. rewrite Hcounts, accumulate_all_counts.
    simpl. rewrite lookup_empty. simpl. lia.
  - destruct (accumulate_all_sums ok initial) as [Hsh Hsi].
    simpl in Hsh, Hsi.
    rewrite Havg. destruct ok as [|r ok'] eqn:Hok.
    + simpl. split; [|set_solver].
      eexists _, _. split; [done|]. split; done.
    + change (0 <? length (r :: ok'))%nat with true. cbn iota.
      split; [|set_solver].
      eexists _, _. split; [done|]. split; [|done]. intros _.
      unfold mean. rewrite !length_map.
      rewrite Hsh, Hsi. split; by rewrite Qplus_0_l.
Qed.

(** A pipeline with one healthy and one failing image. *)
Definition mixed_pipeline (image : string) : Exc PipelineResult :=
  if String.eqb image "bad.jpg" then
    Returned {| status := Some "error";
                error_message := Some "Segmentation found no organisms";
                summary := None; detailed_results := None |}
  else
    Returned
      {| status := Some "success";
         error_message := None;
         summary :=
           Some {| total_organisms := Some 4%Z;
                   counts_by_class :=
                     Some {[ "copepod" := 2%Z; "diatom" := 1%Z;
                             "radiolarian" := 1%Z ]};
                   shannon_diversity := Some 1;
                   species_richness := Some 3%Z;
                   capture_id := Some image |};
         detailed_results :=
           Some {| diversity := Some {[ "simpson" := 1 # 2 ]};
                   bloom_alerts := Some [] |} |}.

(** C7 fails as stated: the batch of two healthy samples, each of species
    richness 3, completes with a summary whose averaged diversity has the
    entries for Shannon and Simpson only; no mean species richness is in
    it. *)
Lemma mean_richness_counterexample :
  exists all_results failed_images s,
    main mixed_pipeline true ["a.jpg"; "b.jpg"] true
    = Completed all_results failed_images s
    /\ map richness_of (successful_results mixed_pipeline ["a.jpg"; "b.jpg"])
       = [3%Z; 3%Z]
    /\ average_diversity s !! "species_richness" = None
    /\ average_diversity s !! "speciesRichness" = None
    /\ size (average_diversity s) = 2%nat.
Proof.
  eexists _, _, _. split; [vm_compute; reflexivity|].
  repeat split; vm_compute; reflexivity.
Qed.

Definition mixed_batch : list string := ["a.jpg"; "bad.jpg"; "b.jpg"].

Example mixed_batch_summary :
  exists all_results failed_images s,
    main mixed_pipeline true mixed_batch true
    = Completed all_results failed_images s
    /\ length failed_images = 1%nat
    /\ total_images s = 2%nat
    /\ species_counts s !! "copepod" = Some 4%Z
    /\ average_diversity s !! "shannon" = Some (2 / 2)
    /\ average_diversity s !! "simpson" = Some (((1 # 2) + (1 # 2)) / 2).
Proof.
  eexists _, _, _. split; [vm_compute; reflexivity|].
  repeat split; vm_compute; reflexivity.
Qed.

Lemma batch_summary_statistics_witness :
  match main mixed_pipeline true mixed_batch true with
  | Completed all_results failed_images s =>
      all_results = map Some (successful_results mixed_pipeline mixed_batch)
      /\ total_images s = length (successful_results mixed_pipeline mixed_batch)
      /\ dom (average_diversity s) = {[ "shannon"; "simpson" ]}
  | _ => False
  end.
Proof.
  pose proof (batch_summary_statistics mixed_pipeline true mixed_batch true)
    as Hstat.
  destruct (main mixed_pipeline true mixed_batch true)
    as [code|e|all_results failed_images s] eqn:Hmain.
  - vm_compute in Hmain. discriminate Hmain.
  - vm_compute in Hmain. discriminate Hmain.
  - destruct (Hstat all_results failed_images s eq_refl)
      as (Hall & _ & Htotal & _ & _ & Hdom).
    split; [exact Hall|]. split; [exact Htotal | exact Hdom].
Defined.

(** *** [summarize_results] on any list of results *)

(** What [summarize_results] can read: a result with a status. *)
Definition readable (o : option PipelineResult) : Prop :=
  exists r, o = Some r /\ status r <> None.

Definition organisms_of (r : PipelineResult) : Z :=
  default 0%Z (total_organisms (default empty_summary (summary r))).

(** The results whose status is success. *)
Definition with_success (results : list PipelineResult) : list PipelineResult :=
  filter (fun r => status_is_success (status r) = true) results.

Lemma summarize_loop_with_success (results : list PipelineResult)
    (acc : Accumulator) :
  Forall (fun r => status r <> None) results ->
  summarize_loop (map Some results) acc
  = Returned (accumulate_all (with_success results) acc).
Proof.
  revert acc. induction results as [|r rest IH]; intros acc Hall; [done|].
  inversion Hall as [|? ? Hr Hrest]; subst. simpl.
  unfold with_success.
  destruct (status r) as [st|] eqn:Hst; [|done]. simpl.
  destruct (is_success st) eqn:Hok; simpl.
  - rewrite filter_cons_True by (by rewrite Hst). by apply IH.
  - rewrite filter_cons_False by (rewrite Hst; simpl; congruence). by apply IH.
Qed.

Lemma accumulate_all_organisms (results : list PipelineResult) (acc : Accumulator) :
  acc_total_organisms (accumulate_all results acc)
  = (acc_total_organisms acc + Zsum (map organisms_of results))%Z.
Proof.
  revert acc. induction results as [|r rest IH]; intros acc; simpl.
  - lia.
  - unfold accumulate_all in *. simpl. rewrite IH. simpl.
    unfold organisms_of. lia.
Qed.

(** [summarize_results] on results of any status.  The totals, the class
    counts and the diversity sums take in the results with status success
    only; the number of images, and with it the divisor of the two averages,
    counts every result.  An empty list gives averages of zero: nothing is
    divided by zero. *)
Theorem summary_averages_over_all_results (results : list PipelineResult) :
  Forall (fun r => status r <> None) results ->
  let ok := with_success results in
  let n := inject_Z (Z.of_nat (length results)) in
  exists s,
    summarize_results (map Some results) = Returned s
    /\ total_images s = length results
    /\ sum_total_organisms s = Zsum (map organisms_of ok)
    /\ (forall sp, default 0%Z (species_counts s !! sp)
                   = Zsum (map (count_of sp) ok))
    /\ exists shannon simpson,
         average_diversity s = {[ "shannon" := shannon; "simpson" := simpson ]}
         /\ (results <> [] ->
             shannon == Qsum (map shannon_of ok) / n
             /\ simpson == Qsum (map simpson_of ok) / n)
         /\ (results = [] -> shannon = 0 /\ simpson = 0).
Proof.
  intros Hall ok n. unfold summarize_results.
  rewrite (summarize_loop_with_success _ _ Hall). fold ok. simpl.
  rewrite length_map. eexists. split; [done|]. simpl.
  split; [done|]. split; [by rewrite accumulate_all_organisms|]. split.
  - intros sp. rewrite accumulate_all_counts. simpl.
    rewrite lookup_empty. simpl. lia.
  - destruct (accumulate_all_sums ok initial) as [Hsh Hsi].
    simpl in Hsh, Hsi.
    destruct results as [|r rest].
    + eexists _, _. split; [done|]. by split.
    + change (0 <? length (r :: rest))%nat with true. cbn iota.
      eexists _, _. split; [done|]. split; [|done]. intros _.
      rewrite Hsh, Hsi. fold n. split; by rewrite Qplus_0_l.
Qed.

(** When [summarize_results] raises.  It returns a summary exactly when
    every entry of the list is a result with a status.  Otherwise the first
    entry that is not stops it: [None] with a [TypeError], a result without a
    status with a [KeyError]. *)
Theorem summarize_results_raises (all_results : list (option PipelineResult)) :
  match summarize_results all_results with
  | Returned s => Forall readable all_results
  | Raised e =>
      exists before o after,
        all_results = before ++ o :: after
        /\ Forall readable before
        /\ match o with
           | None => e = TypeError "'NoneType' object is not subscriptable"
           | Some r => status r = None /\ e = KeyError "status"
           end
  end.
Proof.
  unfold summarize_results.
  cut (forall acc,
         match summarize_loop all_results acc with
         | Returned _ => Forall readable all_results
         | Raised e =>
             exists before o after,
               all_results = before ++ o :: after
               /\ Forall readable before
               /\ match o with
                  | None => e = TypeError "'NoneType' object is not subscriptable"
                  | Some r => status r = None /\ e = KeyError "status"
                  end
         end).
  { intros H. specialize (H initial).
    by destruct (summarize_loop all_results initial). }
  induction all_results as [|o rest IH]; intros acc; simpl; [done|].
  destruct o as [r|]; [|by exists [], None, rest].
  destruct (status r) as [st|] eqn:Hst; simpl;
    [|exists [], (Some r), rest; by rewrite Hst].
  assert (Hr : readable (Some r)) by (exists r; by rewrite Hst).
  assert (Hnext : forall acc',
            match summarize_loop rest acc' with
            | Returned _ => Forall readable (Some r :: rest)
            | Raised e =>
                exists before o after,
                  Some r :: rest = before ++ o :: after
                  /\ Forall readable before
                  /\ match o with
                     | None =>
                         e = TypeError "'NoneType' object is not subscriptable"
                     | Some r => status r = None /\ e = KeyError "status"
                     end
            end).
  { intros acc'. specialize (IH acc').
    destruct (summarize_loop rest acc') as [e|acc''].
    - destruct IH as (before & o & after & -> & Hbefore & Ho).
      exists (Some r :: before), o, after. split; [done|].
      split; [by constructor|done].
    - by constructor. }
  destruct (is_success st); simpl; apply Hnext.
Qed.

(** The class counts [summarize_results] reads off one result. *)
Definition class_counts_of (r : PipelineResult) : gmap string Z :=
  default ∅ (counts_by_class (default empty_summary (summary r))).

Lemma merge_counts_dom (counts class_counts : gmap string Z) :
  dom (merge_counts counts class_counts) = dom counts ∪ dom class_counts.
Proof.
  unfold merge_counts.
  apply (map_fold_weak_ind
           (fun (r : gmap string Z) (m : gmap string Z) =>
              dom r = dom counts ∪ dom m)).
  - by rewrite dom_empty_L, union_empty_r_L.
  - intros i x m r Hnone IH. unfold add_count.
    rewrite !dom_insert_L, IH.
    rewrite !(assoc_L (∪)). by rewrite (comm_L (∪) {[i]} (dom counts)).
Qed.

Lemma summarize_loop_species (all_results : list (option PipelineResult))
    (acc acc' : Accumulator) :
  summarize_loop all_results acc = Returned acc' ->
  (acc_species_detected acc = dom (acc_species_counts acc) ->
   acc_species_detected acc' = dom (acc_species_counts acc'))
  /\ forall sp,
       sp ∈ acc_species_detected acc' <->
       sp ∈ acc_species_detected acc
       \/ exists r, Some r ∈ all_results
                    /\ status_is_success (status r) = true
                    /\ is_Some (class_counts_of r !! sp).
Proof.
  revert acc. induction all_results as [|o rest IH]; intros acc Hloop.
  - simpl in Hloop. simplify_eq. split; [done|]. intros sp. split; [by left|].
    intros [?|(r & Hin & _)]; [done|]. by apply elem_of_nil in Hin.
  - simpl in Hloop. destruct o as [r|]; [|done].
    destruct (status r) as [st|] eqn:Hst; [|done]. simpl in Hloop.
    destruct (is_success st) eqn:Hok; simpl in Hloop.
    + destruct (IH _ Hloop) as [Hdom Hin]. split.
      * intros Hacc. apply Hdom. simpl.
        rewrite merge_counts_dom, Hacc. done.
      * intros sp. rewrite Hin. simpl. rewrite elem_of_union, elem_of_dom.
        fold (class_counts_of r). split.
        -- intros [[?|Hsp]|(r' & Hr' & Hs & Hsp)]; [by left| |].
           ++ right. exists r. rewrite Hst. simpl.
              split; [by left|done].
           ++ right. exists r'. split; [by right|done].
        -- intros [?|(r' & Hr' & Hs & Hsp)]; [by left; left|].
           apply elem_of_cons in Hr' as [[= ->]|Hr'].
           ++ left. by right.
           ++ right. by exists r'.
    + destruct (IH _ Hloop) as [Hdom Hin]. split; [done|].
      intros sp. rewrite Hin. split.
      * intros [?|(r' & Hr' & Hs & Hsp)]; [by left|].
        right. exists r'. split; [by right|done].
      * intros [?|(r' & Hr' & Hs & Hsp)]; [by left|].
        apply elem_of_cons in Hr' as [[= ->]|Hr'].
        -- rewrite Hst in Hs. simpl in Hs. congruence.
        -- right. by exists r'.
Qed.

(** The species a summary lists as detected are the species it has a count
    for: those that are a key of the class counts of some result with status
    success, be the count under that key zero or not. *)
Theorem species_detected_are_the_counted
    (all_results : list (option PipelineResult)) (s : BatchSummary) :
  summarize_results all_results = Returned s ->
  species_detected s = dom (species_counts s)
  /\ forall sp,
       sp ∈ species_detected s <->
       exists r, Some r ∈ all_results
                 /\ status_is_success (status r) = true
                 /\ is_Some (class_counts_of r !! sp).
Proof.
  unfold summarize_results. intros Hsum.
  destruct (summarize_loop all_results initial) as [e|acc] eqn:Hloop; [done|].
  simpl in Hsum. simplify_eq. simpl.
  destruct (summarize_loop_species _ _ _ Hloop) as [Hdom Hin]. split.
  - apply Hdom. simpl. set_solver.
  - intros sp. rewrite Hin. simpl. split.
    + intros [Hsp|Hr]; [|exact Hr]. by apply elem_of_empty in Hsp.
    + intros Hr. right. exact Hr.
Qed.

Lemma results_and_failures_length
    (execute_pipeline : string -> Exc PipelineResult) (image_files : list string) :
  (length (successful_results execute_pipeline image_files)
   + length (failed_records execute_pipeline image_files))%nat
  = length image_files.
Proof.
  induction image_files as [|image rest IH]; [done|].
  unfold successful_results, failed_records in *. simpl.
  unfold failed_record at 1.
  destruct (succeeds execute_pipeline image) eqn:Hs.
  - destruct (process_single_image_succeeds _ image Hs) as (results & -> & _).
    simpl. f_equal. exact IH.
  - destruct (process_single_image_fails _ image Hs) as (-> & _).
    simpl. rewrite Nat.add_succ_r. f_equal. exact IH.
Qed.

Lemma failed_records_nil (execute_pipeline : string -> Exc PipelineResult)
    (image_files : list string) :
  forallb (succeeds execute_pipeline) image_files = true ->
  failed_records execute_pipeline image_files = [].
Proof.
  induction image_files as [|image rest IH]; [done|]. simpl.
  intros [Hs Hrest]%andb_true_iff.
  unfold failed_records in *. simpl. unfold failed_record at 1.
  rewrite Hs. by apply IH.
Qed.

Lemma status_is_success_eq (r : PipelineResult) :
  status_is_success (status r) = true <-> status r = Some "success".
Proof.
  unfold status_is_success, is_success.
  destruct (status r) as [st|]; [|done].
  rewrite String.eqb_eq. split; congruence.
Qed.

(** How [main] ends.  It never ends with an exception of the summary step:
    the results handed to [summarize_results] all have the status success.
    When it exits early the exit code is 1.  When it completes, every image
    is either among the results or in the list of failed images, and without
    continue-on-error that list is empty. *)
Theorem batch_main_outcome (execute_pipeline : string -> Exc PipelineResult)
    (input_dir_exists : bool) (image_files : list string)
    (continue_on_error : bool) :
  match main execute_pipeline input_dir_exists image_files continue_on_error with
  | Uncaught e => False
  | SysExit code => code = 1%Z
  | Completed all_results failed_images s =>
      (length all_results + length failed_images)%nat = length image_files
      /\ Forall (fun o => exists r, o = Some r /\ status r = Some "success")
           all_results
      /\ total_images s = length all_results
      /\ (continue_on_error = false -> failed_images = [])
  end.
Proof.
  unfold main. destruct input_dir_exists; simpl; [|done].
  destruct image_files as [|image rest]; [done|].
  set (image_files := image :: rest).
  rewrite process_images_spec, !app_nil_l.
  destruct (continue_on_error || forallb (succeeds execute_pipeline) image_files)
    eqn:Hgo; [|done].
  destruct (summarize_results_successes _
              (successful_results_status execute_pipeline image_files))
    as (s & -> & Htotal & _).
  rewrite length_map.
  split; [apply results_and_failures_length|]. split.
  - apply Forall_fmap.
    eapply Forall_impl; [apply successful_results_status|].
    intros r Hr. exists r. split; [done|]. by apply status_is_success_eq.
  - split; [done|]. intros ->. simpl in Hgo. by apply failed_records_nil.
Qed.

(** Three results handed to [summarize_results] directly: the second has
    the status error. *)
Definition mixed_results : list PipelineResult :=
  omap (fun image => match mixed_pipeline image with
                     | Returned r => Some r
                     | Raised _ => None
                     end) mixed_batch.

Lemma summary_averages_over_all_results_witness :
  exists s shannon,
    summarize_results (map Some mixed_results) = Returned s
    /\ length (with_success mixed_results) = 2%nat
    /\ total_images s = 3%nat
    /\ average_diversity s !! "shannon" = Some shannon
    /\ shannon == 2 / 3.
Proof.
  assert (Hall : Forall (fun r => status r <> None) mixed_results)
    by (repeat (constructor; [discriminate|]); constructor).
  destruct (summary_averages_over_all_results mixed_results Hall)
    as (s & Hs & Htotal & _ & _ & shannon & simpson & Havg & Hmean & _).
  exists s, shannon. split; [exact Hs|]. split; [reflexivity|].
  split; [exact Htotal|]. split; [by rewrite Havg|].
  destruct Hmean as [Hshannon _]; [discriminate|].
  rewrite Hshannon. reflexivity.
Defined.

Lemma species_detected_are_the_counted_witness :
  exists s,
    summarize_results (map Some mixed_results) = Returned s
    /\ species_detected s = dom (species_counts s)
    /\ "copepod" ∈ species_detected s.
Proof.
  eexists. split; [vm_compute; reflexivity|].
  destruct (species_detected_are_the_counted (map Some mixed_results) _
              ltac:(vm_compute; reflexivity))
    as [Hdom Hin].
  split; [exact Hdom|]. apply Hin.
  eexists. split; [apply list_elem_of_here|]. split; [reflexivity|].
  by eexists.
Defined.

End Batch.

(** ** The analytics engine

    Modelled from the spec: the analytics module that the scripts call
    ([modules/analytics.py], reached through [manager.modules['analytics']])
    is not among the sources.  The functions below follow the definitions of
    the specification's analytics section, over the real numbers. *)

Module Analytics.

Local Open Scope R_scope.

(** Modelled from the spec: the sum that the analytics module (absent from
    the sources) takes over the classes. *)
Definition Rsum (l : list R) : R := foldr Rplus 0 l.

(** Modelled from the spec: [totalCount] of the absent analytics module,
    the sum of the counts of a ClassCounts mapping (class label to count, keys
    unique). *)
Definition total_count (c : gmap string nat) : nat :=
  sum_list (map snd (map_to_list c)).

(** Modelled from the spec: [p_i = count_i / totalCount] of the absent
    analytics module. *)
Definition proportion (c : gmap string nat) (n : nat) : R :=
  INR n / INR (total_count c).

(** Modelled from the spec: the classes with count > 0, over which the
    absent analytics module sums. *)
Definition present (c : gmap string nat) : gmap string nat :=
  filter (fun kn => (0 < kn.2)%nat) c.

(** Modelled from the spec: Shannon diversity of the absent analytics
    module, [H = - sum p_i ln p_i] over the classes with count > 0, and
    [H = 0] when [totalCount = 0]. *)
Definition shannon (c : gmap string nat) : R :=
  if Nat.eqb (total_count c) 0 then 0
  else - Rsum (map (fun kn => proportion c kn.2 * ln (proportion c kn.2))
                 (map_to_list (present c))).

(** Modelled from the spec: the Simpson index [D = sum p_i^2] of the absent
    analytics module. *)
Definition simpson (c : gmap string nat) : R :=
  Rsum (map (fun kn => proportion c kn.2 * proportion c kn.2) (map_to_list c)).

(** Modelled from the spec: the diversity form [1 - D] that the absent
    analytics module returns beside the index. *)
Definition simpson_diversity (c : gmap string nat) : R := 1 - simpson c.

(** Modelled from the spec: species richness of the absent analytics
    module, the count of classes with count > 0. *)
Definition species_richness (c : gmap string nat) : nat := size (present c).

Lemma total_count_singleton (a : string) (n : nat) :
  total_count {[ a := n ]} = n.
Proof.
  unfold total_count. rewrite map_to_list_singleton. simpl. lia.
Qed.

Lemma total_count_empty : total_count ∅ = 0%nat.
Proof. unfold total_count. by rewrite map_to_list_empty. Qed.

Lemma shannon_no_organisms (c : gmap string nat) :
  total_count c = 0%nat -> shannon c = 0.
Proof. intros H. unfold shannon. by rewrite H. Qed.

Lemma shannon_single_species (a : string) (n : nat) :
  shannon {[ a := n ]} = 0.
Proof.
  unfold shannon. rewrite total_count_singleton.
  destruct n as [|n]; [done|].
  change (Nat.eqb (S n) 0) with false. cbn iota.
  unfold present. rewrite map_filter_singleton.
  rewrite decide_True by (simpl; lia).
  rewrite map_to_list_singleton. simpl.
  unfold proportion. rewrite total_count_singleton.
  assert (Hne : INR (S n) <> 0) by (apply not_0_INR; lia).
  replace (INR (S n) / INR (S n)) with 1 by (by field).
  rewrite ln_1. lra.
Qed.

Lemma simpson_two_even_species :
  simpson {[ "A" := 1%nat; "B" := 1%nat ]} = 1 / 2
  /\ simpson_diversity {[ "A" := 1%nat; "B" := 1%nat ]} = 1 / 2.
Proof.
  assert (Hl : map_to_list ({[ "A" := 1%nat; "B" := 1%nat ]} : gmap string nat)
               = [("A", 1%nat); ("B", 1%nat)])
    by (vm_compute; reflexivity).
  assert (Hs : simpson {[ "A" := 1%nat; "B" := 1%nat ]} = 1 / 2).
  { unfold simpson, proportion, total_count. rewrite Hl. simpl. lra. }
  split; [done|]. unfold simpson_diversity. rewrite Hs. lra.
Qed.

(** C3.  The diversity functions at the edge cases of the specification:
    Shannon diversity is minus the sum of [p ln p] over the classes that are
    present when the total count is positive and is 0 when the total count is
    0, in particular for the empty mapping; it is 0 for every mapping with a
    single class; the Simpson index of two classes with one organism each is
    one half, and so is its diversity form; species richness is the number of
    classes whose count is not zero. *)
Theorem diversity_edge_cases :
  (forall c, total_count c <> 0%nat ->
     shannon c
     = - Rsum (map (fun kn => proportion c kn.2 * ln (proportion c kn.2))
                 (map_to_list (present c))))
  /\ (forall c, total_count c = 0%nat -> shannon c = 0)
  /\ shannon ∅ = 0
  /\ (forall a n, shannon {[ a := n ]} = 0)
  /\ shannon {[ "A" := 5%nat ]} = 0
  /\ simpson {[ "A" := 1%nat; "B" := 1%nat ]} = 1 / 2
  /\ simpson_diversity {[ "A" := 1%nat; "B" := 1%nat ]} = 1 / 2
  /\ (forall c, species_richness c
                = size (dom (filter (fun kn => kn.2 <> 0%nat) c))).
Proof.
  split.
  { intros c Hc. unfold shannon.
    by destruct (Nat.eqb_spec (total_count c) 0). }
  split; [exact shannon_no_organisms|].
  split; [apply shannon_no_organisms, total_count_empty|].
  split; [exact shannon_single_species|].
  split; [apply shannon_single_species|].
  split; [apply simpson_two_even_species|].
  split; [apply simpson_two_even_species|].
  intros c. unfold species_richness, present. rewrite size_dom. f_equal.
  apply map_filter_ext. intros i x _. simpl. lia.
Qed.

(** The concrete scenario of the specification: for the counts [{A: 2}]
    the Simpson index is 1 and the species richness is 1. *)
Example single_species_scenario :
  shannon {[ "A" := 2%nat ]} = 0
  /\ simpson {[ "A" := 2%nat ]} = 1
  /\ species_richness {[ "A" := 2%nat ]} = 1%nat.
Proof.
  split; [apply shannon_single_species|]. split.
  - unfold simpson, proportion. rewrite total_count_singleton.
    rewrite map_to_list_singleton. simpl. lra.
  - reflexivity.
Qed.

End Analytics.

(** ** Configuration validation

    Modelled from the spec: [ConfigValidator.validate] ([pipeline/validators.py])
    is not among the sources; [main.py] only calls it and reads the pair
    [(is_valid, errors)].  The validator below follows the specification's
    section on ConfigValidator: an enumerated schema of required sections,
    required keys per section and value ranges, checked in one pass that
    collects every violation. *)

Module Validator.

(** Modelled from the spec: the values of a configuration object handed to
    the absent [ConfigValidator]. *)
Inductive Value : Type :=
| VNumber (q : Q)
| VString (s : string)
| VBool (b : bool).

(** Modelled from the spec: a value-range constraint of the absent
    [ConfigValidator]; each end is closed or open. *)
Record Range : Type := {
  low : Q;
  low_closed : bool;
  high : Q;
  high_closed : bool
}.

(** Modelled from the spec: the range test of the absent
    [ConfigValidator]; a value that is no number is out of every range. *)
Definition in_range (r : Range) (v : Value) : bool :=
  match v with
  | VNumber q =>
      (if low_closed r then Qle_bool (low r) q
       else Qle_bool (low r) q && negb (Qeq_bool (low r) q))
      && (if high_closed r then Qle_bool q (high r)
          else Qle_bool q (high r) && negb (Qeq_bool q (high r)))
  | _ => false
  end.

(** Modelled from the spec: a required key of a section in the schema of
    the absent [ConfigValidator], with the range its value must lie in, if
    any. *)
Record KeyRule : Type := {
  key_name : string;
  key_range : option Range
}.

(** Modelled from the spec: the enumerated schema of the absent
    [ConfigValidator], the required sections in order, each with its required
    keys. *)
Definition Schema : Type := list (string * list KeyRule).

(** Modelled from the spec: the ranges [[0,1]] and [(0,1]] that the absent
    [ConfigValidator] checks. *)
Definition unit_interval : Range :=
  {| low := 0; low_closed := true; high := 1; high_closed := true |}.

Definition positive_unit_interval : Range :=
  {| low := 0; low_closed := false; high := 1; high_closed := true |}.

(** Modelled from the spec: the schema of the absent [ConfigValidator] as
    far as the specification spells it out; the seven stage names are the
    required sections, the keys are those it names. *)
Definition spec_schema : Schema :=
  [("acquisition", []);
   ("preprocessing", []);
   ("segmentation",
    [{| key_name := "minArea"; key_range := None |};
     {| key_name := "maxArea"; key_range := None |}]);
   ("classification", []);
   ("counting",
    [{| key_name := "confidenceThreshold"; key_range := Some unit_interval |}]);
   ("analytics",
    [{| key_name := "bloomDominanceThreshold";
        key_range := Some positive_unit_interval |}]);
   ("export", [])].

(** Modelled from the spec: a violation reported by the absent
    [ConfigValidator]; it names its section and key. *)
Inductive Violation : Type :=
| MissingSection (section : string)
| MissingKey (section key : string)
| OutOfRange (section key : string).

#[global] Instance Violation_eq_dec : EqDecision Violation.
Proof. solve_decision. Defined.

(** Modelled from the spec: the human-readable message of a violation of
    the absent [ConfigValidator]. *)
Definition message (v : Violation) : string :=
  match v with
  | MissingSection s => String.append "Missing required section: " s
  | MissingKey s k =>
      String.append "Missing required key: "
        (String.append s (String.append "." k))
  | OutOfRange s k =>
      String.append "Value out of range: "
        (String.append s (String.append "." k))
  end.

(** Modelled from the spec: the check of one required key by the absent
    [ConfigValidator], one violation per missing or out-of-range key. *)
Definition check_key (section : string) (values : gmap string Value)
    (rule : KeyRule) : list Violation :=
  match values !! key_name rule with
  | None => [MissingKey section (key_name rule)]
  | Some v =>
      match key_range rule with
      | Some r => if in_range r v then [] else [OutOfRange section (key_name rule)]
      | None => []
      end
  end.

(** Modelled from the spec: the check of one required section by the
    absent [ConfigValidator].  A section that is not there is reported, and so
    is each of its required keys: none of them is there. *)
Definition check_section (config : gmap string (gmap string Value))
    (entry : string * list KeyRule) : list Violation :=
  match config !! entry.1 with
  | None => MissingSection entry.1
            :: ((fun rule => MissingKey entry.1 (key_name rule)) <$> entry.2)
  | Some values => mjoin (check_key entry.1 values <$> entry.2)
  end.

(** Modelled from the spec: the single pass of the absent
    [ConfigValidator] over the schema, which collects every violation in the
    order of the schema. *)
Definition violations (schema : Schema) (config : gmap string (gmap string Value))
  : list Violation :=
  mjoin (check_section config <$> schema).

(** Modelled from the spec: [validate] of the absent [ConfigValidator]
    returns [valid] or the non-empty ordered list of violations; as [main.py]
    reads it, a pair of a flag and the list. *)
Definition validate (schema : Schema) (config : gmap string (gmap string Value))
  : bool * list Violation :=
  let errors := violations schema config in
  (bool_decide (errors = []), errors).

(** [main.py], up to the start of the pipeline: an invalid configuration
    ends the program with exit code 1 after logging every error; with
    [--validate-only] a valid one ends it with 0; [None] means the pipeline
    is started. *)
Definition main_until_pipeline (schema : Schema)
    (config : gmap string (gmap string Value)) (validate_only : bool)
  : option Z * list string :=
  let '(is_valid, errors) := validate schema config in
  if negb is_valid then
    (Some 1%Z,
     "Configuration validation failed!"
     :: ((fun error => String.append "  - " (message error)) <$> errors))
  else if validate_only then (Some 0%Z, ["Configuration is valid!"])
  else (None, []).

(** *** What is missing, counted on the schema *)

Definition lookup_key (config : gmap string (gmap string Value))
    (section key : string) : option Value :=
  values ← config !! section; values !! key.

(** The required keys of a section that the configuration lacks; the
    section itself counts as one more when it is absent. *)
Definition missing_in_section (config : gmap string (gmap string Value))
    (entry : string * list KeyRule) : nat :=
  (if bool_decide (config !! entry.1 = None) then 1 else 0)
  + length (filter (fun rule => lookup_key config entry.1 (key_name rule) = None)
              entry.2).

Definition missing_keys (schema : Schema)
    (config : gmap string (gmap string Value)) : nat :=
  sum_list (missing_in_section config <$> schema).

Definition out_of_range (config : gmap string (gmap string Value))
    (section : string) (rule : KeyRule) : bool :=
  match lookup_key config section (key_name rule), key_range rule with
  | Some v, Some r => negb (in_range r v)
  | _, _ => false
  end.

Definition out_of_range_in_section (config : gmap string (gmap string Value))
    (entry : string * list KeyRule) : nat :=
  length (filter (fun rule => out_of_range config entry.1 rule = true) entry.2).

Definition range_violations (schema : Schema)
    (config : gmap string (gmap string Value)) : nat :=
  sum_list (out_of_range_in_section config <$> schema).

(** A violation names a section of the schema, or a required key of one of
    its sections, that is at fault in the configuration. *)
Definition offending (schema : Schema)
    (config : gmap string (gmap string Value)) (v : Violation) : Prop :=
  match v with
  | MissingSection s =>
      (exists rules, (s, rules) ∈ schema) /\ config !! s = None
  | MissingKey s k =>
      (exists rules rule, (s, rules) ∈ schema /\ rule ∈ rules
                          /\ key_name rule = k)
      /\ lookup_key config s k = None
  | OutOfRange s k =>
      exists rules rule, (s, rules) ∈ schema /\ rule ∈ rules
                         /\ key_name rule = k
                         /\ out_of_range config s rule = true
  end.

(** No section is listed twice, and no key twice within a section. *)
Definition well_formed (schema : Schema) : Prop :=
  NoDup (fst <$> schema)
  /\ Forall (fun entry => NoDup (key_name <$> entry.2)) schema.

Definition section_of (v : Violation) : string :=
  match v with
  | MissingSection s | MissingKey s _ | OutOfRange s _ => s
  end.

Definition key_of (v : Violation) : option string :=
  match v with
  | MissingSection _ => None
  | MissingKey _ k | OutOfRange _ k => Some k
  end.

(** *** Facts about one section *)

Section OneSection.

Variable config : gmap string (gmap string Value).

Lemma check_key_cases (section : string) (values : gmap string Value)
    (rule : KeyRule) :
  config !! section = Some values ->
  (lookup_key config section (key_name rule) = None
   /\ out_of_range config section rule = false
   /\ check_key section values rule = [MissingKey section (key_name rule)])
  \/ (lookup_key config section (key_name rule) <> None
      /\ out_of_range config section rule = true
      /\ check_key section values rule = [OutOfRange section (key_name rule)])
  \/ (lookup_key config section (key_name rule) <> None
      /\ out_of_range config section rule = false
      /\ check_key section values rule = []).
Proof.
  intros Hsec. unfold check_key, out_of_range, lookup_key.
  rewrite Hsec. simpl.
  destruct (values !! key_name rule) as [v|]; [|by left].
  right. destruct (key_range rule) as [r|]; [|by right].
  destruct (in_range r v); [by right|by left].
Qed.

Lemma check_section_length (entry : string * list KeyRule) :
  length (check_section config entry)
  = missing_in_section config entry + out_of_range_in_section config entry.
Proof.
  destruct entry as [section rules].
  unfold check_section, missing_in_section, out_of_range_in_section. simpl.
  destruct (config !! section) as [values|] eqn:Hsec.
  - rewrite bool_decide_eq_false_2 by done. simpl.
    induction rules as [|rule rules IH]; [done|].
    change (mjoin (check_key section values <$> rule :: rules))
      with (check_key section values rule
            ++ mjoin (check_key section values <$> rules)).
    rewrite length_app, IH.
    destruct (check_key_cases section values rule Hsec)
      as [(Hl & Ho & ->)|[(Hl & Ho & ->)|(Hl & Ho & ->)]].
    + rewrite filter_cons_True by done.
      rewrite (filter_cons_False (fun r => out_of_range _ _ r = true))
        by (by rewrite Ho).
      simpl. lia.
    + rewrite filter_cons_False by done.
      rewrite (filter_cons_True (fun r => out_of_range _ _ r = true)) by done.
      simpl. lia.
    + rewrite filter_cons_False by done.
      rewrite (filter_cons_False (fun r => out_of_range _ _ r = true))
        by (by rewrite Ho).
      simpl. lia.
  - rewrite bool_decide_eq_true_2 by done. simpl. rewrite length_fmap.
    assert (Hall : forall rule, lookup_key config section (key_name rule) = None)
      by (intros rule; unfold lookup_key; by rewrite Hsec).
    induction rules as [|rule rules IH]; [done|].
    rewrite filter_cons_True by apply Hall.
    rewrite (filter_cons_False (fun r => out_of_range _ _ r = true))
      by (unfold out_of_range; by rewrite Hall).
    simpl. lia.
Qed.

Lemma check_section_sound (entry : string * list KeyRule) (v : Violation) :
  v ∈ check_section config entry ->
  section_of v = entry.1
  /\ match v with
     | MissingSection _ => config !! entry.1 = None
     | MissingKey _ k =>
         (exists rule, rule ∈ entry.2 /\ key_name rule = k)
         /\ lookup_key config entry.1 k = None
     | OutOfRange _ k =>
         exists rule, rule ∈ entry.2 /\ key_name rule = k
                      /\ out_of_range config entry.1 rule = true
     end.
Proof.
  destruct entry as [section rules]. unfold check_section. simpl.
  destruct (config !! section) as [values|] eqn:Hsec.
  - intros Hin. apply list_elem_of_join in Hin as (l & Hv & Hl).
    apply list_elem_of_fmap in Hl as (rule & -> & Hrule).
    destruct (check_key_cases section values rule Hsec)
      as [(Hl & Ho & Hc)|[(Hl & Ho & Hc)|(Hl & Ho & Hc)]];
      rewrite Hc in Hv.
    + apply list_elem_of_singleton in Hv as ->. simpl. eauto.
    + apply list_elem_of_singleton in Hv as ->. simpl. eauto.
    + by apply elem_of_nil in Hv.
  - intros Hin. apply elem_of_cons in Hin as [->|Hin]; [done|].
    apply list_elem_of_fmap in Hin as (rule & -> & Hrule). simpl.
    split; [done|]. split; [eauto|]. unfold lookup_key. by rewrite Hsec.
Qed.

Lemma check_section_complete (entry : string * list KeyRule) :
  (config !! entry.1 = None -> MissingSection entry.1 ∈ check_section config entry)
  /\ (forall rule, rule ∈ entry.2 ->
        (lookup_key config entry.1 (key_name rule) = None ->
         MissingKey entry.1 (key_name rule) ∈ check_section config entry)
        /\ (out_of_range config entry.1 rule = true ->
            OutOfRange entry.1 (key_name rule) ∈ check_section config entry)).
Proof.
  destruct entry as [section rules]. unfold check_section. simpl.
  destruct (config !! section) as [values|] eqn:Hsec.
  - split; [done|]. intros rule Hrule.
    assert (Hsub : forall v, v ∈ check_key section values rule ->
                     v ∈ mjoin (check_key section values <$> rules)).
    { intros v Hv. apply list_elem_of_join. eexists. split; [exact Hv|].
      apply list_elem_of_fmap. eauto. }
    destruct (check_key_cases section values rule Hsec)
      as [(Hl & Ho & Hc)|[(Hl & Ho & Hc)|(Hl & Ho & Hc)]];
      split; intros H; try congruence;
      apply Hsub; rewrite Hc; by apply list_elem_of_singleton.
  - split; [intros _; apply elem_of_cons; by left|].
    intros rule Hrule. split.
    + intros _. apply elem_of_cons. right.
      apply list_elem_of_fmap. eauto.
    + unfold out_of_range, lookup_key. by rewrite Hsec.
Qed.

Lemma check_section_NoDup (entry : string * list KeyRule) :
  NoDup (key_name <$> entry.2) -> NoDup (check_section config entry).
Proof.
  destruct entry as [section rules]. unfold check_section. simpl.
  intros Hnd.
  destruct (config !! section) as [values|] eqn:Hsec.
  - induction rules as [|rule rules IH]; [constructor|].
    simpl in *. apply NoDup_cons in Hnd as [Hnotin Hnd].
    apply NoDup_app. split; [|split; [|by apply IH]].
    + unfold check_key. repeat case_match; repeat constructor; set_solver.
    + intros v Hv Hin.
      apply list_elem_of_join in Hin as (l & Hvl & Hl).
      apply list_elem_of_fmap in Hl as (rule' & -> & Hrule').
      assert (Hk : forall r, v ∈ check_key section values r ->
                     key_of v = Some (key_name r)).
      { intros r Hr. unfold check_key in Hr.
        repeat case_match; try (by apply elem_of_nil in Hr);
          by apply list_elem_of_singleton in Hr as ->. }
      apply Hk in Hv. apply Hk in Hvl. rewrite Hv in Hvl.
      apply Hnotin. apply list_elem_of_fmap. exists rule'.
      split; [congruence|done].
  - apply NoDup_cons. split.
    + intros Hin. apply list_elem_of_fmap in Hin as (rule & ? & _). done.
    + change ((fun rule => MissingKey section (key_name rule)) <$> rules)
        with ((MissingKey section ∘ key_name) <$> rules).
      rewrite list_fmap_compose.
      apply NoDup_fmap_2; [|done]. intros k1 k2. congruence.
Qed.

End OneSection.

(** *** Facts about the whole pass *)

Lemma violations_length (schema : Schema)
    (config : gmap string (gmap string Value)) :
  length (violations schema config)
  = missing_keys schema config + range_violations schema config.
Proof.
  unfold violations, missing_keys, range_violations.
  induction schema as [|entry schema IH]; [done|].
  change (mjoin (check_section config <$> entry :: schema))
    with (check_section config entry ++ mjoin (check_section config <$> schema)).
  rewrite length_app, IH, check_section_length. rewrite !fmap_cons.
  cbn [sum_list sum_list_with]. unfold Datatypes.id. lia.
Qed.

Lemma violations_offending (schema : Schema)
    (config : gmap string (gmap string Value)) (v : Violation) :
  v ∈ violations schema config <-> offending schema config v.
Proof.
  unfold violations. split.
  - intros Hin. apply list_elem_of_join in Hin as (l & Hv & Hl).
    apply list_elem_of_fmap in Hl as ([section rules] & -> & Hentry).
    apply check_section_sound in Hv as [Hsec Hv]. simpl in *.
    destruct v as [s|s k|s k]; simpl in *; subst s.
    + split; [eauto|done].
    + destruct Hv as [(rule & Hrule & Hk) Hnone]. split; [|done].
      exists rules, rule. eauto.
    + destruct Hv as (rule & Hrule & Hk & Ho). exists rules, rule. eauto.
  - intros Hoff.
    assert (Hsub : forall entry, entry ∈ schema ->
                     v ∈ check_section config entry ->
                     v ∈ mjoin (check_section config <$> schema)).
    { intros entry Hentry Hv. apply list_elem_of_join.
      eexists. split; [exact Hv|]. apply list_elem_of_fmap. eauto. }
    destruct v as [s|s k|s k]; simpl in Hoff.
    + destruct Hoff as [[rules Hentry] Hnone].
      apply (Hsub _ Hentry).
      by apply (check_section_complete config (s, rules)).
    + destruct Hoff as [(rules & rule & Hentry & Hrule & <-) Hnone].
      apply (Hsub _ Hentry).
      by apply (check_section_complete config (s, rules)).
    + destruct Hoff as (rules & rule & Hentry & Hrule & <- & Ho).
      apply (Hsub _ Hentry).
      by apply (check_section_complete config (s, rules)).
Qed.

Lemma violations_NoDup (schema : Schema)
    (config : gmap string (gmap string Value)) :
  well_formed schema -> NoDup (violations schema config).
Proof.
  unfold violations, well_formed. intros [Hsections Hkeys].
  induction schema as [|entry schema IH]; [constructor|].
  change (mjoin (check_section config <$> entry :: schema))
    with (check_section config entry ++ mjoin (check_section config <$> schema)).
  rewrite fmap_cons in Hsections.
  apply NoDup_cons in Hsections as [Hnotin Hsections].
  apply Forall_cons in Hkeys as [Hentry Hkeys].
  apply NoDup_app. split; [by apply check_section_NoDup|].
  split; [|by apply IH].
  intros v Hv Hin.
  apply check_section_sound in Hv as [Hsec _].
  apply list_elem_of_join in Hin as (l & Hvl & Hl).
  apply list_elem_of_fmap in Hl as (entry' & -> & Hentry').
  apply check_section_sound in Hvl as [Hsec' _].
  apply Hnotin. apply list_elem_of_fmap. exists entry'.
  split; [congruence|done].
Qed.

(** C5.  For a schema without repeated names and any configuration:
    validation reports valid exactly when it found no violation, so an invalid
    report always comes with a non-empty list; the list holds exactly the
    violations that are at fault in the configuration (every missing section,
    every missing required key, every value out of its range), each naming its
    section and key, without repetition; its length is the number of missing
    required keys plus the number of range violations, hence never less than
    the number of missing keys and never zero when a required key is
    missing. *)
Theorem validation_collects_every_violation (schema : Schema)
    (config : gmap string (gmap string Value)) :
  well_formed schema ->
  let is_valid := (validate schema config).1 in
  let errors := (validate schema config).2 in
  (is_valid = true <-> errors = [])
  /\ (is_valid = false -> errors <> [])
  /\ (forall v, v ∈ errors <-> offending schema config v)
  /\ NoDup errors
  /\ length errors
     = missing_keys schema config + range_violations schema config
  /\ missing_keys schema config <= length errors
  /\ (0 < missing_keys schema config -> is_valid = false /\ errors <> []).
Proof.
  intros Hwf is_valid errors. subst is_valid errors.
  unfold validate. simpl.
  pose proof (violations_length schema config) as Hlen.
  split; [apply bool_decide_eq_true|].
  split; [by intros ?%bool_decide_eq_false|].
  split; [apply violations_offending|].
  split; [by apply violations_NoDup|].
  split; [done|]. split; [lia|].
  intros Hmissing.
  assert (violations schema config <> [])
    by (intros Hnil; rewrite Hnil in Hlen; simpl in Hlen; lia).
  split; [by apply bool_decide_eq_false|done].
Qed.

(** A configuration that lacks the counting section, lacks [maxArea], and
    sets the bloom threshold to 0, outside (0, 1]. *)
Definition test_config : gmap string (gmap string Value) :=
  {[ "acquisition" := ∅;
     "preprocessing" := ∅;
     "segmentation" := {[ "minArea" := VNumber 100 ]};
     "classification" := ∅;
     "analytics" := {[ "bloomDominanceThreshold" := VNumber 0 ]};
     "export" := ∅ ]}.

Example test_config_violations :
  validate spec_schema test_config
  = (false,
     [MissingKey "segmentation" "maxArea";
      MissingSection "counting";
      MissingKey "counting" "confidenceThreshold";
      OutOfRange "analytics" "bloomDominanceThreshold"])
  /\ missing_keys spec_schema test_config = 3
  /\ range_violations spec_schema test_config = 1
  /\ (main_until_pipeline spec_schema test_config false).1 = Some 1%Z.
Proof. repeat split; vm_compute; reflexivity. Qed.

Lemma spec_schema_well_formed : well_formed spec_schema.
Proof.
  split.
  - apply (bool_decide_unpack _). by vm_compute.
  - apply (bool_decide_unpack _). by vm_compute.
Qed.

Lemma validation_collects_every_violation_witness :
  well_formed spec_schema
  /\ (validate spec_schema test_config).1 = false
  /\ NoDup (validate spec_schema test_config).2
  /\ missing_keys spec_schema test_config
     <= length (validate spec_schema test_config).2.
Proof.
  split; [exact spec_schema_well_formed|].
  destruct (validation_collects_every_violation spec_schema test_config
              spec_schema_well_formed)
    as (_ & _ & _ & Hnodup & _ & Hle & Hmissing).
  split; [|split; [exact Hnodup | exact Hle]].
  apply Hmissing. vm_compute. lia.
Defined.

End Validator.
